(** * ETA core: frame ranges, detected objects and object schemas

    A shallow embedding of [eta/core/frames.py] and [eta/core/objects.py]
    together with the properties stated about them.

    Python objects are mutated in place; here every method that mutates
    [self] returns the new value of [self] (and of any argument it
    mutates).  A method that can raise returns a [result]. *)

From Stdlib Require Import ZArith PrimFloat FloatOps SpecFloat.
From Stdlib Require Import DecimalString DecimalZ DecimalPos Ascii String.
From stdpp Require Import functions gmap strings list fin_maps sorting.

#[local] Set Warnings "-register-all".
#[local] Open Scope Z_scope.

(* ===================================================================== *)
(** * Exceptions and the error monad                                      *)
(* ===================================================================== *)

(** The exception classes that the modelled code raises, or that the
    Python runtime raises on its behalf. *)
Inductive exn : Type :=
  | FrameRangeError               (* frames.py *)
  | FrameRangesError              (* frames.py *)
  | ObjectSchemaError             (* objects.py *)
  | ObjectContainerSchemaError    (* objects.py *)
  | AttributeContainerSchemaError (* eta.core.data *)
  | ValueError
  | AttributeError
  | IndexError
  | TypeError
  | OverflowError
  | KeyError
  | ZeroDivisionError.

Inductive result (A : Type) : Type :=
  | Ok (a : A)
  | Raise (e : exn).
Arguments Ok {A} a.
Arguments Raise {A} e.

Definition bind {A B : Type} (r : result A) (k : A -> result B) : result B :=
  match r with
  | Ok a => k a
  | Raise e => Raise e
  end.

Notation "x <- r ;; k" := (bind r (fun x => k))
  (at level 100, r at next level, right associativity).
Notation "r ;;; k" := (bind r (fun _ => k))
  (at level 100, right associativity).

(** [for x in l: body] over a state that [body] may abort. *)
Fixpoint for_each {A S : Type} (body : S -> A -> result S) (l : list A) (s : S)
  : result S :=
  match l with
  | [] => Ok s
  | x :: tl => s' <- body s x ;; for_each body tl s'
  end.

Definition is_ok {A : Type} (r : result A) : bool :=
  match r with Ok _ => true | Raise _ => false end.

(* ===================================================================== *)
(** * Python built-ins used by frames.py                                  *)
(* ===================================================================== *)

(** ["%d" % n]. *)
Definition format_d (n : Z) : string := NilZero.string_of_int (Z.to_int n).

(** [int(s)] on an optional sign followed by decimal digits; any other
    string raises [ValueError].  (Surrounding white space and digit
    separators, which [int] also accepts, are not modelled and are
    rejected.) *)
Definition int_of_str (s : string) : result Z :=
  let body := match s with
              | String "+"%char s' =>
                  match s' with
                  | String "+"%char _ | String "-"%char _ => EmptyString
                  | _ => s'
                  end
              | _ => s
              end in
  match NilZero.int_of_string body with
  | Some d => Ok (Z.of_int d)
  | None => Raise ValueError
  end.

(** [s.split(sep)] for a one-character separator: the pieces between the
    occurrences of [sep]; always at least one piece. *)
Fixpoint split (sep : ascii) (s : string) : list string :=
  match s with
  | EmptyString => [EmptyString]
  | String c tl =>
      if Ascii.eqb c sep then EmptyString :: split sep tl
      else match split sep tl with
           | [] => [String c EmptyString]
           | p :: ps => String c p :: ps
           end
  end.

(** [list(range(a, b))]. *)
Definition range (a b : Z) : list Z := seqZ a (b - a).

(** [sorted(vals)] on integers. *)
Definition sorted (vals : list Z) : list Z := merge_sort Z.le vals.

(** [v[-1]] on a list: the last element, [IndexError] when empty. *)
Definition list_last {A : Type} (v : list A) : result A :=
  match last v with
  | Some x => Ok x
  | None => Raise IndexError
  end.

Definition list_first {A : Type} (v : list A) : result A :=
  match v with
  | x :: _ => Ok x
  | [] => Raise IndexError
  end.

(* ===================================================================== *)
(** * frames.py: FrameRange                                               *)
(* ===================================================================== *)

Module FrameRange.

(** Instance attributes [first], [last] and the cursor [_frame]. *)
Record t : Type := Build {
  first : Z;
  last : Z;
  _frame : Z
}.

Definition _validate_range (first last : Z) : result unit :=
  if first <? 1 then Raise FrameRangeError
  else if last <? first then Raise FrameRangeError
  else Ok tt.

(** [FrameRange(first, last)] *)
Definition __init__ (first last : Z) : result t :=
  _validate_range first last ;;;
  Ok (Build first last (-1)).

Definition __len__ (self : t) : Z := last self + 1 - first self.

Definition reset (self : t) : t := Build (first self) (last self) (-1).

Definition limits (self : t) : Z * Z := (first self, last self).

Definition to_list (self : t) : list Z := range (first self) (last self + 1).

Definition to_human_str (self : t) : string :=
  if first self =? last self then format_d (first self)
  else format_d (first self) +:+ "-" +:+ format_d (last self).

(** The [try] block catches the [ValueError] of [int] and raises
    [FrameRangeError]; the constructor's own [FrameRangeError] passes
    through. *)
Definition from_human_str (frames_str : string) : result t :=
  match for_each (fun acc tok => n <- int_of_str tok ;; Ok (acc ++ [n]))
                 (split "-"%char frames_str) [] with
  | Raise ValueError => Raise FrameRangeError
  | Raise e => Raise e
  | Ok v =>
      v0 <- list_first v ;;
      vlast <- list_last v ;;
      __init__ v0 vlast
  end.

(** ** Traversal and the remaining properties *)

Definition __iter__ (self : t) : t := reset self.

(** [__next__]: the instance afterwards and the frame returned; [None]
    stands for [StopIteration]. *)
Definition __next__ (self : t) : t * option Z :=
  if _frame self <? 0
  then (Build (first self) (last self) (first self), Some (first self))
  else if _frame self <? last self
       then (Build (first self) (last self) (_frame self + 1),
             Some (_frame self + 1))
       else (self, None).

(** The [frame] property. *)
Definition frame (self : t) : Z :=
  if _frame self <? 0 then -1 else _frame self.

Definition is_first_frame (self : t) : bool := _frame self =? first self.

End FrameRange.

(** [_iterable_to_ranges]: the loop over [vals[1:]] with the running
    [first] and [last]; the generator's items in order. *)
Fixpoint _iterable_to_ranges_loop (first last : Z) (vals : list Z) : list (Z * Z) :=
  match vals with
  | [] => [(first, last)]
  | val :: tl =>
      if val =? last + 1 then _iterable_to_ranges_loop first (last + 1) tl
      else (first, last) :: _iterable_to_ranges_loop val val tl
  end.

Definition _iterable_to_ranges (vals : list Z) : list (Z * Z) :=
  match sorted vals with
  | [] => []
  | v0 :: tl => _iterable_to_ranges_loop v0 v0 tl
  end.

(* ===================================================================== *)
(** * frames.py: FrameRanges                                              *)
(* ===================================================================== *)

Module FrameRanges.

Record t : Type := Build {
  _ranges : list FrameRange.t;
  _idx : nat;
  _started : bool
}.

Definition empty : t := Build [] 0%nat false.

Definition __bool__ (self : t) : bool :=
  match _ranges self with [] => false | _ => true end.

(** The [limits] property: [(None, None)] when empty. *)
Definition limits (self : t) : option Z * option Z :=
  if negb (__bool__ self) then (None, None)
  else (fst <$> (FrameRange.limits <$> head (_ranges self)),
        snd <$> (FrameRange.limits <$> last (_ranges self))).

Definition num_ranges (self : t) : nat := length (_ranges self).

Definition _ingest_range (self : t) (new_range : Z * Z) : result t :=
  let '(first, last) := new_range in
  let end_ := snd (limits self) in
  match end_ with
  | Some e =>
      if first <=? e then Raise FrameRangesError
      else r <- FrameRange.__init__ first last ;;
           Ok (Build (_ranges self ++ [r]) (_idx self) (_started self))
  | None =>
      r <- FrameRange.__init__ first last ;;
      Ok (Build (_ranges self ++ [r]) (_idx self) (_started self))
  end.

Definition add_range (self : t) (new_range : Z * Z) : result t :=
  _ingest_range self new_range.

(** [FrameRanges(ranges=...)] with an iterable of tuples. *)
Definition __init__ (ranges : list (Z * Z)) : result t :=
  for_each _ingest_range ranges empty.

(** [reset]: rewinds the ranges [_ranges[:_idx + 1]]. *)
Definition reset (self : t) : t :=
  Build ((FrameRange.reset <$> take (S (_idx self)) (_ranges self))
           ++ drop (S (_idx self)) (_ranges self))
        0%nat false.

Definition clear (self : t) : t :=
  reset (Build [] (_idx self) (_started self)).

(** The loop of [simplify].  [new_ranges] is [done ++ [last_range]]:
    [last_range] is the list object that sits at the end of
    [new_ranges], so writing [last_range[1]] changes that entry. *)
Fixpoint simplify_loop (done : list (Z * Z)) (last_range : Z * Z)
    (did_something : bool) (olds : list FrameRange.t)
  : list (Z * Z) * bool :=
  match olds with
  | [] => (done ++ [last_range], did_something)
  | old_range :: tl =>
      let '(ofirst, olast) := FrameRange.limits old_range in
      if ofirst <=? snd last_range + 1
      then simplify_loop done (fst last_range, olast) true tl
      else simplify_loop (done ++ [last_range]) (ofirst, olast) did_something tl
  end.

Definition simplify (self : t) : result t :=
  match _ranges self with
  | [] => Ok self
  | r0 :: tl =>
      let '(new_ranges, did_something) :=
        simplify_loop [] (FrameRange.limits r0) false tl in
      if negb did_something then Ok (reset self)
      else for_each add_range new_ranges (clear self)
  end.

Definition to_range_tuples (self : t) : list (Z * Z) :=
  FrameRange.limits <$> _ranges self.

Definition to_list (self : t) : list Z :=
  concat (FrameRange.to_list <$> _ranges self).

Definition to_human_str (self : t) : string :=
  String.concat "," (FrameRange.to_human_str <$> _ranges self).

(** [np.zeros(n, dtype=bool)] for an integer [n]. *)
Definition np_zeros (n : Z) : result (list bool) :=
  if n <? 0 then Raise ValueError
  else Ok (replicate (Z.to_nat n) false).

(** [bools[i] = True] for one integer index of a numpy array: negative
    indices count from the end, anything outside raises. *)
Definition np_set_true (bools : list bool) (i : Z) : result (list bool) :=
  let n := Z.of_nat (length bools) in
  if (0 <=? i) && (i <? n) then Ok (<[Z.to_nat i := true]> bools)
  else if (- n <=? i) && (i <? 0) then Ok (<[Z.to_nat (n + i) := true]> bools)
  else Raise IndexError.

(** [np.flatnonzero(bools)]: the positions holding [True], ascending. *)
Fixpoint flatnonzero_from (i : Z) (bools : list bool) : list Z :=
  match bools with
  | [] => []
  | b :: tl => (if b then [i] else []) ++ flatnonzero_from (i + 1) tl
  end.

Definition flatnonzero (bools : list bool) : list Z := flatnonzero_from 0 bools.

(** [to_bools]; with no [total_frame_count] and an empty instance the
    count is [None], which is not a size: numpy rejects it (older versions
    build a 0-dimensional array, which the indexing then rejects). *)
Definition to_bools (self : t) (total_frame_count : option Z)
  : result (list bool) :=
  let total_frame_count :=
    match total_frame_count with
    | None => snd (limits self)
    | Some n => Some n
    end in
  match total_frame_count with
  | None => Raise TypeError
  | Some n =>
      bools <- np_zeros n ;;
      let inds := (fun i => i - 1) <$> filter (fun i => i <= n) (to_list self) in
      for_each np_set_true inds bools
  end.

(** [from_iterable(frames)] *)
Definition from_iterable (frames : list Z) : result t :=
  __init__ (_iterable_to_ranges frames).

(** [from_bools(bools)] *)
Definition from_bools (bools : list bool) : result t :=
  from_iterable ((fun i => 1 + i) <$> flatnonzero bools).

(** The class invariant ("a monotonically increasing and disjoint series
    of frames"): every range has [1 <= first <= last] and starts after
    the end of the range before it.  [ranges_after e] also asks the
    first range to start after [e]. *)
Fixpoint ranges_after (e : Z) (tuples : list (Z * Z)) : bool :=
  match tuples with
  | [] => true
  | (f, l) :: tl => (e <? f) && (f <=? l) && ranges_after l tl
  end.

Definition valid (self : t) : bool := ranges_after 0 (to_range_tuples self).

(** What [simplify] is said to do, on the tuples: two neighbouring
    ranges are merged exactly when the second starts no later than one
    past the end of the first. *)
Definition absorb (prev : Z * Z) (merged : list (Z * Z)) : list (Z * Z) :=
  match merged with
  | [] => [prev]
  | (_, l) :: rest => (fst prev, l) :: rest
  end.

Fixpoint merge_adjacent (tuples : list (Z * Z)) : list (Z * Z) :=
  match tuples with
  | [] => []
  | prev :: tl =>
      match tl with
      | [] => [prev]
      | next :: _ =>
          if fst next <=? snd prev + 1 then absorb prev (merge_adjacent tl)
          else prev :: merge_adjacent tl
      end
  end.

(** ** Traversal and the remaining methods *)

(** [__len__]: [sum(len(r) for r in self._ranges)] *)
Definition __len__ (self : t) : Z :=
  foldr Z.add 0 (FrameRange.__len__ <$> _ranges self).

Definition __iter__ (self : t) : t := reset self.

(** [__next__] after [self._started = True].  [self._ranges[self._idx]]
    out of range is the [IndexError] that ends the traversal; a range that
    is exhausted makes the method move to the next one and call itself.
    Each such call increases [_idx], so [len(_ranges) - _idx] bounds their
    number: with that much [fuel] the branch for no fuel is never taken. *)
Fixpoint next_loop (fuel : nat) (self : t) : t * option Z :=
  match _ranges self !! _idx self with
  | None => (self, None)
  | Some r =>
      match FrameRange.__next__ r with
      | (r', Some frame) =>
          (Build (<[_idx self := r']> (_ranges self)) (_idx self) (_started self),
           Some frame)
      | (_, None) =>
          match fuel with
          | O => (self, None)
          | S fuel =>
              next_loop fuel (Build (_ranges self) (S (_idx self)) (_started self))
          end
      end
  end.

Definition __next__ (self : t) : t * option Z :=
  next_loop (length (_ranges self) - _idx self)
            (Build (_ranges self) (_idx self) true).

(** [self._ranges[self._idx]] *)
Definition current_range (self : t) : result FrameRange.t :=
  match _ranges self !! _idx self with
  | Some r => Ok r
  | None => Raise IndexError
  end.

(** The [frame], [frame_range] and [is_new_frame_range] properties. *)
Definition frame (self : t) : result Z :=
  if _started self then r <- current_range self ;; Ok (FrameRange.frame r)
  else Ok (-1).

Definition frame_range (self : t) : result (Z * Z) :=
  if _started self
  then r <- current_range self ;; Ok (FrameRange.first r, FrameRange.last r)
  else Ok (-1, -1).

Definition is_new_frame_range (self : t) : result bool :=
  if _started self
  then r <- current_range self ;; Ok (FrameRange.is_first_frame r)
  else Ok false.

Definition is_contiguous (self : t) : bool :=
  bool_decide (num_ranges self = 1%nat).

(** [_parse_frames_str]: the tuples of the non-empty pieces between
    commas. *)
Definition _parse_frames_str (frames_str : string) : result (list (Z * Z)) :=
  for_each (fun ranges r =>
              match r with
              | EmptyString => Ok ranges
              | _ => fr <- FrameRange.from_human_str r ;;
                     Ok (ranges ++ [(FrameRange.first fr, FrameRange.last fr)])
              end)
           (split ","%char frames_str) [].

(** [from_human_str(frames_str)], that is [FrameRanges(ranges=frames_str)] *)
Definition from_human_str (frames_str : string) : result t :=
  ranges <- _parse_frames_str frames_str ;;
  __init__ ranges.

Definition build_simple (first last : Z) : result t := __init__ [(first, last)].

Definition from_frame_range (frame_range : FrameRange.t) : result t :=
  __init__ [(FrameRange.first frame_range, FrameRange.last frame_range)].

End FrameRanges.

(* ===================================================================== *)
(** * frames.py: timestamps                                               *)
(* ===================================================================== *)

(** Python floats are IEEE 754 binary64 numbers: primitive floats. *)

(** [float(n)] for an integer [n]: the nearest float, ties to even;
    [OverflowError] when [n] is too large. *)
Definition float_of_int (n : Z) : result float :=
  let f := SF2Prim (binary_normalize prec emax n 0 false) in
  if is_infinity f then Raise OverflowError else Ok f.

(** [x / y] on floats. *)
Definition float_truediv (x y : float) : result float :=
  if is_zero y then Raise ZeroDivisionError else Ok (x / y)%float.

(** [round(x)] with one argument on a float: the nearest integer, a tie
    going to the even neighbour. *)
Definition round_half_even (m : positive) (e : Z) : Z :=
  if 0 <=? e then Z.pos m * 2 ^ e
  else
    let d := 2 ^ (- e) in
    let q := Z.pos m / d in
    let r := Z.pos m mod d in
    match 2 * r ?= d with
    | Lt => q
    | Gt => q + 1
    | Eq => if Z.even q then q else q + 1
    end.

Definition round (x : float) : result Z :=
  match Prim2SF x with
  | S754_zero _ => Ok 0
  | S754_infinity _ => Raise OverflowError
  | S754_nan => Raise ValueError
  | S754_finite s m e =>
      Ok (if s then - round_half_even m e else round_half_even m e)
  end.

(** A timestamp argument: seconds, or a string in "HH:MM:SS.XXX" format. *)
Inductive timestamp : Type :=
  | Seconds (x : float)
  | Clock (s : string).

Section Timestamps.

(** [float(s)] on a string is Python's own parser; the functions below
    only pass it the pieces of a clock string. *)
Variable float_of_str : string -> result float.

(** [sum(float(n) * m for n, m in zip(reversed(ts.split(":")), (1, 60, 3600)))] *)
Definition timestamp_str_to_seconds (ts : string) : result float :=
  let pairs := zip (reverse (split ":"%char ts)) [1; 60; 3600] in
  for_each (fun acc nm =>
              n <- float_of_str (fst nm) ;;
              m <- float_of_int (snd nm) ;;
              Ok (acc + n * m)%float)
           pairs 0%float.

Definition timestamp_to_frame_number
    (ts : timestamp) (duration : float) (total_frame_count : Z) : result Z :=
  t <- match ts with
       | Clock s => timestamp_str_to_seconds s
       | Seconds x => Ok x
       end ;;
  alpha <- float_truediv t duration ;;
  k <- float_of_int (total_frame_count - 1) ;;
  r <- round (alpha * k)%float ;;
  Ok (1 + r).

End Timestamps.

(* ===================================================================== *)
(** * eta.core.data: attributes (external to objects.py)                  *)
(* ===================================================================== *)

Module Attribute.
(** Modelled from the spec: an attribute is a record of a type tag, a
    name, a value and an optional confidence; [eta.core.data] itself is
    not part of the sources. *)
Record t : Type := Build {
  type : string;
  name : string;
  value : string;
  confidence : option Z
}.
End Attribute.

(** An [AttributeContainer]: attributes in insertion order, duplicates
    allowed. *)
Abbreviation AttributeContainer := (list Attribute.t).

(** Modelled from the spec: [AttributeContainer.iter_attrs], which filters
    by type, name and value, ["*"] matching anything. *)
Definition iter_attrs (attrs : AttributeContainer)
    (attr_type attr_name attr_value : string) : list Attribute.t :=
  filter (fun a =>
            (attr_type = "*"%string \/ Attribute.type a = attr_type) /\
            (attr_name = "*"%string \/ Attribute.name a = attr_name) /\
            (attr_value = "*"%string \/ Attribute.value a = attr_value))
         attrs.

(* ===================================================================== *)
(** * objects.py: DetectedObject and Object                               *)
(* ===================================================================== *)

Module DetectedObject.
(** The instance attributes that the modelled methods read or write.
    [bounding_box], [mask], [top_k_probs], [score], [index_in_frame] and
    [eval_type] are carried along untouched by all of them and are left
    out.  There is no [frames] attribute. *)
Record t : Type := Build {
  label : option string;
  confidence : option Z;
  index : option Z;
  frame_number : option Z;
  event_uuids : gset string;
  attrs : AttributeContainer
}.

Definition set_frame_number (self : t) (fn : option Z) : t :=
  Build (label self) (confidence self) (index self) fn
        (event_uuids self) (attrs self).

Definition set_label (self : t) (l : option string) : t :=
  Build l (confidence self) (index self) (frame_number self)
        (event_uuids self) (attrs self).

Definition has_attributes (self : t) : bool :=
  match attrs self with [] => false | _ => true end.
End DetectedObject.

Module Object.
(** The instance attributes.  [D] is how a detection in [frames] is
    given: by its state ([t], which the methods that only read work on)
    or by reference ([t_of ref] below, for the methods that mutate
    detections). *)
Record t_of (D : Type) : Type := Build {
  label : option string;
  confidence : option Z;
  index : option Z;
  uuid : option string;
  attrs : AttributeContainer;
  frames : gmap Z D;
  child_objects : gset string;
  _support : option FrameRanges.t
}.
Arguments Build {D} label confidence index uuid attrs frames child_objects _support.
Arguments label {D} _.
Arguments confidence {D} _.
Arguments index {D} _.
Arguments uuid {D} _.
Arguments attrs {D} _.
Arguments frames {D} _.
Arguments child_objects {D} _.
Arguments _support {D} _.

Abbreviation t := (t_of DetectedObject.t).

Definition set_frames {D : Type} (self : t_of D) (f : gmap Z D) : t_of D :=
  Build (label self) (confidence self) (index self) (uuid self)
        (attrs self) f (child_objects self) (_support self).

Definition set_child_objects (self : t) (c : gset string) : t :=
  Build (label self) (confidence self) (index self) (uuid self)
        (attrs self) (frames self) c (_support self).

(** The [support] property.  [etaf.FrameRanges] is the [FrameRanges]
    class; [self.frames.keys()] are the keys of the dictionary. *)
Definition support (self : t) : result FrameRanges.t :=
  match _support self with
  | Some s => Ok s
  | None => FrameRanges.from_iterable (map_to_list (frames self)).*1
  end.

(** [iter_detections]: the values of [frames]. *)
Definition iter_detections (self : t) : list DetectedObject.t :=
  (map_to_list (frames self)).*2.

Definition has_detections (self : t) : bool :=
  bool_decide (frames self <> ∅).

(** ** Detections as shared objects

    A [DetectedObject] is a mutable object and [frames] holds references
    to such objects.  [add_detection] assigns to attributes of the
    detection it is handed and puts that very object into [frames], so
    the assignment shows wherever the same object is reachable: at the
    caller, under another key of [frames], at another place of a
    container.  The methods that mutate detections are therefore
    modelled on a [store], the state of every detection by identity,
    and on objects whose [frames] hold references. *)
Abbreviation ref := nat.
Abbreviation store := (ref -> DetectedObject.t).

(** The object as the reading methods find it: every reference of
    [frames] followed into the store. *)
Definition read (h : store) (self : t_of ref) : t :=
  Build (label self) (confidence self) (index self) (uuid self)
        (attrs self) (h <$> frames self) (child_objects self) (_support self).

(** [obj.frame_number = fn] and [obj.label = l] *)
Definition setattr_frame_number (h : store) (obj : ref) (fn : option Z) : store :=
  <[obj := DetectedObject.set_frame_number (h obj) fn]> h.

Definition setattr_label (h : store) (obj : ref) (l : option string) : store :=
  <[obj := DetectedObject.set_label (h obj) l]> h.

(** [add_detection(obj, frame_number=None)]: the store and [self]
    afterwards.  The key of [self.frames[obj.frame_number] = obj] is
    read from [obj] after the assignments; in either branch it is the
    [fn] at hand. *)
Definition add_detection (h : store) (self : t_of ref) (obj : ref)
    (frame_number : option Z) : result (store * t_of ref) :=
  match frame_number with
  | Some fn =>
      let h := setattr_frame_number h obj (Some fn) in
      let h := setattr_label h obj None in
      Ok (h, set_frames self (<[fn := obj]> (frames self)))
  | None =>
      match DetectedObject.frame_number (h obj) with
      | None => Raise ValueError
      | Some fn =>
          let h := setattr_label h obj None in
          Ok (h, set_frames self (<[fn := obj]> (frames self)))
      end
  end.

(** [add_child_object(obj)] *)
Definition add_child_object (self : t) (obj : t) : result t :=
  match uuid obj with
  | None => Raise ValueError
  | Some u => Ok (set_child_objects self ({[u]} ∪ child_objects self))
  end.
End Object.

(* ===================================================================== *)
(** * objects.py: ObjectContainer                                         *)
(* ===================================================================== *)

(** What a generator hands out before it finishes or raises. *)
Record generated (A : Type) : Type := Generated {
  yielded : list A;
  raised : option exn
}.
Arguments Generated {A} yielded raised.
Arguments yielded {A} g.
Arguments raised {A} g.

(** The values that flow through [iter_detected_objects]: elements of a
    [child_objects] set are strings, detections are [DetectedObject]s. *)
Inductive pyobject : Type :=
  | PyStr (s : string)
  | PyDetectedObject (d : DetectedObject.t).

(** [v.attrs]: only a [DetectedObject] has the attribute. *)
Definition getattr_attrs (v : pyobject) : result AttributeContainer :=
  match v with
  | PyDetectedObject d => Ok (DetectedObject.attrs d)
  | PyStr _ => Raise AttributeError
  end.

Module ObjectContainer.
(** A container iterates over its elements in order. *)
Abbreviation t := (list Object.t).

(** [iter_objects(label="*")]; the argument is a string or [None]. *)
Definition iter_objects (self : t) (label : option string) : list Object.t :=
  filter (fun obj => ~ (label <> Some "*"%string /\ Object.label obj <> label))
         self.

Definition iter_detected_objects (self : t) (label : option string)
  : list pyobject :=
  obj ← iter_objects self label;
  PyStr <$> elements (Object.child_objects obj).

(** The generator runs until its first exception. *)
Fixpoint iter_detected_object_attrs_loop (detobjs : list pyobject)
    (attr_type attr_name attr_value : string)
  : generated (pyobject * Attribute.t) :=
  match detobjs with
  | [] => Generated [] None
  | detobj :: tl =>
      match getattr_attrs detobj with
      | Raise e => Generated [] (Some e)
      | Ok attrs =>
          let here := pair detobj <$> iter_attrs attrs attr_type attr_name attr_value in
          let rest := iter_detected_object_attrs_loop tl attr_type attr_name attr_value in
          Generated (here ++ yielded rest) (raised rest)
      end
  end.

Definition iter_detected_object_attrs (self : t) (label : option string)
    (attr_type attr_name attr_value : string)
  : generated (pyobject * Attribute.t) :=
  iter_detected_object_attrs_loop (iter_detected_objects self label)
    attr_type attr_name attr_value.
End ObjectContainer.

(* ===================================================================== *)
(** * eta.core.data: AttributeContainerSchema (external to objects.py)    *)
(* ===================================================================== *)

(** What objects.py passes to [AttributeContainerSchema.add_attributes]:
    an attribute container, or (from [ObjectSchema._add_object]) the
    [frames] dictionary of an [Object]. *)
Inductive add_attributes_arg : Type :=
  | OfAttrs (attrs : AttributeContainer)
  | OfFrames (frames : gmap Z DetectedObject.t).

(** The interface of [etad.AttributeContainerSchema] that objects.py
    relies on; the class itself is not part of the sources, so the code
    below is written against any implementation of it. *)
Class AttributeContainerSchemaAPI : Type := {
  AttributeContainerSchema : Type;
  (** [AttributeContainerSchema()] *)
  acs_new : AttributeContainerSchema;
  (** [self.add_attributes(attrs)] *)
  acs_add_attributes :
    AttributeContainerSchema -> add_attributes_arg -> result AttributeContainerSchema;
  (** [self.validate(attrs)] *)
  acs_validate : AttributeContainerSchema -> AttributeContainer -> result unit;
  (** [self.merge_schema(schema)] *)
  acs_merge_schema :
    AttributeContainerSchema -> AttributeContainerSchema -> result AttributeContainerSchema
}.

(* ===================================================================== *)
(** * objects.py: ObjectSchema and ObjectContainerSchema                  *)
(* ===================================================================== *)

(** An [ObjectSchema] holds [label], [attrs], [frames] and
    [child_objects]; the latter is an [ObjectContainerSchema], whose only
    attribute is the dictionary [schema] from labels to [ObjectSchema]s. *)
Inductive ObjectSchema `{AttributeContainerSchemaAPI} : Type :=
  | MkObjectSchema (label : option string)
                   (attrs frames : AttributeContainerSchema)
                   (child_objects : gmap (option string) ObjectSchema).

Abbreviation ObjectContainerSchema := (gmap (option string) ObjectSchema).

(** Either kind of labels object, as told apart by [isinstance]. *)
Inductive labels : Type :=
  | AnObject (obj : Object.t)
  | ADetectedObject (dobj : DetectedObject.t).

Section Schemas.
Context `{AttributeContainerSchemaAPI}.

Definition os_label (s : ObjectSchema) : option string :=
  match s with MkObjectSchema l _ _ _ => l end.
Definition os_attrs (s : ObjectSchema) : AttributeContainerSchema :=
  match s with MkObjectSchema _ a _ _ => a end.
Definition os_frames (s : ObjectSchema) : AttributeContainerSchema :=
  match s with MkObjectSchema _ _ f _ => f end.
Definition os_child_objects (s : ObjectSchema) : ObjectContainerSchema :=
  match s with MkObjectSchema _ _ _ c => c end.

(** [ObjectSchema(label)] and [ObjectContainerSchema()] *)
Definition ObjectSchema_new (label : option string) : ObjectSchema :=
  MkObjectSchema label acs_new acs_new ∅.
Definition ObjectContainerSchema_new : ObjectContainerSchema := ∅.

(** ** ObjectSchema, the methods that do not touch [child_objects] *)

Definition ObjectSchema_validate_label (self : ObjectSchema)
    (label : option string) : result unit :=
  if decide (label <> os_label self) then Raise ObjectSchemaError else Ok tt.

Definition ObjectSchema_add_object_attributes (self : ObjectSchema)
    (attrs : add_attributes_arg) : result ObjectSchema :=
  a <- acs_add_attributes (os_attrs self) attrs ;;
  Ok (MkObjectSchema (os_label self) a (os_frames self) (os_child_objects self)).

Definition ObjectSchema_add_frame_attributes (self : ObjectSchema)
    (attrs : add_attributes_arg) : result ObjectSchema :=
  f <- acs_add_attributes (os_frames self) attrs ;;
  Ok (MkObjectSchema (os_label self) (os_attrs self) f (os_child_objects self)).

(** [dobj.frames] in [_add_detected_object]: a [DetectedObject] has no
    such attribute, so evaluating the argument raises. *)
Definition DetectedObject_getattr_frames (dobj : DetectedObject.t)
  : result add_attributes_arg :=
  Raise AttributeError.

Definition ObjectSchema__add_detected_object (self : ObjectSchema)
    (dobj : DetectedObject.t) (validate_label : bool) : result ObjectSchema :=
  (if validate_label
   then ObjectSchema_validate_label self (DetectedObject.label dobj)
   else Ok tt) ;;;
  self <- ObjectSchema_add_object_attributes self (OfAttrs (DetectedObject.attrs dobj)) ;;
  frames <- DetectedObject_getattr_frames dobj ;;
  ObjectSchema_add_frame_attributes self frames.

Definition ObjectSchema__add_object (self : ObjectSchema) (obj : Object.t)
  : result ObjectSchema :=
  ObjectSchema_validate_label self (Object.label obj) ;;;
  self <- ObjectSchema_add_object_attributes self (OfAttrs (Object.attrs obj)) ;;
  self <- ObjectSchema_add_frame_attributes self (OfFrames (Object.frames obj)) ;;
  for_each (fun self dobj => ObjectSchema__add_detected_object self dobj false)
           (Object.iter_detections obj) self.

Definition ObjectSchema_add_object (self : ObjectSchema) (obj : labels)
  : result ObjectSchema :=
  match obj with
  | AnObject o => ObjectSchema__add_object self o
  | ADetectedObject d => ObjectSchema__add_detected_object self d true
  end.

Definition ObjectSchema_validate_object_attributes (self : ObjectSchema)
    (attrs : AttributeContainer) : result unit :=
  acs_validate (os_attrs self) attrs.

Definition ObjectSchema_validate_frame_attributes (self : ObjectSchema)
    (attrs : AttributeContainer) : result unit :=
  acs_validate (os_frames self) attrs.

Definition ObjectSchema__validate_detected_object (self : ObjectSchema)
    (dobj : DetectedObject.t) (validate_label : bool) : result unit :=
  (if validate_label
   then ObjectSchema_validate_label self (DetectedObject.label dobj)
   else Ok tt) ;;;
  ObjectSchema_validate_frame_attributes self (DetectedObject.attrs dobj).

Definition ObjectSchema__validate_object (self : ObjectSchema) (obj : Object.t)
  : result unit :=
  ObjectSchema_validate_label self (Object.label obj) ;;;
  ObjectSchema_validate_object_attributes self (Object.attrs obj) ;;;
  for_each (fun _ dobj => ObjectSchema__validate_detected_object self dobj false)
           (Object.iter_detections obj) tt.

Definition ObjectSchema_validate (self : ObjectSchema) (obj : labels)
  : result unit :=
  match obj with
  | AnObject o => ObjectSchema__validate_object self o
  | ADetectedObject d => ObjectSchema__validate_detected_object self d true
  end.

(** ** ObjectContainerSchema *)

Definition ObjectContainerSchema_has_object_label
    (self : ObjectContainerSchema) (label : option string) : bool :=
  bool_decide (is_Some (self !! label)).

Definition ObjectContainerSchema__ensure_has_object_label
    (self : ObjectContainerSchema) (label : option string)
  : ObjectContainerSchema :=
  if negb (ObjectContainerSchema_has_object_label self label)
  then <[label := ObjectSchema_new label]> self
  else self.

Definition ObjectContainerSchema_add_object_label
    (self : ObjectContainerSchema) (label : option string)
  : ObjectContainerSchema :=
  ObjectContainerSchema__ensure_has_object_label self label.

(** [self.schema[label].m(...)] for a method [m] that mutates the entry. *)
Definition on_entry (self : ObjectContainerSchema) (label : option string)
    (m : ObjectSchema -> result ObjectSchema) : result ObjectContainerSchema :=
  match self !! label with
  | None => Raise KeyError
  | Some entry => entry' <- m entry ;; Ok (<[label := entry']> self)
  end.

Definition ObjectContainerSchema_add_object_attributes
    (self : ObjectContainerSchema) (label : option string)
    (attrs : add_attributes_arg) : result ObjectContainerSchema :=
  let self := ObjectContainerSchema__ensure_has_object_label self label in
  on_entry self label (fun s => ObjectSchema_add_object_attributes s attrs).

Definition ObjectContainerSchema_add_frame_attributes
    (self : ObjectContainerSchema) (label : option string)
    (attrs : add_attributes_arg) : result ObjectContainerSchema :=
  let self := ObjectContainerSchema__ensure_has_object_label self label in
  on_entry self label (fun s => ObjectSchema_add_frame_attributes s attrs).

Definition ObjectContainerSchema__add_detected_object
    (self : ObjectContainerSchema) (dobj : DetectedObject.t)
    (label : option string) : result ObjectContainerSchema :=
  let '(self, label) :=
    match DetectedObject.label dobj with
    | Some l => (ObjectContainerSchema_add_object_label self (Some l), Some l)
    | None => (self, label)
    end in
  ObjectContainerSchema_add_frame_attributes self label
    (OfAttrs (DetectedObject.attrs dobj)).

Definition ObjectContainerSchema__add_object
    (self : ObjectContainerSchema) (obj : Object.t)
  : result ObjectContainerSchema :=
  let self := ObjectContainerSchema_add_object_label self (Object.label obj) in
  self <- ObjectContainerSchema_add_object_attributes self (Object.label obj)
            (OfAttrs (Object.attrs obj)) ;;
  for_each (fun self dobj =>
              ObjectContainerSchema__add_detected_object self dobj (Object.label obj))
           (Object.iter_detections obj) self.

Definition ObjectContainerSchema_add_object
    (self : ObjectContainerSchema) (obj : labels)
  : result ObjectContainerSchema :=
  match obj with
  | AnObject o => ObjectContainerSchema__add_object self o
  | ADetectedObject d => ObjectContainerSchema__add_detected_object self d None
  end.

(** The loop of [ObjectContainerSchema.merge_schema], over the entries
    of [schema], with [merge] standing for [ObjectSchema.merge_schema]. *)
Definition merge_entries
    (merge : ObjectSchema -> ObjectSchema -> result ObjectSchema)
    (self schema : ObjectContainerSchema) : result ObjectContainerSchema :=
  map_fold (fun label obj_schema (acc : result ObjectContainerSchema) =>
              self <- acc ;;
              let self := ObjectContainerSchema__ensure_has_object_label self label in
              on_entry self label (fun entry => merge entry obj_schema))
           (Ok self) schema.

(** [ObjectSchema.merge_schema(self, schema)] *)
Fixpoint ObjectSchema_merge_schema (self schema : ObjectSchema) {struct schema}
  : result ObjectSchema :=
  match schema with
  | MkObjectSchema label attrs frames child_objects =>
      ObjectSchema_validate_label self label ;;;
      a <- acs_merge_schema (os_attrs self) attrs ;;
      f <- acs_merge_schema (os_frames self) frames ;;
      c <- merge_entries ObjectSchema_merge_schema
             (os_child_objects self) child_objects ;;
      Ok (MkObjectSchema (os_label self) a f c)
  end.

(** [ObjectContainerSchema.merge_schema(self, schema)] *)
Definition ObjectContainerSchema_merge_schema
    (self schema : ObjectContainerSchema) : result ObjectContainerSchema :=
  merge_entries ObjectSchema_merge_schema self schema.

(** [ObjectSchema.add_child_object(obj)] *)
Definition ObjectSchema_add_child_object (self : ObjectSchema) (obj : Object.t)
  : result ObjectSchema :=
  c <- ObjectContainerSchema_add_object (os_child_objects self) (AnObject obj) ;;
  Ok (MkObjectSchema (os_label self) (os_attrs self) (os_frames self) c).

Definition labels_label (obj : labels) : option string :=
  match obj with
  | AnObject o => Object.label o
  | ADetectedObject d => DetectedObject.label d
  end.

(** [ObjectSchema.build_active_schema(obj, objects=None)]; [objects] is
    a dictionary from uuids to [Object]s.  The loop over the children
    reads [obj.child_objects], which only an [Object] has. *)
Definition ObjectSchema_build_active_schema (obj : labels)
    (objects : option (gmap string Object.t)) : result ObjectSchema :=
  let schema := ObjectSchema_new (labels_label obj) in
  schema <- ObjectSchema_add_object schema obj ;;
  match objects with
  | None => Ok schema
  | Some objects =>
      if decide (objects = ∅) then Ok schema
      else
        match obj with
        | ADetectedObject _ => Raise AttributeError
        | AnObject o =>
            for_each (fun schema uuid =>
                        match objects !! uuid with
                        | Some child => ObjectSchema_add_child_object schema child
                        | None => Ok schema
                        end)
                     (elements (Object.child_objects o)) schema
        end
  end.

(** [ObjectContainerSchema.build_active_schema(objects)] *)
Definition ObjectContainerSchema_build_active_schema (objects : list labels)
  : result ObjectContainerSchema :=
  for_each ObjectContainerSchema_add_object objects ObjectContainerSchema_new.

End Schemas.

(* ===================================================================== *)
(** * frames.py: the remaining functions                                  *)
(* ===================================================================== *)

(** [list(it)] for an object that is its own iterator: [__next__] until it
    signals the end.  [fuel] bounds the number of calls; [None] when it
    does not suffice. *)
Fixpoint next_until_stop {S A : Type} (next : S -> S * option A) (fuel : nat)
    (s : S) : option (S * list A) :=
  match fuel with
  | O => None
  | S fuel =>
      match next s with
      | (s', None) => Some (s', [])
      | (s', Some a) =>
          match next_until_stop next fuel s' with
          | Some (s'', l) => Some (s'', a :: l)
          | None => None
          end
      end
  end.

(** [FrameRange.from_iterable(frames)] *)
Definition FrameRange_from_iterable (frames : list Z) : result FrameRange.t :=
  match _iterable_to_ranges frames with
  | [(first, last)] => FrameRange.__init__ first last
  | _ => Raise FrameRangeError
  end.

(* ===================================================================== *)
(** * Vocabulary of the statements                                        *)
(* ===================================================================== *)

(** The condition under which [_ingest_range] refuses a range: the
    instance is not empty and [first] does not lie beyond the last frame of
    its final range. *)
Definition overlaps (s : FrameRanges.t) (first : Z) : Prop :=
  exists r, last (FrameRanges._ranges s) = Some r /\ first <= FrameRange.last r.

(** The range object that [_ingest_range] appends for a tuple. *)
Definition range_of (tuple : Z * Z) : FrameRange.t :=
  FrameRange.Build (fst tuple) (snd tuple) (-1).

(** [simplify]'s loop as a function of the tuples alone: the ranges it
    leaves, and whether it merged anything. *)
Fixpoint merge_into (cur : Z * Z) (tuples : list (Z * Z)) : list (Z * Z) :=
  match tuples with
  | [] => [cur]
  | next :: tl =>
      if fst next <=? snd cur + 1 then merge_into (fst cur, snd next) tl
      else cur :: merge_into next tl
  end.

Fixpoint has_merge (e : Z) (tuples : list (Z * Z)) : bool :=
  match tuples with
  | [] => false
  | next :: tl => (fst next <=? e + 1) || has_merge (snd next) tl
  end.

(** The end of the final range, [0] for no ranges. *)
Definition end_of (rs : list FrameRange.t) : Z :=
  default 0 (FrameRange.last <$> last rs).

(** The frames described by a list of [(first, last)] tuples, in order. *)
Definition frames_of (tuples : list (Z * Z)) : list Z :=
  concat ((fun t => range (fst t) (snd t + 1)) <$> tuples).

(** The array after [bools[inds] = True], when every index is in range. *)
Definition set_all (bools : list bool) (inds : list Z) : list bool :=
  foldl (fun b i => <[Z.to_nat i := true]> b) bools inds.

(** Decimal digits, and strings made of them. *)
Definition is_digit (c : ascii) : bool :=
  match c with
  | "0" | "1" | "2" | "3" | "4" | "5" | "6" | "7" | "8" | "9" => true
  | _ => false
  end%char.

Fixpoint all_digits (s : string) : bool :=
  match s with
  | EmptyString => true
  | String c tl => is_digit c && all_digits tl
  end.

(** [r] is the integer nearest to [m * 2^e], the even one of the two when
    [m * 2^e] lies half way between two integers. *)
Definition nearest_even (m : positive) (e : Z) (r : Z) : Prop :=
  if 0 <=? e then r = Z.pos m * 2 ^ e
  else
    let d := 2 ^ (- e) in
    2 * Z.abs (r * d - Z.pos m) <= d
    /\ (2 * Z.abs (r * d - Z.pos m) = d -> Z.even r = true).

(* ===================================================================== *)
(** * A concrete attribute schema                                         *)
(* ===================================================================== *)

(** Modelled from the spec: an [AttributeContainerSchema] accumulates the
    declared attribute names with their permitted values; re-adding is a
    no-op, merging is the union, and validation rejects an attribute that is
    not declared or whose value is not permitted.  (Type tags are left
    out.)  Handed the [frames] dictionary of an [Object], [add_attributes]
    iterates over its integer keys, which have no [name]. *)
Definition name_values_add_attribute (self : gmap string (gset string))
    (attr : Attribute.t) : result (gmap string (gset string)) :=
  Ok (<[Attribute.name attr :=
          {[Attribute.value attr]} ∪ default ∅ (self !! Attribute.name attr)]> self).

Definition name_values_validate_attribute (self : gmap string (gset string))
    (_ : unit) (attr : Attribute.t) : result unit :=
  match self !! Attribute.name attr with
  | None => Raise AttributeContainerSchemaError
  | Some values =>
      if decide (Attribute.value attr ∈ values) then Ok tt
      else Raise AttributeContainerSchemaError
  end.

#[export] Instance name_values_schemas : AttributeContainerSchemaAPI := {|
  AttributeContainerSchema := gmap string (gset string);
  acs_new := ∅;
  acs_add_attributes self arg :=
    match arg with
    | OfAttrs attrs => for_each name_values_add_attribute attrs self
    | OfFrames frames =>
        if decide (frames = ∅) then Ok self else Raise AttributeError
    end;
  acs_validate self attrs :=
    for_each (name_values_validate_attribute self) attrs tt;
  acs_merge_schema self schema :=
    Ok (union_with (fun v1 v2 => Some (v1 ∪ v2)) self schema)
|}.

(** A detection of a car, and a car seen in frame 3. *)
Definition a_car_detection : DetectedObject.t :=
  DetectedObject.Build (Some "car"%string) None None (Some 3) ∅
    [Attribute.Build "CategoricalAttribute" "color" "red" None].

Definition a_car : Object.t :=
  Object.Build (Some "car"%string) None None None [] {[3 := a_car_detection]} ∅ None.

(* ===================================================================== *)
(** * What merging asks of the attribute schemas                          *)
(* ===================================================================== *)

(** [merge_schema] of attribute schemas, where it does not raise, is a
    commutative and associative union with the empty schema as its
    neutral element. *)
Class AttributeContainerSchemaMerge `{AttributeContainerSchemaAPI} : Prop := {
  acs_merge_comm a b ab ba :
    acs_merge_schema a b = Ok ab -> acs_merge_schema b a = Ok ba -> ab = ba;
  acs_merge_assoc a b c ab ab_c bc a_bc :
    acs_merge_schema a b = Ok ab -> acs_merge_schema ab c = Ok ab_c ->
    acs_merge_schema b c = Ok bc -> acs_merge_schema a bc = Ok a_bc ->
    ab_c = a_bc;
  acs_merge_new a r :
    acs_merge_schema acs_new a = Ok r -> r = a
}.

(** The number of [ObjectSchema]s in a schema, itself included. *)
Fixpoint schema_size `{AttributeContainerSchemaAPI} (s : ObjectSchema) : nat :=
  match s with
  | MkObjectSchema _ _ _ child_objects =>
      S (map_fold (fun _ child n => (schema_size child + n)%nat) 0%nat child_objects)
  end.

(** Two container schemas for the examples: cars declared with one colour
    each, and, in the second, a person with a child schema. *)
Definition cars_red : gmap (option string) (@ObjectSchema name_values_schemas) :=
  {[ Some "car"%string :=
       MkObjectSchema (Some "car"%string)
         ({[ "color"%string := {[ "red"%string ]} ]} : gmap string (gset string))
         ∅ ∅ ]}.

Definition cars_blue_and_person
  : gmap (option string) (@ObjectSchema name_values_schemas) :=
  {[ Some "car"%string :=
       MkObjectSchema (Some "car"%string)
         ({[ "color"%string := {[ "blue"%string ]} ]} : gmap string (gset string))
         ∅ ∅ ;
     Some "person"%string :=
       MkObjectSchema (Some "person"%string) ∅
         ({[ "pose"%string := {[ "standing"%string ]} ]} : gmap string (gset string))
         {[ Some "hat"%string := MkObjectSchema (Some "hat"%string) ∅ ∅ ∅ ]} ]}.

(** [p label schema] holds of every entry of a container schema. *)
Definition all_entries `{AttributeContainerSchemaAPI}
    (p : option string -> ObjectSchema -> bool) (m : ObjectContainerSchema) : bool :=
  map_fold (fun label schema acc => p label schema && acc) true m.

(** A schema is well keyed when every container schema in it files each
    [ObjectSchema] under that schema's own label, as [add_object_label] and
    [_ensure_has_object_label] do. *)
Fixpoint well_keyed `{AttributeContainerSchemaAPI} (s : ObjectSchema) : bool :=
  match s with
  | MkObjectSchema _ _ _ child_objects =>
      all_entries (fun label child =>
                     bool_decide (os_label child = label) && well_keyed child)
                  child_objects
  end.

Definition well_keyed_entries `{AttributeContainerSchemaAPI}
    (m : ObjectContainerSchema) : bool :=
  all_entries (fun label child =>
                 bool_decide (os_label child = label) && well_keyed child) m.

(** ** Cursors during a traversal *)

(** The cursor of a range is unstarted or on one of its frames. *)
Definition cursor_ok (r : FrameRange.t) : bool :=
  (FrameRange._frame r =? -1)
  || ((FrameRange.first r <=? FrameRange._frame r)
      && (FrameRange._frame r <=? FrameRange.last r)).

Definition cursor_unstarted (r : FrameRange.t) : bool :=
  FrameRange._frame r =? -1.

Definition cursor_at_end (r : FrameRange.t) : bool :=
  FrameRange._frame r =? FrameRange.last r.

(** The states a valid [FrameRanges] goes through between its construction
    and the end of a traversal: the ranges before [_idx] have been read to
    their end, the range at [_idx] is being read, the ranges after it have
    not been started. *)
Definition traversal_state (s : FrameRanges.t) : bool :=
  FrameRanges.valid s
  && (FrameRanges._idx s <=? length (FrameRanges._ranges s))%nat
  && forallb cursor_at_end (take (FrameRanges._idx s) (FrameRanges._ranges s))
  && match drop (FrameRanges._idx s) (FrameRanges._ranges s) with
     | [] => true
     | r :: rest => cursor_ok r && forallb cursor_unstarted rest
     end.

(** The frames that a range, and an instance, have yet to return. *)
Definition remaining_in (r : FrameRange.t) : list Z :=
  if FrameRange._frame r <? 0 then FrameRange.to_list r
  else range (FrameRange._frame r + 1) (FrameRange.last r + 1).

Definition remaining_of (post : list FrameRange.t) : list Z :=
  match post with
  | [] => []
  | r :: rest => remaining_in r ++ concat (FrameRange.to_list <$> rest)
  end.

Definition remaining (s : FrameRanges.t) : list Z :=
  remaining_of (drop (FrameRanges._idx s) (FrameRanges._ranges s)).

(** Neighbouring ranges leave at least one frame out between them. *)
Fixpoint separated (tuples : list (Z * Z)) : bool :=
  match tuples with
  | [] => true
  | prev :: tl =>
      match tl with
      | [] => true
      | next :: _ => (snd prev + 1 <? fst next) && separated tl
      end
  end.

(** Strings without a comma. *)
Fixpoint no_comma (s : string) : bool :=
  match s with
  | EmptyString => true
  | String c tl => negb (Ascii.eqb c ",") && no_comma tl
  end.

(* ===================================================================== *)
(** * objects.py: the remaining methods                                   *)
(* ===================================================================== *)

(** [Object.add_detections(objects)]: the store and the object after
    [add_detection] on each detection of the container, in order; the
    container holds references, possibly to one detection more than
    once or to detections that [frames] holds already. *)
Definition Object_add_detections (h : Object.store) (self : Object.t_of Object.ref)
    (objects : list Object.ref)
  : result (Object.store * Object.t_of Object.ref) :=
  for_each (fun acc obj => Object.add_detection (fst acc) (snd acc) obj None)
           objects (h, self).

(** ** ObjectContainerSchema: validation *)

Section SchemaValidation.
Context `{AttributeContainerSchemaAPI}.

Definition ObjectContainerSchema_validate_object_label
    (self : ObjectContainerSchema) (label : option string) : result unit :=
  if bool_decide (is_Some (self !! label)) then Ok tt
  else Raise ObjectContainerSchemaError.

(** [self.schema[label]] *)
Definition schema_getitem (self : ObjectContainerSchema)
    (label : option string) : result ObjectSchema :=
  match self !! label with
  | Some entry => Ok entry
  | None => Raise KeyError
  end.

Definition ObjectContainerSchema_validate_object_attributes
    (self : ObjectContainerSchema) (label : option string)
    (attrs : AttributeContainer) : result unit :=
  ObjectContainerSchema_validate_object_label self label ;;;
  entry <- schema_getitem self label ;;
  ObjectSchema_validate_object_attributes entry attrs.

Definition ObjectContainerSchema_validate_frame_attributes
    (self : ObjectContainerSchema) (label : option string)
    (attrs : AttributeContainer) : result unit :=
  ObjectContainerSchema_validate_object_label self label ;;;
  entry <- schema_getitem self label ;;
  ObjectSchema_validate_frame_attributes entry attrs.

Definition ObjectContainerSchema__validate_detected_object
    (self : ObjectContainerSchema) (dobj : DetectedObject.t)
    (label : option string) : result unit :=
  let label := match label with
               | None => DetectedObject.label dobj
               | Some l => Some l
               end in
  ObjectContainerSchema_validate_object_label self label ;;;
  ObjectContainerSchema_validate_frame_attributes self label
    (DetectedObject.attrs dobj).

Definition ObjectContainerSchema__validate_object
    (self : ObjectContainerSchema) (obj : Object.t) : result unit :=
  let label := Object.label obj in
  ObjectContainerSchema_validate_object_label self label ;;;
  ObjectContainerSchema_validate_object_attributes self label (Object.attrs obj) ;;;
  for_each (fun _ dobj =>
              ObjectContainerSchema__validate_detected_object self dobj label)
           (Object.iter_detections obj) tt.

Definition ObjectContainerSchema_validate_object
    (self : ObjectContainerSchema) (obj : labels) : result unit :=
  match obj with
  | AnObject o => ObjectContainerSchema__validate_object self o
  | ADetectedObject d => ObjectContainerSchema__validate_detected_object self d None
  end.

(** [validate(objects)] *)
Definition ObjectContainerSchema_validate
    (self : ObjectContainerSchema) (objects : list labels) : result unit :=
  for_each (fun _ obj => ObjectContainerSchema_validate_object self obj)
           objects tt.

(** *** Vocabulary for the statements about validation *)

(** The schema has an entry for [label] that validates the attributes,
    as object-level or as frame-level attributes. *)
Definition accepts_attrs (S : ObjectContainerSchema) (label : option string)
    (attrs : AttributeContainer) : Prop :=
  exists entry, S !! label = Some entry
    /\ acs_validate (os_attrs entry) attrs = Ok tt.

Definition accepts_frame (S : ObjectContainerSchema) (label : option string)
    (attrs : AttributeContainer) : Prop :=
  exists entry, S !! label = Some entry
    /\ acs_validate (os_frames entry) attrs = Ok tt.

(** [S'] has every label of [S] and validates what [S] validates. *)
Definition grows (S S' : ObjectContainerSchema) : Prop :=
  forall label entry, S !! label = Some entry ->
    exists entry', S' !! label = Some entry'
      /\ (forall a, acs_validate (os_attrs entry) a = Ok tt ->
                    acs_validate (os_attrs entry') a = Ok tt)
      /\ (forall a, acs_validate (os_frames entry) a = Ok tt ->
                    acs_validate (os_frames entry') a = Ok tt).

(** The label under which [_add_detected_object] files a detection. *)
Definition filed_under (dobj : DetectedObject.t) (label : option string)
  : option string :=
  match DetectedObject.label dobj with
  | Some l => Some l
  | None => label
  end.

(** What the schema has to offer for [validate_object] to accept. *)
Definition accepts (S : ObjectContainerSchema) (obj : labels) : Prop :=
  match obj with
  | AnObject o =>
      accepts_attrs S (Object.label o) (Object.attrs o)
      /\ Forall (fun d => accepts_frame S (filed_under d (Object.label o))
                            (DetectedObject.attrs d))
           (Object.iter_detections o)
  | ADetectedObject d =>
      accepts_frame S (filed_under d None) (DetectedObject.attrs d)
  end.

End SchemaValidation.

(** What the self-consistency of the container schema asks of the
    attribute schemas of [eta.core.data]: a schema validates the
    attributes that were added to it, and goes on validating what it
    validated when more are added. *)
Class AttributeContainerSchemaValidate `{AttributeContainerSchemaAPI} : Prop := {
  acs_add_validates s attrs s' :
    acs_add_attributes s (OfAttrs attrs) = Ok s' ->
    acs_validate s' attrs = Ok tt;
  acs_add_keeps s attrs s' other :
    acs_add_attributes s (OfAttrs attrs) = Ok s' ->
    acs_validate s other = Ok tt ->
    acs_validate s' other = Ok tt
}.

(** The detections in the frames of an object with a label carry no
    label of their own (as [add_detection] leaves them) or that of the
    object. *)
Definition labelled_as_object (obj : labels) : bool :=
  match obj with
  | ADetectedObject _ => true
  | AnObject o =>
      match Object.label o with
      | None => true
      | Some l =>
          forallb (fun d => bool_decide (DetectedObject.label d = None
                                         \/ DetectedObject.label d = Some l))
                  (Object.iter_detections o)
      end
  end.

(** ** [parse_frame_ranges] *)

(** What [parse_frame_ranges(frames)] tells apart with [isinstance] and
    [hasattr]; [NotFrames] is anything that is none of the four. *)
Inductive frames_quantity : Type :=
  | FramesStr (frames_str : string)
  | AFrameRange (frame_range : FrameRange.t)
  | AFrameRanges (frame_ranges : FrameRanges.t)
  | FramesIterable (frames : list Z)
  | NotFrames.

Definition parse_frame_ranges (frames : frames_quantity) : result FrameRanges.t :=
  match frames with
  | FramesStr frames_str => FrameRanges.from_human_str frames_str
  | AFrameRange frame_range => FrameRanges.from_frame_range frame_range
  | AFrameRanges frame_ranges => Ok frame_ranges
  | FramesIterable frames => FrameRanges.from_iterable frames
  | NotFrames => Raise ValueError
  end.

(* ===================================================================== *)
(** * Properties: the error monad                                         *)
(* ===================================================================== *)

Lemma bind_Ok_inv {A B : Type} (r : result A) (k : A -> result B) (b : B) :
  bind r k = Ok b -> exists a, r = Ok a /\ k a = Ok b.
Proof. destruct r as [a|e]; simpl; [eauto | discriminate]. Qed.

(* ===================================================================== *)
(** * Properties: FrameRange and FrameRanges basics                       *)
(* ===================================================================== *)

Lemma FrameRange_init_Ok (first last : Z) :
  1 <= first -> first <= last ->
  FrameRange.__init__ first last = Ok (FrameRange.Build first last (-1)).
Proof.
  intros H1 H2. unfold FrameRange.__init__, FrameRange._validate_range.
  destruct (Z.ltb_spec first 1); [lia|].
  destruct (Z.ltb_spec last first); [lia|]. reflexivity.
Qed.

Lemma FrameRange_init_Raise (first last : Z) :
  first < 1 \/ last < first ->
  FrameRange.__init__ first last = Raise FrameRangeError.
Proof.
  intros H. unfold FrameRange.__init__, FrameRange._validate_range.
  destruct (Z.ltb_spec first 1); [done|].
  destruct (Z.ltb_spec last first); [done|lia].
Qed.

Lemma FrameRanges_limits_end (s : FrameRanges.t) :
  snd (FrameRanges.limits s) = FrameRange.last <$> last (FrameRanges._ranges s).
Proof.
  unfold FrameRanges.limits, FrameRanges.__bool__.
  destruct (FrameRanges._ranges s) as [|r rs] eqn:E; simpl; [done|].
  destruct (last (r :: rs)); reflexivity.
Qed.

(** ** C3 *)

(** C3 (as amended): [add_range((first, last))] raises [FrameRangesError]
    exactly when the instance is non-empty and [first] is at most the last
    frame of its final range.  Otherwise the range is appended, without an
    error, when [1 <= first <= last]; and when [first < 1] or
    [last < first] the constructor of [FrameRange] raises [FrameRangeError]
    and nothing is appended. *)
Theorem add_range_outcome (s : FrameRanges.t) (first last : Z) :
  (FrameRanges.add_range s (first, last) = Raise FrameRangesError
     <-> overlaps s first)
  /\ (~ overlaps s first /\ 1 <= first /\ first <= last ->
      FrameRanges.add_range s (first, last)
      = Ok (FrameRanges.Build
              (FrameRanges._ranges s ++ [FrameRange.Build first last (-1)])
              (FrameRanges._idx s) (FrameRanges._started s)))
  /\ (~ overlaps s first /\ (first < 1 \/ last < first) ->
      FrameRanges.add_range s (first, last) = Raise FrameRangeError).
Proof.
  unfold FrameRanges.add_range, FrameRanges._ingest_range, overlaps.
  rewrite FrameRanges_limits_end.
  destruct (list.last (FrameRanges._ranges s)) as [r|] eqn:Hlast; simpl.
  - destruct (Z.leb_spec first (FrameRange.last r)) as [Hle|Hgt].
    + split; [split; [eauto|done]|].
      split; intros [Hno _]; exfalso; apply Hno; eauto.
    + assert (Hno : ~ exists r0, Some r = Some r0 /\ first <= FrameRange.last r0).
      { intros (r0 & [= <-] & ?). lia. }
      split; [|split].
      * split; [|done]. intros Hr.
        destruct (FrameRange.__init__ first last) eqn:E; simpl in Hr; [done|].
        unfold FrameRange.__init__, FrameRange._validate_range in E.
        repeat case_match; simpl in E; congruence.
      * intros (_ & H1 & H2). by rewrite FrameRange_init_Ok.
      * intros (_ & H1). by rewrite FrameRange_init_Raise.
  - assert (Hno : ~ exists r0, None = Some r0 /\ first <= FrameRange.last r0).
    { intros (r0 & [=] & ?). }
    split; [|split].
    + split; [|done]. intros Hr.
      destruct (FrameRange.__init__ first last) eqn:E; simpl in Hr; [done|].
      unfold FrameRange.__init__, FrameRange._validate_range in E.
      repeat case_match; simpl in E; congruence.
    + intros (_ & H1 & H2). by rewrite FrameRange_init_Ok.
    + intros (_ & H1). by rewrite FrameRange_init_Raise.
Qed.

(** C3, the claim as stated fails: on an empty instance nothing can
    overlap, yet [add_range((0, 5))] raises (a [FrameRangeError]) and
    appends nothing; likewise [add_range((7, 6))] after [(1, 3)]. *)
Lemma add_range_not_always_appended :
  ~ overlaps FrameRanges.empty 0
  /\ FrameRanges.add_range FrameRanges.empty (0, 5) = Raise FrameRangeError
  /\ ~ overlaps (FrameRanges.Build [FrameRange.Build 1 3 (-1)] 0 false) 7
  /\ FrameRanges.add_range (FrameRanges.Build [FrameRange.Build 1 3 (-1)] 0 false) (7, 6)
     = Raise FrameRangeError.
Proof.
  split; [|split; [reflexivity|split; [|reflexivity]]].
  - intros (r & Hr & _). discriminate.
  - intros (r & [= <-] & Hle). simpl in Hle. lia.
Qed.

(* ===================================================================== *)
(** * Properties: [simplify]                                              *)
(* ===================================================================== *)

Lemma limits_range_of (t : Z * Z) : FrameRange.limits (range_of t) = t.
Proof. by destruct t. Qed.

Lemma simplify_loop_spec (olds : list FrameRange.t) :
  forall done cur did,
    FrameRanges.simplify_loop done cur did olds
    = (done ++ merge_into cur (FrameRange.limits <$> olds),
       did || has_merge (snd cur) (FrameRange.limits <$> olds)).
Proof.
  induction olds as [|o olds IH]; intros done cur did; simpl.
  - by rewrite orb_false_r.
  - destruct (Z.leb_spec (FrameRange.first o) (snd cur + 1)); simpl.
    + rewrite IH. simpl. by rewrite orb_true_r.
    + rewrite IH. by rewrite <- app_assoc.
Qed.

Lemma absorb_merge_into (tl : list (Z * Z)) :
  forall a b c l,
    FrameRanges.absorb (a, c) (merge_into (b, l) tl) = merge_into (a, l) tl.
Proof.
  induction tl as [|n tl IH]; intros a b c l; simpl; [done|].
  destruct (Z.leb_spec (fst n) (l + 1)); [apply IH | done].
Qed.

Lemma merge_adjacent_merge_into (tl : list (Z * Z)) :
  forall p, FrameRanges.merge_adjacent (p :: tl) = merge_into p tl.
Proof.
  induction tl as [|n tl IH]; intros p; [done|].
  change (FrameRanges.merge_adjacent (p :: n :: tl))
    with (if fst n <=? snd p + 1
          then FrameRanges.absorb p (FrameRanges.merge_adjacent (n :: tl))
          else p :: FrameRanges.merge_adjacent (n :: tl)).
  rewrite IH. simpl.
  destruct (Z.leb_spec (fst n) (snd p + 1)); [|done].
  destruct p as [a c], n as [b l]. apply absorb_merge_into.
Qed.

Lemma merge_into_no_merge (tl : list (Z * Z)) :
  forall p, has_merge (snd p) tl = false -> merge_into p tl = p :: tl.
Proof.
  induction tl as [|n tl IH]; intros p; simpl; [done|].
  intros [H1 H2]%orb_false_elim. rewrite H1. by rewrite IH.
Qed.

Lemma merge_into_head (tl : list (Z * Z)) :
  forall p, exists l rest, merge_into p tl = (fst p, l) :: rest.
Proof.
  induction tl as [|n tl IH]; intros p; simpl.
  - destruct p; eauto.
  - destruct (_ <=? _); [apply (IH (fst p, snd n)) | destruct p; eauto].
Qed.

Lemma merge_into_valid (tl : list (Z * Z)) :
  forall f l e,
    e < f -> f <= l -> FrameRanges.ranges_after l tl = true ->
    exists q rest,
      merge_into (f, l) tl = q :: rest
      /\ FrameRanges.ranges_after e (q :: rest) = true
      /\ has_merge (snd q) rest = false.
Proof.
  induction tl as [|[nf nl] tl IH]; intros f l e He Hfl Hv; simpl in *.
  - exists (f, l), []. split; [done|]. split; [|done]. simpl.
    destruct (Z.ltb_spec e f), (Z.leb_spec f l); simpl; lia || done.
  - apply andb_prop in Hv as [[H1%Z.ltb_lt H2%Z.leb_le]%andb_prop Hv].
    destruct (Z.leb_spec nf (l + 1)).
    + apply IH; [done|lia|done].
    + destruct (IH nf nl l ltac:(lia) H2 Hv) as (q & rest & Hm & Hva & Hnm).
      exists (f, l), (q :: rest). rewrite Hm. split; [done|].
      destruct (merge_into_head tl (nf, nl)) as (l' & rest' & Hh).
      rewrite Hm in Hh. injection Hh as -> ->. simpl in *.
      split.
      * rewrite Hva. destruct (Z.ltb_spec e f), (Z.leb_spec f l); simpl; lia || done.
      * rewrite Hnm. destruct (Z.leb_spec nf (l + 1)); simpl; lia || done.
Qed.

Lemma end_of_snoc (rs : list FrameRange.t) (r : FrameRange.t) :
  end_of (rs ++ [r]) = FrameRange.last r.
Proof. unfold end_of. by rewrite last_snoc. Qed.

(** Ingesting tuples that respect the invariant never raises. *)
Lemma ingest_all (tuples : list (Z * Z)) :
  forall rs idx st,
    0 <= end_of rs ->
    FrameRanges.ranges_after (end_of rs) tuples = true ->
    for_each FrameRanges.add_range tuples (FrameRanges.Build rs idx st)
    = Ok (FrameRanges.Build (rs ++ (range_of <$> tuples)) idx st).
Proof.
  induction tuples as [|[f l] tl IH]; intros rs idx st He Hv; simpl.
  - by rewrite app_nil_r.
  - simpl in Hv.
    apply andb_prop in Hv as [[H1%Z.ltb_lt H2%Z.leb_le]%andb_prop Hv].
    unfold FrameRanges.add_range at 1. unfold FrameRanges._ingest_range.
    rewrite FrameRanges_limits_end. simpl.
    unfold end_of in He, H1.
    destruct (last rs) as [r|] eqn:Hl; simpl in *.
    + destruct (Z.leb_spec f (FrameRange.last r)); [lia|].
      rewrite FrameRange_init_Ok by lia. simpl.
      rewrite IH; rewrite ?end_of_snoc; simpl; [|lia|done].
      by rewrite <- app_assoc.
    + rewrite FrameRange_init_Ok by lia. simpl.
      rewrite IH; rewrite ?end_of_snoc; simpl; [|lia|done].
      by rewrite <- app_assoc.
Qed.

Lemma clear_empty (s : FrameRanges.t) : FrameRanges.clear s = FrameRanges.empty.
Proof. done. Qed.

Lemma reset_fixed (rs : list FrameRange.t) (t : Z * Z) :
  FrameRanges.reset (FrameRanges.Build (range_of t :: rs) 0 false)
  = FrameRanges.Build (range_of t :: rs) 0 false.
Proof. unfold FrameRanges.reset. simpl. by rewrite drop_0. Qed.

Lemma reset_reset (s : FrameRanges.t) :
  FrameRanges.reset (FrameRanges.reset s) = FrameRanges.reset s.
Proof.
  unfold FrameRanges.reset. simpl. f_equal.
  destruct (FrameRanges._ranges s) as [|r rs]; simpl; [done|].
  by rewrite drop_0.
Qed.

Lemma to_range_tuples_reset (s : FrameRanges.t) :
  FrameRanges.to_range_tuples (FrameRanges.reset s) = FrameRanges.to_range_tuples s.
Proof.
  unfold FrameRanges.to_range_tuples, FrameRanges.reset. simpl.
  rewrite fmap_app, <- list_fmap_compose.
  rewrite (list_fmap_ext (FrameRange.limits ∘ FrameRange.reset) FrameRange.limits)
    by done.
  by rewrite <- fmap_app, take_drop.
Qed.

Lemma fmap_limits_range_of (tuples : list (Z * Z)) :
  FrameRange.limits <$> (range_of <$> tuples) = tuples.
Proof.
  induction tuples as [|t tl IH]; [done|].
  rewrite !fmap_cons. by rewrite limits_range_of, IH.
Qed.

(** ** C4 *)

(** C4: on a valid instance [simplify] does not raise; simplifying its
    result again changes nothing (not even the cursor); and the ranges it
    leaves are those of [merge_adjacent]: neighbours are merged exactly
    where the next range starts at most one past the end of the previous
    one. *)
Theorem simplify_idempotent_merges_adjacent (s : FrameRanges.t) :
  FrameRanges.valid s = true ->
  exists r,
    FrameRanges.simplify s = Ok r
    /\ FrameRanges.simplify r = Ok r
    /\ FrameRanges.to_range_tuples r
       = FrameRanges.merge_adjacent (FrameRanges.to_range_tuples s).
Proof.
  unfold FrameRanges.valid. intros Hv.
  unfold FrameRanges.simplify at 1.
  destruct (FrameRanges._ranges s) as [|r0 tl] eqn:Hrs.
  { exists s. unfold FrameRanges.simplify, FrameRanges.to_range_tuples.
    by rewrite Hrs. }
  unfold FrameRanges.to_range_tuples in *. rewrite Hrs in *.
  rewrite simplify_loop_spec. simpl app. simpl orb.
  rewrite fmap_cons, merge_adjacent_merge_into.
  rewrite fmap_cons in Hv. simpl in Hv.
  apply andb_prop in Hv as [[H1%Z.ltb_lt H2%Z.leb_le]%andb_prop Hv].
  destruct (has_merge _ _) eqn:Hm; simpl negb; cbv iota.
  - (* something was merged: the instance is rebuilt *)
    destruct (merge_into_valid _ _ _ 0 H1 H2 Hv) as (q & rest & Hq & Hvq & Hnq).
    change (FrameRange.limits r0) with (FrameRange.first r0, FrameRange.last r0).
    change (snd (FrameRange.first r0, FrameRange.last r0)) with (FrameRange.last r0).
    rewrite Hq.
    rewrite clear_empty. unfold FrameRanges.empty.
    rewrite ingest_all by done. simpl.
    eexists. split; [done|]. split.
    + unfold FrameRanges.simplify. simpl.
      rewrite simplify_loop_spec, limits_range_of, fmap_limits_range_of.
      simpl. rewrite Hnq. simpl. by rewrite reset_fixed.
    + simpl. by rewrite limits_range_of, fmap_limits_range_of.
  - (* nothing to merge: only the cursor is reset *)
    exists (FrameRanges.reset s). split; [done|]. split.
    + unfold FrameRanges.simplify.
      pose proof (to_range_tuples_reset s) as Ht.
      unfold FrameRanges.to_range_tuples in Ht. rewrite Hrs in Ht.
      destruct (FrameRanges._ranges (FrameRanges.reset s)) as [|r0' tl'] eqn:Hrs'.
      { done. }
      rewrite simplify_loop_spec.
      rewrite !fmap_cons in Ht. apply (inj2 cons) in Ht as [Hh Ht].
      rewrite Hh, Ht. cbn [snd FrameRange.limits]. rewrite Hm.
      simpl. by rewrite reset_reset.
    + pose proof (to_range_tuples_reset s) as Ht.
      unfold FrameRanges.to_range_tuples in Ht. rewrite Ht, Hrs.
      rewrite fmap_cons. by rewrite merge_into_no_merge.
Qed.

Lemma simplify_idempotent_merges_adjacent_witness :
  exists r,
    let s := FrameRanges.Build [range_of (1, 2); range_of (3, 4); range_of (6, 8)] 1 true in
    FrameRanges.simplify s = Ok r
    /\ FrameRanges.simplify r = Ok r
    /\ FrameRanges.to_range_tuples r
       = FrameRanges.merge_adjacent (FrameRanges.to_range_tuples s).
Proof.
  apply (simplify_idempotent_merges_adjacent
           (FrameRanges.Build [range_of (1, 2); range_of (3, 4); range_of (6, 8)] 1 true)).
  reflexivity.
Defined.

(* ===================================================================== *)
(** * Properties: frames of a valid instance, and [from_iterable]         *)
(* ===================================================================== *)

Lemma to_list_frames_of (s : FrameRanges.t) :
  FrameRanges.to_list s = frames_of (FrameRanges.to_range_tuples s).
Proof.
  unfold FrameRanges.to_list, frames_of, FrameRanges.to_range_tuples.
  by rewrite <- list_fmap_compose.
Qed.

Lemma frames_of_cons (t : Z * Z) (tl : list (Z * Z)) :
  frames_of (t :: tl) = range (fst t) (snd t + 1) ++ frames_of tl.
Proof. done. Qed.

Lemma elem_of_range (a b k : Z) : k ∈ range a b <-> a <= k < b.
Proof. unfold range. rewrite elem_of_seqZ. lia. Qed.

Lemma seqZ_increasing (k : nat) :
  forall a, StronglySorted Z.lt (seqZ a (Z.of_nat k)).
Proof.
  induction k as [|k IH]; intros a.
  - rewrite seqZ_nil by lia. constructor.
  - rewrite seqZ_cons by lia.
    replace (Z.pred (Z.of_nat (S k))) with (Z.of_nat k) by lia.
    constructor; [apply IH|].
    apply Forall_forall. intros x Hx%elem_of_seqZ. lia.
Qed.

Lemma range_increasing (a b : Z) : StronglySorted Z.lt (range a b).
Proof.
  unfold range. destruct (Z.le_gt_cases (b - a) 0) as [Hle|Hgt].
  - rewrite seqZ_nil by done. constructor.
  - rewrite <- (Z2Nat.id (b - a)) by lia. apply seqZ_increasing.
Qed.

Lemma range_snoc (a b : Z) : a <= b -> range a (b + 1) = range a b ++ [b].
Proof.
  intros Hab. unfold range.
  replace (b + 1 - a) with ((b - a) + 1) by lia.
  rewrite seqZ_app by lia.
  replace (a + (b - a)) with b by lia.
  rewrite (seqZ_cons b 1) by lia. rewrite (seqZ_nil (Z.succ b)) by lia. done.
Qed.

Lemma frames_of_increasing (tuples : list (Z * Z)) :
  forall e,
    FrameRanges.ranges_after e tuples = true ->
    Forall (fun x => e < x) (frames_of tuples)
    /\ StronglySorted Z.lt (frames_of tuples).
Proof.
  induction tuples as [|[f l] tl IH]; intros e Hv.
  - split; constructor.
  - simpl in Hv.
    apply andb_prop in Hv as [[H1%Z.ltb_lt H2%Z.leb_le]%andb_prop Hv].
    destruct (IH l Hv) as [Hgt Hs]. rewrite frames_of_cons. simpl fst; simpl snd.
    rewrite Forall_forall in Hgt. split.
    + apply Forall_forall. intros x [Hx%elem_of_range|Hx%Hgt]%elem_of_app; lia.
    + apply StronglySorted_app_2; [|apply range_increasing|done].
      intros x1 x2 Hx1%elem_of_range Hx2%Hgt. lia.
Qed.

Lemma iterable_to_ranges_loop_spec (vals : list Z) :
  forall first last e,
    e < first -> first <= last ->
    StronglySorted Z.lt vals -> Forall (fun v => last < v) vals ->
    FrameRanges.ranges_after e (_iterable_to_ranges_loop first last vals) = true
    /\ frames_of (_iterable_to_ranges_loop first last vals)
       = range first (last + 1) ++ vals.
Proof.
  induction vals as [|val tl IH]; intros first last e He Hfl Hs Hgt; simpl.
  - split.
    + destruct (Z.ltb_spec e first), (Z.leb_spec first last); simpl; lia || done.
    + rewrite frames_of_cons. reflexivity.
  - apply StronglySorted_cons in Hs as [Htl Hs].
    apply Forall_cons in Hgt as [Hval Hgt].
    destruct (Z.eqb_spec val (last + 1)) as [->|Hne].
    + destruct (IH first (last + 1) e) as [Hv Hf]; [lia|lia|done|done|].
      split; [done|]. rewrite Hf, (range_snoc first (last + 1)) by lia.
      by rewrite <- app_assoc.
    + destruct (IH val val last) as [Hv Hf]; [lia|lia|done|done|].
      split.
      * simpl. rewrite Hv.
        destruct (Z.ltb_spec e first), (Z.leb_spec first last); simpl; lia || done.
      * rewrite frames_of_cons, Hf. simpl fst; simpl snd.
        rewrite (range_snoc val val) by lia.
        replace (range val val) with (@nil Z) by (unfold range; rewrite seqZ_nil by lia; done).
        done.
Qed.

Lemma increasing_le (l : list Z) : StronglySorted Z.lt l -> StronglySorted Z.le l.
Proof.
  induction 1 as [|x l Hs IH Hx]; constructor; [done|].
  eapply Forall_impl; [exact Hx|]. intros; simpl in *; lia.
Qed.

Lemma sorted_increasing (l : list Z) : StronglySorted Z.lt l -> sorted l = l.
Proof.
  intros Hs. unfold sorted.
  apply (StronglySorted_unique Z.le).
  - apply StronglySorted_merge_sort; apply _.
  - by apply increasing_le.
  - apply merge_sort_Permutation.
Qed.

Lemma sorted_NoDup_increasing (l : list Z) :
  NoDup l -> StronglySorted Z.lt (sorted l).
Proof.
  intros Hnd. unfold sorted.
  assert (Hs : StronglySorted Z.le (merge_sort Z.le l))
    by (apply StronglySorted_merge_sort; apply _).
  assert (Hnd' : NoDup (merge_sort Z.le l))
    by (by rewrite merge_sort_Permutation).
  induction Hs as [|x k Hs IH Hx]; [constructor|].
  apply NoDup_cons in Hnd' as [Hnotin Hnd'].
  constructor; [by apply IH|].
  rewrite Forall_forall in Hx. apply Forall_forall. intros y Hy.
  specialize (Hx y Hy). assert (x <> y) by (intros ->; done). lia.
Qed.

Lemma to_list_built (tuples : list (Z * Z)) (idx : nat) (st : bool) :
  FrameRanges.to_list (FrameRanges.Build (range_of <$> tuples) idx st)
  = frames_of tuples.
Proof.
  rewrite to_list_frames_of. unfold FrameRanges.to_range_tuples. simpl.
  by rewrite fmap_limits_range_of.
Qed.

(** [from_iterable] on distinct frame numbers, all at least 1: it does not
    raise, and the instance it builds is valid and holds exactly the given
    frames. *)
Lemma from_iterable_spec (frames : list Z) :
  NoDup frames -> Forall (fun x => 1 <= x) frames ->
  exists r,
    FrameRanges.from_iterable frames = Ok r
    /\ FrameRanges.valid r = true
    /\ FrameRanges.to_list r = sorted frames.
Proof.
  intros Hnd Hpos.
  pose proof (sorted_NoDup_increasing frames Hnd) as Hs.
  assert (Hpos' : Forall (fun x => 1 <= x) (sorted frames)).
  { unfold sorted. by rewrite merge_sort_Permutation. }
  unfold FrameRanges.from_iterable, FrameRanges.__init__, _iterable_to_ranges.
  destruct (sorted frames) as [|v0 tl] eqn:E.
  - exists FrameRanges.empty. done.
  - apply StronglySorted_cons in Hs as [Hgt Hs].
    apply Forall_cons in Hpos' as [Hv0 _].
    destruct (iterable_to_ranges_loop_spec tl v0 v0 0) as [Hv Hf];
      [lia|lia|done|done|].
    unfold FrameRanges.empty. rewrite ingest_all by done.
    eexists. split; [done|]. split.
    + unfold FrameRanges.valid, FrameRanges.to_range_tuples. simpl.
      by rewrite fmap_limits_range_of.
    + simpl app. rewrite to_list_built, Hf, (range_snoc v0 v0) by lia.
      replace (range v0 v0) with (@nil Z) by (unfold range; rewrite seqZ_nil by lia; done).
      done.
Qed.

(* ===================================================================== *)
(** * Properties: boolean masks                                           *)
(* ===================================================================== *)

Lemma increasing_NoDup (l : list Z) : StronglySorted Z.lt l -> NoDup l.
Proof.
  induction 1 as [|x l Hs IH Hx]; constructor; [|done].
  rewrite Forall_forall in Hx. intros Hin%Hx. lia.
Qed.

Lemma increasing_ext (l1 l2 : list Z) :
  StronglySorted Z.lt l1 -> StronglySorted Z.lt l2 ->
  (forall x, x ∈ l1 <-> x ∈ l2) -> l1 = l2.
Proof.
  intros H1 H2 Hext.
  apply (StronglySorted_unique_strong Z.lt); [intros; lia|done|done|].
  apply NoDup_Permutation; auto using increasing_NoDup.
Qed.

Lemma increasing_filter (P : Z -> Prop) `{!forall x, Decision (P x)} (l : list Z) :
  StronglySorted Z.lt l -> StronglySorted Z.lt (filter P l).
Proof.
  induction 1 as [|x l Hs IH Hx]; [constructor|].
  rewrite filter_cons. destruct (decide (P x)); [|done].
  constructor; [done|]. rewrite Forall_forall in Hx.
  apply Forall_forall. intros y [_ Hy]%list_elem_of_filter. auto.
Qed.

Lemma length_set_all (inds : list Z) :
  forall bools, length (set_all bools inds) = length bools.
Proof.
  induction inds as [|i inds IH]; intros bools; simpl; [done|].
  unfold set_all in IH. by rewrite IH, length_insert.
Qed.

Lemma for_each_np_set_true (inds : list Z) :
  forall bools,
    Forall (fun i => 0 <= i < Z.of_nat (length bools)) inds ->
    for_each FrameRanges.np_set_true inds bools = Ok (set_all bools inds).
Proof.
  induction inds as [|i inds IH]; intros bools Hin; simpl; [done|].
  apply Forall_cons in Hin as [Hi Hin].
  unfold FrameRanges.np_set_true at 1.
  destruct (Z.leb_spec 0 i); [|lia].
  destruct (Z.ltb_spec i (Z.of_nat (length bools))); [|lia]. simpl.
  apply IH. by rewrite length_insert.
Qed.

Lemma lookup_set_all (inds : list Z) :
  forall bools (j : nat),
    Forall (fun i => 0 <= i) inds ->
    set_all bools inds !! j = Some true
    <-> bools !! j = Some true
        \/ ((j < length bools)%nat /\ Z.of_nat j ∈ inds).
Proof.
  induction inds as [|i inds IH]; intros bools j Hpos; simpl.
  - split; [auto|]. intros [?|[_ ?%elem_of_nil]]; done.
  - apply Forall_cons in Hpos as [Hi Hpos].
    unfold set_all in IH. rewrite IH by done.
    rewrite length_insert, elem_of_cons, list_lookup_insert_Some.
    split.
    + intros [[(Hj & _ & Hlt)|[Hne Hb]]|[Hlt Hin]]; auto.
      right. split; [lia|]. left. lia.
    + intros [Hb|[Hlt [Heq|Hin]]]; auto.
      * destruct (decide (Z.to_nat i = j)) as [Heq|Hne]; auto.
        left. left. split; [done|]. split; [done|].
        apply lookup_lt_Some in Hb. lia.
      * left. left. split; [lia|]. split; [done|]. lia.
Qed.

Lemma elem_of_flatnonzero_from (bools : list bool) :
  forall i k,
    k ∈ FrameRanges.flatnonzero_from i bools
    <-> exists j : nat, k = i + Z.of_nat j /\ bools !! j = Some true.
Proof.
  induction bools as [|b tl IH]; intros i k; simpl.
  - split; [intros []%elem_of_nil | intros (j & _ & Hj); by destruct j].
  - rewrite elem_of_app, IH. split.
    + intros [Hk|(j & -> & Hj)].
      * destruct b; [|by apply elem_of_nil in Hk].
        apply list_elem_of_singleton in Hk as ->. exists 0%nat. split; [lia|done].
      * exists (S j). split; [lia|done].
    + intros ([|j] & -> & Hj); simpl in Hj.
      * left. injection Hj as ->. apply list_elem_of_singleton. lia.
      * right. exists j. split; [lia|done].
Qed.

Lemma flatnonzero_from_increasing (bools : list bool) :
  forall i, StronglySorted Z.lt (FrameRanges.flatnonzero_from i bools).
Proof.
  induction bools as [|b tl IH]; intros i; simpl; [constructor|].
  apply StronglySorted_app_2; [|destruct b; repeat constructor|apply IH].
  intros x1 x2 Hx1 (j & -> & _)%elem_of_flatnonzero_from.
  destruct b; [|by apply elem_of_nil in Hx1].
  apply list_elem_of_singleton in Hx1 as ->. lia.
Qed.

(** The positions set in the mask are exactly the indices written. *)
Lemma flatnonzero_set_all (n : nat) (inds : list Z) :
  StronglySorted Z.lt inds ->
  Forall (fun i => 0 <= i < Z.of_nat n) inds ->
  FrameRanges.flatnonzero (set_all (replicate n false) inds) = inds.
Proof.
  intros Hs Hin. apply increasing_ext; [apply flatnonzero_from_increasing|done|].
  intros k. unfold FrameRanges.flatnonzero.
  rewrite elem_of_flatnonzero_from. rewrite Forall_forall in Hin. split.
  - intros (j & -> & Hj). apply lookup_set_all in Hj as [Hj|[_ Hj]].
    + apply lookup_replicate in Hj as [? _]. done.
    + by rewrite Z.add_0_l.
    + apply Forall_forall. intros x Hx%Hin. lia.
  - intros Hk. pose proof (Hin k Hk) as Hb. exists (Z.to_nat k).
    split; [lia|]. apply lookup_set_all.
    + apply Forall_forall. intros x Hx%Hin. lia.
    + right. rewrite length_replicate. split; [lia|].
      by rewrite Z2Nat.id by lia.
Qed.

(** ** C7 *)

(** C7: for a valid instance [s] and a size [n >= 0], [to_bools(s, n)]
    returns a mask of length [n] from which [from_bools] rebuilds, without
    raising, an instance whose frames are exactly the frames of [s] that are
    at most [n]; so every frame up to [n] is in the one iff it is in the
    other. *)
Theorem from_bools_to_bools (s : FrameRanges.t) (n : Z) :
  FrameRanges.valid s = true -> 0 <= n ->
  exists bools r,
    FrameRanges.to_bools s (Some n) = Ok bools
    /\ Z.of_nat (length bools) = n
    /\ FrameRanges.from_bools bools = Ok r
    /\ FrameRanges.to_list r = filter (fun i => i <= n) (FrameRanges.to_list s)
    /\ forall frame, frame <= n ->
         (frame ∈ FrameRanges.to_list r <-> frame ∈ FrameRanges.to_list s).
Proof.
  intros Hv Hn. unfold FrameRanges.valid in Hv.
  destruct (frames_of_increasing _ _ Hv) as [Hpos Hs].
  rewrite <- to_list_frames_of in Hpos, Hs.
  set (kept := filter (fun i => i <= n) (FrameRanges.to_list s)).
  assert (Hks : StronglySorted Z.lt kept) by (by apply increasing_filter).
  assert (Hkb : Forall (fun i => 0 < i <= n) kept).
  { apply Forall_forall. intros x [Hx Hin]%list_elem_of_filter.
    rewrite Forall_forall in Hpos. specialize (Hpos x Hin). lia. }
  set (inds := (fun i => i - 1) <$> kept).
  assert (His : StronglySorted Z.lt inds).
  { eapply StronglySorted_fmap; [|exact Hks]. intros; simpl in *; lia. }
  assert (Hib : Forall (fun i => 0 <= i < Z.of_nat (Z.to_nat n)) inds).
  { apply Forall_fmap. eapply Forall_impl; [exact Hkb|]. intros; simpl in *; lia. }
  unfold FrameRanges.to_bools, FrameRanges.np_zeros.
  destruct (Z.ltb_spec n 0); [lia|]. simpl bind.
  fold kept. fold inds.
  rewrite for_each_np_set_true by (by rewrite length_replicate).
  assert (Hback : (fun i => 1 + i) <$> inds = kept).
  { unfold inds. rewrite <- list_fmap_compose.
    rewrite <- (list_fmap_id kept) at 2. apply list_fmap_ext.
    intros _ x _. simpl. lia. }
  destruct (from_iterable_spec kept) as (r & Hr & _ & Hl).
  { by apply increasing_NoDup. }
  { eapply Forall_impl; [exact Hkb|]. intros; simpl in *; lia. }
  exists (set_all (replicate (Z.to_nat n) false) inds), r.
  split; [done|]. split.
  { rewrite length_set_all, length_replicate. lia. }
  unfold FrameRanges.from_bools. rewrite flatnonzero_set_all, Hback by done.
  split; [done|]. rewrite Hl, sorted_increasing by done.
  split; [done|]. intros frame Hf. unfold kept.
  rewrite list_elem_of_filter. tauto.
Qed.

Lemma from_bools_to_bools_witness :
  exists bools r,
    let s := FrameRanges.Build [range_of (1, 2); range_of (3, 4); range_of (6, 8)] 0 false in
    FrameRanges.to_bools s (Some 7) = Ok bools
    /\ Z.of_nat (length bools) = 7
    /\ FrameRanges.from_bools bools = Ok r
    /\ FrameRanges.to_list r = filter (fun i => i <= 7) (FrameRanges.to_list s)
    /\ forall frame, frame <= 7 ->
         (frame ∈ FrameRanges.to_list r <-> frame ∈ FrameRanges.to_list s).
Proof.
  apply (from_bools_to_bools
           (FrameRanges.Build [range_of (1, 2); range_of (3, 4); range_of (6, 8)] 0 false) 7).
  - reflexivity.
  - lia.
Defined.

(* ===================================================================== *)
(** * Properties: the human-readable form of a FrameRange                 *)
(* ===================================================================== *)

Lemma is_digit_not_sign (c : ascii) :
  is_digit c = true -> Ascii.eqb c "-" = false /\ Ascii.eqb c "+" = false.
Proof.
  destruct c as [[|] [|] [|] [|] [|] [|] [|] [|]]; simpl; intros H;
    try discriminate H; split; reflexivity.
Qed.

Lemma string_of_uint_digits (d : Decimal.uint) :
  all_digits (NilEmpty.string_of_uint d) = true.
Proof. induction d; simpl; auto. Qed.

(** ["%d" % n] for a positive [n]: a non-empty string of digits. *)
Lemma format_d_digits (n : Z) :
  1 <= n -> all_digits (format_d n) = true /\ format_d n <> EmptyString.
Proof.
  intros Hn. destruct n as [|p|p]; try lia.
  unfold format_d. simpl.
  pose proof (Unsigned.to_uint_nonnil p) as Hnil.
  destruct (Pos.to_uint p) eqn:E; try done;
    (split; [rewrite <- E; simpl; rewrite E; apply (string_of_uint_digits) | done]).
Qed.

Lemma int_of_str_format_d (n : Z) : 1 <= n -> int_of_str (format_d n) = Ok n.
Proof.
  intros Hn. destruct (format_d_digits n Hn) as [Hd Hne].
  unfold int_of_str.
  assert (Hbody : match format_d n with
                  | String "+"%char s' =>
                      match s' with
                      | String "+"%char _ | String "-"%char _ => EmptyString
                      | _ => s'
                      end
                  | _ => format_d n
                  end = format_d n).
  { destruct (format_d n) as [|c tl]; [done|].
    simpl in Hd. apply andb_prop in Hd as [Hc _].
    apply is_digit_not_sign in Hc as [_ Hc].
    destruct c as [[|] [|] [|] [|] [|] [|] [|] [|]]; try reflexivity.
    discriminate Hc. }
  rewrite Hbody. unfold format_d.
  rewrite NilZero.isi.
  - by rewrite DecimalZ.of_to.
  - destruct n as [|p|p]; try lia. simpl. intros [= E].
    by apply (Unsigned.to_uint_nonnil p).
  - destruct n as [|p|p]; try lia. done.
Qed.

Lemma split_digits (s : string) :
  all_digits s = true -> split "-" s = [s].
Proof.
  induction s as [|c tl IH]; simpl; [done|].
  intros [Hc Htl]%andb_prop. apply is_digit_not_sign in Hc as [-> _].
  by rewrite IH.
Qed.

Lemma split_digits_dash (s1 s2 : string) :
  all_digits s1 = true -> s1 <> EmptyString ->
  split "-" (s1 +:+ "-" +:+ s2) = s1 :: split "-" s2.
Proof.
  induction s1 as [|c tl IH]; [done|].
  intros [Hc Htl]%andb_prop _. apply is_digit_not_sign in Hc as [Hc _].
  simpl. rewrite Hc.
  destruct tl as [|c' tl'].
  - simpl. done.
  - simpl in IH. simpl. rewrite IH; done.
Qed.

(** ** C8 *)

(** C8 (as amended): for all integers [1 <= first <= last], the interval
    [FrameRange(first, last)] is constructed, and parsing its human string
    gives back that same interval. *)
Theorem human_str_round_trip (first last : Z) :
  1 <= first -> first <= last ->
  exists r,
    FrameRange.__init__ first last = Ok r
    /\ FrameRange.limits r = (first, last)
    /\ FrameRange.from_human_str (FrameRange.to_human_str r) = Ok r.
Proof.
  intros H1 H2. exists (FrameRange.Build first last (-1)).
  split; [by apply FrameRange_init_Ok|]. split; [done|].
  destruct (format_d_digits first H1) as [Hdf Hnf].
  destruct (format_d_digits last ltac:(lia)) as [Hdl Hnl].
  unfold FrameRange.from_human_str, FrameRange.to_human_str. simpl.
  destruct (Z.eqb_spec first last) as [<-|Hne].
  - rewrite split_digits by done. simpl.
    rewrite int_of_str_format_d by done. simpl.
    by rewrite FrameRange_init_Ok.
  - rewrite split_digits_dash, split_digits by done. simpl.
    rewrite !int_of_str_format_d by lia. simpl.
    by rewrite FrameRange_init_Ok.
Qed.

Lemma human_str_round_trip_witness :
  exists r,
    FrameRange.__init__ 3 17 = Ok r
    /\ FrameRange.limits r = (3, 17)
    /\ FrameRange.from_human_str (FrameRange.to_human_str r) = Ok r.
Proof. apply (human_str_round_trip 3 17); lia. Defined.

(** C8, the claim as stated fails: [0 <= 0], but [FrameRange(0, 0)] raises,
    so there is no interval to render; the same for [(-3, -1)], whose
    rendering ["-3--1"] would not parse either. *)
Lemma human_str_round_trip_needs_positive :
  0 <= 0
  /\ FrameRange.__init__ 0 0 = Raise FrameRangeError
  /\ -3 <= -1
  /\ FrameRange.__init__ (-3) (-1) = Raise FrameRangeError
  /\ FrameRange.from_human_str
       (FrameRange.to_human_str (FrameRange.Build (-3) (-1) (-1)))
     = Raise FrameRangeError.
Proof. repeat split; (lia || reflexivity). Qed.

(* ===================================================================== *)
(** * Properties: timestamps                                              *)
(* ===================================================================== *)

Lemma round_half_even_nearest (m : positive) (e : Z) :
  nearest_even m e (round_half_even m e).
Proof.
  unfold nearest_even, round_half_even.
  destruct (Z.leb_spec 0 e) as [He|He]; [done|].
  assert (Hd : 0 < 2 ^ (- e)) by (apply Z.pow_pos_nonneg; lia).
  set (d := 2 ^ (- e)) in *.
  pose proof (Z.div_mod (Z.pos m) d ltac:(lia)) as Hdm.
  pose proof (Z.mod_pos_bound (Z.pos m) d Hd) as Hb.
  set (q := Z.pos m / d) in *. set (r := Z.pos m mod d) in *.
  destruct (Z.compare_spec (2 * r) d) as [Heq|Hlt|Hgt].
  - destruct (Z.even q) eqn:Hev.
    + split; [nia|done].
    + split; [nia|]. intros _.
      rewrite Z.even_add, Hev. reflexivity.
  - split; [nia|]. intros Hc. exfalso. nia.
  - split; [nia|]. intros Hc. exfalso. nia.
Qed.

(** ** C2 *)

(** C2 (as amended): [timestamp_to_frame_number(4.5, 9.0, 10)] returns 5,
    not 6; in general the function returns
    [1 + round((timestamp / duration) * (total_frame_count - 1))], a clock
    string being converted to seconds first, where [round] takes a value
    half way between two integers to the even one (so [round(4.5)] is 4). *)
Theorem timestamp_to_frame_number_rounds_half_even
    (float_of_str : string -> result float) :
  timestamp_to_frame_number float_of_str (Seconds 4.5) 9 10 = Ok 5
  /\ (forall t duration total_frame_count,
        timestamp_to_frame_number float_of_str (Seconds t) duration total_frame_count
        = (alpha <- float_truediv t duration ;;
           k <- float_of_int (total_frame_count - 1) ;;
           r <- round (alpha * k)%float ;;
           Ok (1 + r)))
  /\ (forall s duration total_frame_count,
        timestamp_to_frame_number float_of_str (Clock s) duration total_frame_count
        = (t <- timestamp_str_to_seconds float_of_str s ;;
           timestamp_to_frame_number float_of_str (Seconds t) duration total_frame_count))
  /\ (forall x sign m e,
        Prim2SF x = S754_finite sign m e ->
        exists r, round x = Ok (if sign then - r else r) /\ nearest_even m e r).
Proof.
  split; [reflexivity|]. split; [reflexivity|]. split.
  - intros s duration tfc. unfold timestamp_to_frame_number.
    destruct (timestamp_str_to_seconds float_of_str s); reflexivity.
  - intros x sign m e Hx. exists (round_half_even m e).
    unfold round. rewrite Hx. split; [done|apply round_half_even_nearest].
Qed.

(** C2, the claim as stated fails: the call of the example returns 5. *)
Lemma timestamp_to_frame_number_example_is_5 :
  timestamp_to_frame_number (fun _ => Raise ValueError) (Seconds 4.5) 9 10 = Ok 5
  /\ timestamp_to_frame_number (fun _ => Raise ValueError) (Seconds 4.5) 9 10 <> Ok 6
  /\ round 4.5 = Ok 4.
Proof. split; [reflexivity|]. split; [discriminate|reflexivity]. Qed.

(* ===================================================================== *)
(** * Properties: Object                                                  *)
(* ===================================================================== *)

Lemma elem_of_sorted (l : list Z) (x : Z) : x ∈ sorted l <-> x ∈ l.
Proof. unfold sorted. by rewrite merge_sort_Permutation. Qed.

(** ** C5 *)

(** C5: an explicit support is returned as it is; without one the support
    is [FrameRanges.from_iterable] of the keys of [frames]; it does not
    depend on [child_objects]; and, the keys being frame numbers (at least
    1), the derived support consists of exactly the keys of [frames], so a
    frame that only a child object has is not in it. *)
Theorem support_explicit_or_from_frames (obj : Object.t) :
  (forall s, Object._support obj = Some s -> Object.support obj = Ok s)
  /\ (Object._support obj = None ->
      Object.support obj
      = FrameRanges.from_iterable (map_to_list (Object.frames obj)).*1)
  /\ (forall children,
        Object.support (Object.set_child_objects obj children) = Object.support obj)
  /\ (Object._support obj = None ->
      (forall k, is_Some (Object.frames obj !! k) -> 1 <= k) ->
      exists r,
        Object.support obj = Ok r
        /\ forall frame,
             frame ∈ FrameRanges.to_list r <-> is_Some (Object.frames obj !! frame)).
Proof.
  unfold Object.support. split; [by intros s ->|]. split; [by intros ->|].
  split; [done|]. intros -> Hpos.
  destruct (from_iterable_spec (map_to_list (Object.frames obj)).*1)
    as (r & Hr & _ & Hl).
  - apply NoDup_fst_map_to_list.
  - apply Forall_forall. intros k [[k' d] [-> Hin]]%list_elem_of_fmap.
    apply elem_of_map_to_list in Hin. apply Hpos. by exists d.
  - exists r. split; [done|]. intros frame. rewrite Hl, elem_of_sorted.
    rewrite list_elem_of_fmap. split.
    + intros [[k d] [-> Hin]]. apply elem_of_map_to_list in Hin. by exists d.
    + intros [d Hd]. exists (frame, d). split; [done|].
      by apply elem_of_map_to_list.
Qed.

(** ** C6 *)

(** C6: [add_detection(detected, frame_number)] stores the detection, the
    very object it is handed, under [frame_number] when that is given and
    otherwise under the detection's own frame number, as the only change
    to the object; it raises (a [ValueError]) exactly when neither is
    present; and on success the stored detection has its label set to
    [None] and its frame number set to the key, with its other attributes
    as they were, and no other detection changes.  Read through the
    store, a key other than the one written shows the detection it showed
    before, unless it holds the same object, which then shows the new
    label and frame number there too. *)
Theorem add_detection_key_and_label
    (h : Object.store) (self : Object.t_of Object.ref) (detected : Object.ref)
    (frame_number : option Z) :
  let key := match frame_number with
             | Some fn => Some fn
             | None => DetectedObject.frame_number (h detected)
             end in
  match key with
  | Some k =>
      exists h' self',
        Object.add_detection h self detected frame_number = Ok (h', self')
        /\ Object.frames self' = <[k := detected]> (Object.frames self)
        /\ Object.set_frames self' (Object.frames self) = self
        /\ h' detected
           = DetectedObject.Build None
               (DetectedObject.confidence (h detected))
               (DetectedObject.index (h detected))
               (Some k)
               (DetectedObject.event_uuids (h detected))
               (DetectedObject.attrs (h detected))
        /\ (forall r, r <> detected -> h' r = h r)
        /\ Object.frames (Object.read h' self') !! k = Some (h' detected)
        /\ (forall j, j <> k ->
              Object.frames (Object.read h' self') !! j
              = if decide (Object.frames self !! j = Some detected)
                then Some (h' detected)
                else Object.frames (Object.read h self) !! j)
  | None =>
      frame_number = None /\ DetectedObject.frame_number (h detected) = None
      /\ Object.add_detection h self detected frame_number = Raise ValueError
  end.
Proof.
  assert (Hview : forall (h' : Object.store) k,
            (forall r, r <> detected -> h' r = h r) ->
            (h' <$> <[k := detected]> (Object.frames self)) !! k
            = Some (h' detected)
            /\ forall j, j <> k ->
                 (h' <$> <[k := detected]> (Object.frames self)) !! j
                 = if decide (Object.frames self !! j = Some detected)
                   then Some (h' detected)
                   else (h <$> Object.frames self) !! j).
  { intros h' k Hother. split.
    - by rewrite lookup_fmap, lookup_insert_eq.
    - intros j Hj. rewrite !lookup_fmap, lookup_insert_ne by done.
      destruct (Object.frames self !! j) as [r|] eqn:Er; simpl.
      + case_decide as Hd; [by injection Hd as ->|].
        rewrite Hother; [done|]. by intros ->.
      + done. }
  unfold Object.add_detection, Object.setattr_frame_number, Object.setattr_label.
  destruct frame_number as [fn|];
    [|destruct (DetectedObject.frame_number (h detected)) as [fn|] eqn:E];
    simpl; rewrite ?E.
  - eexists _, _. split; [done|]. simpl.
    split; [done|]. split; [by destruct self|].
    split; [by rewrite !fn_lookup_insert|].
    assert (Hother : forall r, r <> detected ->
              <[detected := DetectedObject.set_label
                  (<[detected := DetectedObject.set_frame_number (h detected)
                                   (Some fn)]> h detected) None]>
                (<[detected := DetectedObject.set_frame_number (h detected)
                                 (Some fn)]> h) r = h r).
    { intros r Hr. by rewrite !fn_lookup_insert_ne. }
    split; [exact Hother|]. by apply Hview.
  - eexists _, _. split; [done|]. simpl.
    split; [done|]. split; [by destruct self|].
    split.
    { rewrite fn_lookup_insert. unfold DetectedObject.set_label. simpl.
      by rewrite E. }
    assert (Hother : forall r, r <> detected ->
              <[detected := DetectedObject.set_label (h detected) None]> h r
              = h r).
    { intros r Hr. by rewrite fn_lookup_insert_ne. }
    split; [exact Hother|]. by apply Hview.
  - done.
Qed.

(** The same detection added twice, under frames 1 and 2: afterwards
    both keys hold it, and the detection read under key 1 carries frame
    number 2. *)
Example add_detection_same_object_twice :
  let h : Object.store := fun _ => a_car_detection in
  let self : Object.t_of Object.ref :=
    Object.Build (Some "car"%string) None None None [] ∅ ∅ None in
  match Object.add_detection h self 0%nat (Some 1) with
  | Ok (h1, self1) =>
      match Object.add_detection h1 self1 0%nat (Some 2) with
      | Ok (h2, self2) =>
          DetectedObject.frame_number
            <$> Object.frames (Object.read h2 self2) !! 1 = Some (Some 2)
          /\ DetectedObject.frame_number
               <$> Object.frames (Object.read h2 self2) !! 2 = Some (Some 2)
      | Raise _ => False
      end
  | Raise _ => False
  end.
Proof. split; reflexivity. Qed.

(* ===================================================================== *)
(** * Properties: ObjectContainer                                         *)
(* ===================================================================== *)

Lemma iter_detected_object_attrs_loop_strs (us : list string)
    (attr_type attr_name attr_value : string) :
  ObjectContainer.iter_detected_object_attrs_loop (PyStr <$> us)
    attr_type attr_name attr_value
  = Generated [] (match us with [] => None | _ => Some AttributeError end).
Proof. by destruct us. Qed.

Lemma iter_detected_objects_strs (self : list Object.t) (label : option string) :
  ObjectContainer.iter_detected_objects self label
  = PyStr <$> (obj ← ObjectContainer.iter_objects self label;
               elements (Object.child_objects obj)).
Proof.
  unfold ObjectContainer.iter_detected_objects.
  induction (ObjectContainer.iter_objects self label) as [|o os IH]; [done|].
  rewrite !bind_cons, fmap_app. by rewrite IH.
Qed.

(** ** C10 *)

(** C10: [iter_detected_objects] yields exactly the elements of the
    [child_objects] sets of the objects that match the label: identifier
    strings, never a [DetectedObject], whatever the [frames] of the objects
    are; and [iter_detected_object_attrs], looking for [attrs] on those
    strings, yields nothing: it ends at once when there is no identifier and
    raises [AttributeError] on the first one otherwise. *)
Theorem iter_detected_objects_yields_child_uuids
    (self : list Object.t) (label : option string) :
  (forall v,
     v ∈ ObjectContainer.iter_detected_objects self label
     <-> exists obj uuid,
           obj ∈ ObjectContainer.iter_objects self label
           /\ uuid ∈ Object.child_objects obj /\ v = PyStr uuid)
  /\ (forall d, PyDetectedObject d ∉ ObjectContainer.iter_detected_objects self label)
  /\ (forall other_frames : Object.t -> gmap Z DetectedObject.t,
        ObjectContainer.iter_detected_objects
          ((fun obj => Object.set_frames obj (other_frames obj)) <$> self) label
        = ObjectContainer.iter_detected_objects self label)
  /\ (forall attr_type attr_name attr_value,
        ObjectContainer.iter_detected_object_attrs self label
          attr_type attr_name attr_value
        = Generated []
            (match ObjectContainer.iter_detected_objects self label with
             | [] => None
             | _ => Some AttributeError
             end)).
Proof.
  assert (Hiff : forall v,
     v ∈ ObjectContainer.iter_detected_objects self label
     <-> exists obj uuid,
           obj ∈ ObjectContainer.iter_objects self label
           /\ uuid ∈ Object.child_objects obj /\ v = PyStr uuid).
  { intros v. unfold ObjectContainer.iter_detected_objects.
    rewrite list_elem_of_bind. split.
    - intros (obj & [u [-> Hu]]%list_elem_of_fmap & Hobj).
      exists obj, u. by rewrite <- elem_of_elements.
    - intros (obj & u & Hobj & Hu & ->). exists obj. split; [|done].
      apply list_elem_of_fmap. exists u. by rewrite elem_of_elements. }
  split; [exact Hiff|]. split; [|split].
  - intros d (obj & u & _ & _ & [=])%Hiff.
  - intros other_frames.
    unfold ObjectContainer.iter_detected_objects, ObjectContainer.iter_objects.
    clear Hiff. induction self as [|o os IH]; [done|].
    rewrite fmap_cons, !filter_cons. simpl Object.label.
    destruct (decide _); [|done].
    rewrite !bind_cons. by rewrite IH.
  - intros attr_type attr_name attr_value.
    unfold ObjectContainer.iter_detected_object_attrs.
    rewrite iter_detected_objects_strs, iter_detected_object_attrs_loop_strs.
    by destruct (_ ≫= _).
Qed.

(* ===================================================================== *)
(** * Properties: building an active ObjectSchema                         *)
(* ===================================================================== *)

Section ActiveSchema.
Context `{AttributeContainerSchemaAPI}.

(** [_add_detected_object] never gets past [dobj.frames]. *)
Lemma ObjectSchema__add_detected_object_raises
    (self : ObjectSchema) (dobj : DetectedObject.t) (validate_label : bool) :
  exists e, ObjectSchema__add_detected_object self dobj validate_label = Raise e.
Proof.
  unfold ObjectSchema__add_detected_object.
  destruct (if validate_label then _ else _) as [[]|e]; simpl; [|eauto].
  destruct (ObjectSchema_add_object_attributes _ _) as [s|e]; simpl; eauto.
Qed.

Lemma for_each_first_raises {A S : Type} (body : S -> A -> result S)
    (l : list A) (s : S) :
  l <> [] -> (forall s x, exists e, body s x = Raise e) ->
  exists e, for_each body l s = Raise e.
Proof.
  intros Hl Hbody. destruct l as [|x tl]; [done|]. simpl.
  destruct (Hbody s x) as [e ->]. simpl. eauto.
Qed.

(** ** C1 *)

(** C1 (the code departs from it): whatever the attribute schemas do,
    [ObjectSchema.build_active_schema(obj)] raises for every
    [DetectedObject], and for every [Object] that has a frame detection, so
    no schema is returned that could validate [obj]. *)
Theorem build_active_schema_raises :
  (forall dobj objects,
     exists e,
       ObjectSchema_build_active_schema (ADetectedObject dobj) objects = Raise e)
  /\ (forall obj objects,
        Object.frames obj <> ∅ ->
        exists e,
          ObjectSchema_build_active_schema (AnObject obj) objects = Raise e).
Proof.
  split.
  - intros dobj objects. unfold ObjectSchema_build_active_schema. simpl.
    destruct (ObjectSchema__add_detected_object_raises
                (ObjectSchema_new (DetectedObject.label dobj)) dobj true)
      as [e ->].
    simpl. eauto.
  - intros obj objects Hframes.
    unfold ObjectSchema_build_active_schema. simpl.
    unfold ObjectSchema__add_object.
    destruct (ObjectSchema_validate_label _ _) as [[]|e]; simpl; [|eauto].
    destruct (ObjectSchema_add_object_attributes _ _) as [s1|e]; simpl; [|eauto].
    destruct (ObjectSchema_add_frame_attributes _ _) as [s2|e]; simpl; [|eauto].
    destruct (for_each_first_raises
                (fun self dobj => ObjectSchema__add_detected_object self dobj false)
                (Object.iter_detections obj) s2) as [e ->]; simpl; eauto.
    + unfold Object.iter_detections. intros Hnil.
      apply fmap_nil_inv in Hnil. by apply map_to_list_empty_iff in Hnil.
    + intros s x. apply ObjectSchema__add_detected_object_raises.
Qed.

End ActiveSchema.

(** The same on a detection of a car and on a car with that detection in
    one frame; the container schema, which registers the attributes of a
    detection as frame-level attributes, does accept the detection. *)
Lemma build_active_schema_of_a_car :
  ObjectSchema_build_active_schema (ADetectedObject a_car_detection) None
  = Raise AttributeError
  /\ ObjectSchema_build_active_schema (AnObject a_car) None = Raise AttributeError
  /\ ObjectContainerSchema_build_active_schema [ADetectedObject a_car_detection]
     = Ok {[ Some "car"%string :=
               MkObjectSchema (Some "car"%string) ∅
                 ({[ "color"%string := {[ "red"%string ]} ]} : gmap string (gset string))
                 ∅ ]}.
Proof. split; [reflexivity|]. split; reflexivity. Qed.

(* ===================================================================== *)
(** * Properties: merging schemas                                         *)
(* ===================================================================== *)

Section MergeSchema.
Context `{AttributeContainerSchemaAPI}.

Lemma schema_size_child (s child : ObjectSchema) (label : option string) :
  os_child_objects s !! label = Some child ->
  (schema_size child < schema_size s)%nat.
Proof.
  destruct s as [l a f ch]. simpl. intros Hc.
  rewrite <- (insert_delete_id ch label child Hc).
  rewrite map_fold_insert_L.
  - lia.
  - intros. lia.
  - apply lookup_delete_eq.
Qed.

(** What [merge_entries] leaves under each label. *)
Lemma merge_entries_lookup
    (merge : ObjectSchema -> ObjectSchema -> result ObjectSchema)
    (self schema r : ObjectContainerSchema) :
  merge_entries merge self schema = Ok r ->
  forall label,
    match schema !! label with
    | None => r !! label = self !! label
    | Some obj_schema =>
        exists merged,
          r !! label = Some merged
          /\ merge (default (ObjectSchema_new label) (self !! label)) obj_schema
             = Ok merged
    end.
Proof.
  unfold merge_entries. revert r.
  apply (map_fold_weak_ind
    (fun (acc : result ObjectContainerSchema) (m : ObjectContainerSchema) =>
       forall r, acc = Ok r ->
       forall label,
         match m !! label with
         | None => r !! label = self !! label
         | Some obj_schema =>
             exists merged,
               r !! label = Some merged
               /\ merge (default (ObjectSchema_new label) (self !! label)) obj_schema
                  = Ok merged
         end)).
  - intros r [= <-] label. by rewrite lookup_empty.
  - intros i x m acc Hi IH r Hr label.
    apply bind_Ok_inv in Hr as (self' & -> & Hr).
    specialize (IH self' eq_refl).
    unfold on_entry, ObjectContainerSchema__ensure_has_object_label,
      ObjectContainerSchema_has_object_label in Hr.
    pose proof (IH i) as IHi. rewrite Hi in IHi.
    assert (Hentry : exists merged,
               merge (default (ObjectSchema_new i) (self !! i)) x = Ok merged
               /\ forall j, r !! j = if decide (i = j) then Some merged else self' !! j).
    { destruct (self' !! i) as [entry|] eqn:E.
      - rewrite bool_decide_eq_true_2 in Hr by eauto. simpl in Hr.
        rewrite E in Hr. apply bind_Ok_inv in Hr as (merged & Hm & [= <-]).
        exists merged. rewrite <- IHi. split; [done|].
        intros j. by rewrite lookup_insert.
      - rewrite bool_decide_eq_false_2 in Hr by (intros [? ?]; congruence).
        simpl in Hr. rewrite lookup_insert_eq in Hr.
        apply bind_Ok_inv in Hr as (merged & Hm & [= <-]).
        exists merged. rewrite <- IHi. split; [done|].
        intros j. rewrite !lookup_insert. by destruct (decide (i = j)). }
    destruct Hentry as (merged & Hm & Hr').
    rewrite Hr'. destruct (decide (i = label)) as [->|Hne].
    + rewrite lookup_insert_eq. eauto.
    + rewrite lookup_insert_ne by done. apply IH.
Qed.

Lemma ObjectSchema_merge_schema_unfold (self schema : ObjectSchema) :
  ObjectSchema_merge_schema self schema
  = (ObjectSchema_validate_label self (os_label schema) ;;;
     a <- acs_merge_schema (os_attrs self) (os_attrs schema) ;;
     f <- acs_merge_schema (os_frames self) (os_frames schema) ;;
     c <- merge_entries ObjectSchema_merge_schema
            (os_child_objects self) (os_child_objects schema) ;;
     Ok (MkObjectSchema (os_label self) a f c)).
Proof. by destruct schema. Qed.

(** A successful merge, taken apart. *)
Lemma ObjectSchema_merge_schema_Ok (self schema merged : ObjectSchema) :
  ObjectSchema_merge_schema self schema = Ok merged ->
  os_label schema = os_label self
  /\ os_label merged = os_label self
  /\ acs_merge_schema (os_attrs self) (os_attrs schema) = Ok (os_attrs merged)
  /\ acs_merge_schema (os_frames self) (os_frames schema) = Ok (os_frames merged)
  /\ merge_entries ObjectSchema_merge_schema
       (os_child_objects self) (os_child_objects schema)
     = Ok (os_child_objects merged).
Proof.
  rewrite ObjectSchema_merge_schema_unfold. unfold ObjectSchema_validate_label.
  destruct (decide _) as [Hne|Heq]; [done|]. simpl.
  intros (a & Ha & (f & Hf & (c & Hc & [= <-])%bind_Ok_inv)%bind_Ok_inv)%bind_Ok_inv.
  simpl. repeat split; try done. by apply dec_stable.
Qed.

Lemma ObjectSchema_eq (s1 s2 : ObjectSchema) :
  os_label s1 = os_label s2 -> os_attrs s1 = os_attrs s2 ->
  os_frames s1 = os_frames s2 -> os_child_objects s1 = os_child_objects s2 ->
  s1 = s2.
Proof. destruct s1, s2; simpl; congruence. Qed.

End MergeSchema.

Section MergeSchemaTotal.
Context `{AttributeContainerSchemaAPI}.

Lemma all_entries_spec (p : option string -> ObjectSchema -> bool)
    (m : ObjectContainerSchema) :
  all_entries p m = true <-> forall k c, m !! k = Some c -> p k c = true.
Proof.
  unfold all_entries. induction m as [|i x m Hi Hfold IH] using map_first_key_ind.
  - rewrite map_fold_empty. split; [|done]. intros _ k c. by rewrite lookup_empty.
  - rewrite map_fold_insert_first_key by done.
    rewrite andb_true_iff, IH. split.
    + intros [Hx Hm] k c. rewrite lookup_insert.
      destruct (decide (i = k)) as [->|]; [by intros [= <-]|auto].
    + intros Hall. split.
      * apply Hall. by rewrite lookup_insert_eq.
      * intros k c Hk. apply Hall. rewrite lookup_insert_ne; [done|].
        intros ->. congruence.
Qed.

Lemma well_keyed_entries_spec (m : ObjectContainerSchema) :
  well_keyed_entries m = true
  <-> forall k c, m !! k = Some c -> os_label c = k /\ well_keyed c = true.
Proof.
  unfold well_keyed_entries. rewrite all_entries_spec.
  split; intros Hall k c Hk; specialize (Hall k c Hk).
  - apply andb_prop in Hall as [Hl%bool_decide_eq_true Hw]. done.
  - destruct Hall as [Hl Hw]. rewrite Hw, bool_decide_eq_true_2; done.
Qed.

Lemma well_keyed_children (s : ObjectSchema) :
  well_keyed s = well_keyed_entries (os_child_objects s).
Proof. by destruct s. Qed.

(** One turn of the loop of [merge_entries]. *)
Lemma merge_entry_Ok
    (merge : ObjectSchema -> ObjectSchema -> result ObjectSchema)
    (self : ObjectContainerSchema) (label : option string)
    (obj_schema merged : ObjectSchema) :
  merge (default (ObjectSchema_new label) (self !! label)) obj_schema = Ok merged ->
  on_entry (ObjectContainerSchema__ensure_has_object_label self label) label
           (fun entry => merge entry obj_schema)
  = Ok (<[label := merged]> self).
Proof.
  intros Hm.
  unfold on_entry, ObjectContainerSchema__ensure_has_object_label,
    ObjectContainerSchema_has_object_label.
  destruct (self !! label) as [entry|] eqn:E; simpl in Hm.
  - rewrite bool_decide_eq_true_2 by eauto. simpl. by rewrite E, Hm.
  - rewrite bool_decide_eq_false_2 by (intros [? ?]; congruence). simpl.
    rewrite lookup_insert_eq, Hm. simpl. by rewrite insert_insert_eq.
Qed.

Lemma merge_entries_total
    (merge : ObjectSchema -> ObjectSchema -> result ObjectSchema)
    (good : option string -> ObjectSchema -> Prop)
    (self schema : ObjectContainerSchema) :
  (forall k x, schema !! k = Some x ->
     exists r, merge (default (ObjectSchema_new k) (self !! k)) x = Ok r /\ good k r) ->
  (forall k c, self !! k = Some c -> good k c) ->
  exists r,
    merge_entries merge self schema = Ok r
    /\ forall k c, r !! k = Some c -> good k c.
Proof.
  intros Hschema Hself.
  cut (exists r,
         merge_entries merge self schema = Ok r
         /\ (forall k, schema !! k = None -> r !! k = self !! k)
         /\ forall k c, r !! k = Some c -> good k c).
  { intros (r & ? & _ & ?). eauto. }
  revert Hschema. unfold merge_entries.
  apply (map_fold_weak_ind
    (fun (acc : result ObjectContainerSchema) (m : ObjectContainerSchema) =>
       (forall k x, m !! k = Some x ->
          exists r, merge (default (ObjectSchema_new k) (self !! k)) x = Ok r
                    /\ good k r) ->
       exists r,
         acc = Ok r
         /\ (forall k, m !! k = None -> r !! k = self !! k)
         /\ forall k c, r !! k = Some c -> good k c)).
  - intros _. exists self. split; [done|]. split; [done|]. exact Hself.
  - intros i x m acc Hi IH Hm.
    destruct IH as (r' & -> & Hsame & Hgood).
    { intros k y Hk. apply Hm. rewrite lookup_insert_ne; [done|].
      intros ->. congruence. }
    destruct (Hm i x) as (e & He & Hge); [by rewrite lookup_insert_eq|].
    rewrite <- (Hsame i Hi) in He.
    exists (<[i := e]> r'). split; [by apply merge_entry_Ok|]. split.
    + intros k Hk. apply lookup_insert_None in Hk as [Hk Hne].
      rewrite lookup_insert_ne by done. by apply Hsame.
    + intros k c. rewrite lookup_insert.
      destruct (decide (i = k)) as [->|]; [by intros [= <-]|apply Hgood].
Qed.

(** Attribute schemas that always merge. *)
Hypothesis acs_merge_total :
  forall x y, is_ok (acs_merge_schema x y) = true.

Lemma acs_merge_total_Ok x y : exists r, acs_merge_schema x y = Ok r.
Proof.
  pose proof (acs_merge_total x y) as Hok.
  destruct (acs_merge_schema x y); [eauto|discriminate].
Qed.

Lemma ObjectSchema_merge_schema_total (n : nat) :
  forall a b,
    (schema_size a + schema_size b < n)%nat ->
    well_keyed a = true -> well_keyed b = true ->
    os_label b = os_label a ->
    exists r,
      ObjectSchema_merge_schema a b = Ok r
      /\ os_label r = os_label a /\ well_keyed r = true.
Proof.
  induction n as [|n IH]; intros a b Hn Ha Hb Hl; [lia|].
  rewrite ObjectSchema_merge_schema_unfold. unfold ObjectSchema_validate_label.
  destruct (decide _) as [Hne|_]; [done|]. simpl.
  destruct (acs_merge_total_Ok (os_attrs a) (os_attrs b)) as [a' ->].
  destruct (acs_merge_total_Ok (os_frames a) (os_frames b)) as [f' ->]. simpl.
  rewrite well_keyed_children, well_keyed_entries_spec in Ha, Hb.
  destruct (merge_entries_total ObjectSchema_merge_schema
              (fun k c => os_label c = k /\ well_keyed c = true)
              (os_child_objects a) (os_child_objects b)) as (c' & -> & Hc').
  - intros k x Hx. destruct (Hb k x Hx) as [Hlx Hwx].
    pose proof (schema_size_child _ _ _ Hx) as Hsx.
    destruct (os_child_objects a !! k) as [entry|] eqn:E; simpl.
    + destruct (Ha k entry E) as [Hle Hwe].
      pose proof (schema_size_child _ _ _ E) as Hse.
      destruct (IH entry x) as (r & Hr & Hlr & Hwr); [lia|done|done|congruence|].
      exists r. split; [done|]. split; [congruence|done].
    + destruct (IH (ObjectSchema_new k) x) as (r & Hr & Hlr & Hwr);
        [|done|done|done|].
      * destruct a; simpl in *. unfold all_entries. rewrite map_fold_empty. lia.
      * exists r. split; [done|]. split; [done|done].
  - exact Ha.
  - simpl. eexists. split; [done|]. split; [done|].
    rewrite well_keyed_children, well_keyed_entries_spec. exact Hc'.
Qed.

End MergeSchemaTotal.

Section MergeSchemaLaws.
Context `{AttributeContainerSchemaAPI} `{!AttributeContainerSchemaMerge}.

(** Merging into a fresh [ObjectSchema(label)] copies the other schema. *)
Lemma ObjectSchema_merge_schema_new (n : nat) :
  forall schema label merged,
    (schema_size schema < n)%nat ->
    ObjectSchema_merge_schema (ObjectSchema_new label) schema = Ok merged ->
    merged = schema.
Proof.
  induction n as [|n IH]; intros schema label merged Hn Hm; [lia|].
  apply ObjectSchema_merge_schema_Ok in Hm as (Hl & Hl' & Ha & Hf & Hc).
  simpl in *. apply ObjectSchema_eq.
  - congruence.
  - by apply acs_merge_new.
  - by apply acs_merge_new.
  - apply map_eq. intros k.
    pose proof (merge_entries_lookup _ _ _ _ Hc k) as Hk.
    destruct (os_child_objects schema !! k) as [child|] eqn:E.
    + destruct Hk as (m & -> & Hm). rewrite lookup_empty in Hm. simpl in Hm.
      f_equal. apply (IH child k); [|done].
      pose proof (schema_size_child _ _ _ E). lia.
    + by rewrite Hk, lookup_empty.
Qed.

Lemma merge_new (schema merged : ObjectSchema) (label : option string) :
  ObjectSchema_merge_schema (ObjectSchema_new label) schema = Ok merged ->
  merged = schema.
Proof. apply (ObjectSchema_merge_schema_new (S (schema_size schema))). lia. Qed.

Lemma ObjectSchema_merge_schema_comm (n : nat) :
  forall a b ab ba,
    (schema_size a + schema_size b < n)%nat ->
    ObjectSchema_merge_schema a b = Ok ab ->
    ObjectSchema_merge_schema b a = Ok ba ->
    ab = ba.
Proof.
  induction n as [|n IH]; intros a b ab ba Hn Hab Hba; [lia|].
  apply ObjectSchema_merge_schema_Ok in Hab as (Hl1 & Hl1' & Ha1 & Hf1 & Hc1).
  apply ObjectSchema_merge_schema_Ok in Hba as (Hl2 & Hl2' & Ha2 & Hf2 & Hc2).
  apply ObjectSchema_eq.
  - congruence.
  - by apply (acs_merge_comm (os_attrs a) (os_attrs b)).
  - by apply (acs_merge_comm (os_frames a) (os_frames b)).
  - apply map_eq. intros k.
    pose proof (merge_entries_lookup _ _ _ _ Hc1 k) as H1.
    pose proof (merge_entries_lookup _ _ _ _ Hc2 k) as H2.
    destruct (os_child_objects a !! k) as [x|] eqn:Ea,
             (os_child_objects b !! k) as [y|] eqn:Eb; simpl in *.
    + destruct H1 as (m1 & -> & Hm1), H2 as (m2 & -> & Hm2). f_equal.
      apply (IH x y); [|done|done].
      pose proof (schema_size_child _ _ _ Ea).
      pose proof (schema_size_child _ _ _ Eb). lia.
    + destruct H2 as (m2 & -> & Hm2). rewrite H1. f_equal.
      symmetry. by apply merge_new in Hm2.
    + destruct H1 as (m1 & -> & Hm1). rewrite H2. f_equal.
      by apply merge_new in Hm1.
    + by rewrite H1, H2.
Qed.

(** One step in relating the entries under [k] of merged containers. *)
Ltac merge_entries_step k :=
  match goal with
  | K : exists _, _ /\ _ |- _ => destruct K as (? & ? & ?)
  | E : ?m !! k = _, K : context [?m !! k] |- _ =>
      rewrite E in K; simpl in K
  | M : ObjectSchema_merge_schema (ObjectSchema_new _) _ = Ok _ |- _ =>
      apply merge_new in M; subst
  end.

Lemma ObjectSchema_merge_schema_assoc (n : nat) :
  forall a b c ab ab_c bc a_bc,
    (schema_size a + schema_size b + schema_size c < n)%nat ->
    ObjectSchema_merge_schema a b = Ok ab ->
    ObjectSchema_merge_schema ab c = Ok ab_c ->
    ObjectSchema_merge_schema b c = Ok bc ->
    ObjectSchema_merge_schema a bc = Ok a_bc ->
    ab_c = a_bc.
Proof.
  induction n as [|n IH]; intros a b c ab ab_c bc a_bc Hn H1 H2 H3 H4; [lia|].
  apply ObjectSchema_merge_schema_Ok in H1 as (Hl1 & Hl1' & Ha1 & Hf1 & Hc1).
  apply ObjectSchema_merge_schema_Ok in H2 as (Hl2 & Hl2' & Ha2 & Hf2 & Hc2).
  apply ObjectSchema_merge_schema_Ok in H3 as (Hl3 & Hl3' & Ha3 & Hf3 & Hc3).
  apply ObjectSchema_merge_schema_Ok in H4 as (Hl4 & Hl4' & Ha4 & Hf4 & Hc4).
  apply ObjectSchema_eq.
  - congruence.
  - by apply (acs_merge_assoc (os_attrs a) (os_attrs b) (os_attrs c)
                (os_attrs ab) _ (os_attrs bc)).
  - by apply (acs_merge_assoc (os_frames a) (os_frames b) (os_frames c)
                (os_frames ab) _ (os_frames bc)).
  - apply map_eq. intros k.
    pose proof (merge_entries_lookup _ _ _ _ Hc1 k) as K1.
    pose proof (merge_entries_lookup _ _ _ _ Hc2 k) as K2.
    pose proof (merge_entries_lookup _ _ _ _ Hc3 k) as K3.
    pose proof (merge_entries_lookup _ _ _ _ Hc4 k) as K4.
    destruct (os_child_objects a !! k) as [x|] eqn:Ea,
             (os_child_objects b !! k) as [y|] eqn:Eb,
             (os_child_objects c !! k) as [z|] eqn:Ec; simpl in *;
      repeat merge_entries_step k;
      repeat match goal with
             | E : ?m !! k = _ |- context [?m !! k] => rewrite E
             end;
      try congruence.
    f_equal. eapply (IH x y z); eauto.
    pose proof (schema_size_child _ _ _ Ea).
    pose proof (schema_size_child _ _ _ Eb).
    pose proof (schema_size_child _ _ _ Ec). lia.
Qed.

(** ** C9 *)

(** C9: [ObjectContainerSchema.merge_schema], where it does not raise, is a
    union of the per-label maps: the merged schema has the labels of both;
    a label that only one of the two has keeps the schema it had there,
    unchanged; and under a label that both have, the merged [ObjectSchema]
    has that label and holds the merge of the two object-level attribute
    schemas, the merge of the two frame-level attribute schemas and the
    merge of the two schemas of child objects.  This union is commutative
    (merging [b] into [a] and [a] into [b] give equal schemas) and
    associative (merging [c] after [b] into [a] equals merging into [a]
    the result of merging [c] into [b]), given that merging attribute
    schemas is such a union.  And it does not raise on well-keyed
    container schemas when merging attribute schemas does not: then the only
    check left, that of the labels, passes. *)
Theorem ObjectContainerSchema_merge_schema_comm_assoc :
  (forall a b ab,
     ObjectContainerSchema_merge_schema a b = Ok ab -> dom ab = dom a ∪ dom b)
  /\ (forall a b ab,
        ObjectContainerSchema_merge_schema a b = Ok ab ->
        forall label,
          match a !! label, b !! label with
          | Some x, Some y =>
              exists merged,
                ab !! label = Some merged
                /\ os_label merged = os_label x
                /\ os_label y = os_label x
                /\ acs_merge_schema (os_attrs x) (os_attrs y)
                   = Ok (os_attrs merged)
                /\ acs_merge_schema (os_frames x) (os_frames y)
                   = Ok (os_frames merged)
                /\ ObjectContainerSchema_merge_schema
                     (os_child_objects x) (os_child_objects y)
                   = Ok (os_child_objects merged)
          | Some x, None => ab !! label = Some x
          | None, Some y => ab !! label = Some y
          | None, None => ab !! label = None
          end)
  /\ (forall a b ab ba,
        ObjectContainerSchema_merge_schema a b = Ok ab ->
        ObjectContainerSchema_merge_schema b a = Ok ba ->
        ab = ba)
  /\ (forall a b c ab ab_c bc a_bc,
        ObjectContainerSchema_merge_schema a b = Ok ab ->
        ObjectContainerSchema_merge_schema ab c = Ok ab_c ->
        ObjectContainerSchema_merge_schema b c = Ok bc ->
        ObjectContainerSchema_merge_schema a bc = Ok a_bc ->
        ab_c = a_bc)
  /\ ((forall x y, is_ok (acs_merge_schema x y) = true) ->
      forall a b,
        well_keyed_entries a = true -> well_keyed_entries b = true ->
        exists ab,
          ObjectContainerSchema_merge_schema a b = Ok ab
          /\ well_keyed_entries ab = true).
Proof.
  unfold ObjectContainerSchema_merge_schema. split; [|split; [|split; [|split]]].
  - intros a b ab Hab. apply set_eq. intros k.
    rewrite elem_of_union, !elem_of_dom.
    pose proof (merge_entries_lookup _ _ _ _ Hab k) as K.
    destruct (b !! k) as [y|].
    + destruct K as (m & -> & _). split; eauto.
    + rewrite K. split; [auto|]. by intros [?|[? [=]]].
  - intros a b ab Hab label.
    pose proof (merge_entries_lookup _ _ _ _ Hab label) as K.
    destruct (a !! label) as [x|] eqn:Ea, (b !! label) as [y|] eqn:Eb;
      simpl in K; try done.
    + destruct K as (m & Hm & Hxy).
      apply ObjectSchema_merge_schema_Ok in Hxy as (Hl & Hl' & Ha & Hf & Hc).
      exists m. done.
    + destruct K as (m & Hm & Hy). by apply merge_new in Hy as ->.
  - intros a b ab ba H1 H2. apply map_eq. intros k.
    pose proof (merge_entries_lookup _ _ _ _ H1 k) as K1.
    pose proof (merge_entries_lookup _ _ _ _ H2 k) as K2.
    destruct (a !! k) as [x|] eqn:Ea, (b !! k) as [y|] eqn:Eb; simpl in *;
      repeat merge_entries_step k;
      repeat match goal with
             | E : ?m !! k = _ |- context [?m !! k] => rewrite E
             end;
      try congruence.
    f_equal.
    eapply (ObjectSchema_merge_schema_comm (S (schema_size x + schema_size y)));
      eauto.
  - intros a b c ab ab_c bc a_bc H1 H2 H3 H4. apply map_eq. intros k.
    pose proof (merge_entries_lookup _ _ _ _ H1 k) as K1.
    pose proof (merge_entries_lookup _ _ _ _ H2 k) as K2.
    pose proof (merge_entries_lookup _ _ _ _ H3 k) as K3.
    pose proof (merge_entries_lookup _ _ _ _ H4 k) as K4.
    destruct (a !! k) as [x|] eqn:Ea, (b !! k) as [y|] eqn:Eb,
             (c !! k) as [z|] eqn:Ec; simpl in *;
      repeat merge_entries_step k;
      repeat match goal with
             | E : ?m !! k = _ |- context [?m !! k] => rewrite E
             end;
      try congruence.
    f_equal.
    eapply (ObjectSchema_merge_schema_assoc
              (S (schema_size x + schema_size y + schema_size z)) x y z);
      eauto.
  - intros Htotal a b Ha Hb.
    rewrite well_keyed_entries_spec in Ha, Hb.
    destruct (merge_entries_total ObjectSchema_merge_schema
                (fun k c => os_label c = k /\ well_keyed c = true) a b)
      as (ab & Hab & Hgood); [|exact Ha|].
    + intros k x Hx. destruct (Hb k x Hx) as [Hlx Hwx].
      destruct (a !! k) as [entry|] eqn:E; simpl.
      * destruct (Ha k entry E) as [Hle Hwe].
        destruct (ObjectSchema_merge_schema_total Htotal
                    (S (schema_size entry + schema_size x)) entry x)
          as (r & Hr & Hlr & Hwr); [lia|done|done|congruence|].
        exists r. split; [done|]. split; [congruence|done].
      * destruct (ObjectSchema_merge_schema_total Htotal
                    (S (schema_size (ObjectSchema_new k) + schema_size x))
                    (ObjectSchema_new k) x)
          as (r & Hr & Hlr & Hwr); [lia|done|done|done|].
        exists r. split; [done|]. split; [done|done].
    + exists ab. split; [done|]. by apply well_keyed_entries_spec.
Qed.

End MergeSchemaLaws.

(** The concrete attribute schemas merge as the theorem asks. *)
#[export] Instance name_values_merge : @AttributeContainerSchemaMerge name_values_schemas.
Proof.
  split; simpl.
  - intros a b ab ba Hab Hba. injection Hab as <-. injection Hba as <-.
    apply map_eq. intros k.
    rewrite !lookup_union_with.
    destruct (a !! k), (b !! k); simpl; try done. f_equal. apply (comm_L _).
  - intros a b c ab ab_c bc a_bc H1 H2 H3 H4.
    injection H1 as <-. injection H2 as <-. injection H3 as <-. injection H4 as <-.
    apply map_eq. intros k. rewrite !lookup_union_with.
    destruct (a !! k), (b !! k), (c !! k); simpl; try done.
    f_equal. symmetry. apply (assoc_L _).
  - intros a r Hr. injection Hr as <-. apply map_eq. intros k.
    rewrite lookup_union_with, lookup_empty. by destruct (a !! k).
Qed.

Lemma ObjectContainerSchema_merge_schema_comm_assoc_witness :
  is_ok (ObjectContainerSchema_merge_schema cars_red cars_blue_and_person) = true
  /\ is_ok (ObjectContainerSchema_merge_schema cars_blue_and_person cars_red) = true
  /\ match ObjectContainerSchema_merge_schema cars_red cars_blue_and_person,
           ObjectContainerSchema_merge_schema cars_blue_and_person cars_red with
     | Ok ab, Ok ba =>
         ab = ba
         /\ ab !! Some "person"%string = cars_blue_and_person !! Some "person"%string
         /\ exists car,
              ab !! Some "car"%string = Some car
              /\ os_attrs car !! "color"%string
                 = Some ({[ "red"%string ]} ∪ {[ "blue"%string ]})
     | _, _ => False
     end.
Proof.
  assert (H1 : is_ok (ObjectContainerSchema_merge_schema cars_red cars_blue_and_person)
               = true) by (vm_compute; reflexivity).
  assert (H2 : is_ok (ObjectContainerSchema_merge_schema cars_blue_and_person cars_red)
               = true) by (vm_compute; reflexivity).
  split; [exact H1|]. split; [exact H2|].
  destruct (ObjectContainerSchema_merge_schema cars_red cars_blue_and_person)
    as [ab|] eqn:E1; [|discriminate H1].
  destruct (ObjectContainerSchema_merge_schema cars_blue_and_person cars_red)
    as [ba|] eqn:E2; [|discriminate H2].
  pose proof (@ObjectContainerSchema_merge_schema_comm_assoc
                name_values_schemas name_values_merge)
    as (_ & Hcontent & Hcomm & _).
  split; [exact (Hcomm cars_red cars_blue_and_person ab ba E1 E2)|].
  split.
  - pose proof (Hcontent _ _ _ E1 (Some "person"%string)) as K.
    change (cars_red !! Some "person"%string)
      with (@None (@ObjectSchema name_values_schemas)) in K.
    by destruct (cars_blue_and_person !! Some "person"%string).
  - pose proof (Hcontent _ _ _ E1 (Some "car"%string)) as K.
    change (cars_red !! Some "car"%string)
      with (Some (MkObjectSchema (Some "car"%string)
                    ({[ "color"%string := {[ "red"%string ]} ]}
                       : gmap string (gset string)) ∅ ∅)) in K.
    change (cars_blue_and_person !! Some "car"%string)
      with (Some (MkObjectSchema (Some "car"%string)
                    ({[ "color"%string := {[ "blue"%string ]} ]}
                       : gmap string (gset string)) ∅ ∅)) in K.
    destruct K as (car & Hcar & _ & _ & Hattrs & _).
    exists car. split; [exact Hcar|].
    injection Hattrs as <-. reflexivity.
Defined.

(* ===================================================================== *)
(** * Further properties: building a FrameRanges                          *)
(* ===================================================================== *)

Lemma ranges_after_app (t1 t2 : list (Z * Z)) :
  forall e,
    FrameRanges.ranges_after e (t1 ++ t2)
    = FrameRanges.ranges_after e t1
      && FrameRanges.ranges_after (default e (snd <$> last t1)) t2.
Proof.
  induction t1 as [|[f l] t1 IH]; intros e; simpl; [done|].
  rewrite IH, last_cons, !andb_assoc.
  by destruct (last t1).
Qed.

Lemma ranges_after_end (tuples : list (Z * Z)) :
  forall e,
    FrameRanges.ranges_after e tuples = true ->
    e <= default e (snd <$> last tuples).
Proof.
  induction tuples as [|[f l] tl IH]; intros e; simpl; [lia|].
  intros [[H1%Z.ltb_lt H2%Z.leb_le]%andb_prop Hv]%andb_prop.
  specialize (IH l Hv). rewrite last_cons.
  destruct (last tl); simpl in *; lia.
Qed.

Lemma end_of_tuples (rs : list FrameRange.t) :
  end_of rs = default 0 (snd <$> last (FrameRange.limits <$> rs)).
Proof. unfold end_of. rewrite fmap_last. by destruct (last rs). Qed.

Lemma valid_end_of (s : FrameRanges.t) :
  FrameRanges.valid s = true -> 0 <= end_of (FrameRanges._ranges s).
Proof.
  intros Hv. rewrite end_of_tuples. by apply ranges_after_end.
Qed.

Lemma ingest_outcome (tuples : list (Z * Z)) :
  forall rs idx st,
    0 <= end_of rs ->
    match for_each FrameRanges.add_range tuples (FrameRanges.Build rs idx st) with
    | Ok s =>
        FrameRanges.ranges_after (end_of rs) tuples = true
        /\ s = FrameRanges.Build (rs ++ (range_of <$> tuples)) idx st
    | Raise e =>
        FrameRanges.ranges_after (end_of rs) tuples = false
        /\ (e = FrameRangeError \/ e = FrameRangesError)
    end.
Proof.
  induction tuples as [|[f l] tl IH]; intros rs idx st He.
  - simpl. by rewrite app_nil_r.
  - destruct (FrameRanges.ranges_after (end_of rs) ((f, l) :: tl)) eqn:Hv.
    { rewrite ingest_all by done. done. }
    simpl in Hv. simpl for_each.
    unfold FrameRanges.add_range at 1. unfold FrameRanges._ingest_range.
    rewrite FrameRanges_limits_end. unfold end_of in *.
    simpl. destruct (last rs) as [r|] eqn:Hl; simpl in *.
    + destruct (Z.leb_spec f (FrameRange.last r)) as [Hle|Hgt].
      { simpl. split; [|auto]. destruct (Z.ltb_spec (FrameRange.last r) f); [lia|done]. }
      destruct (Z.ltb_spec (FrameRange.last r) f); [|lia]. simpl in Hv.
      destruct (Z.leb_spec f l) as [Hfl|Hfl]; simpl in Hv.
      * rewrite FrameRange_init_Ok by lia. simpl.
        specialize (IH (rs ++ [FrameRange.Build f l (-1)]) idx st).
        rewrite last_snoc in IH. simpl in IH. specialize (IH ltac:(lia)).
        rewrite Hv in IH.
        destruct (for_each _ _ _) as [s|e]; [by destruct IH|done].
      * rewrite FrameRange_init_Raise by lia. simpl. auto.
    + destruct (Z.ltb_spec 0 f) as [Hf|Hf]; simpl in Hv.
      * destruct (Z.leb_spec f l) as [Hfl|Hfl]; simpl in Hv.
        -- rewrite FrameRange_init_Ok by lia. simpl.
           specialize (IH (rs ++ [FrameRange.Build f l (-1)]) idx st).
           rewrite last_snoc in IH. simpl in IH. specialize (IH ltac:(lia)).
           rewrite Hv in IH.
           destruct (for_each _ _ _) as [s|e]; [by destruct IH|done].
        -- rewrite FrameRange_init_Raise by lia. simpl. auto.
      * rewrite FrameRange_init_Raise by lia. simpl. auto.
Qed.

(** X1: [FrameRanges(ranges)] on a list of tuples succeeds exactly when the
    tuples respect the class invariant (each has [1 <= first <= last] and
    starts after the end of the one before); it then holds those ranges with
    a fresh cursor.  Otherwise it raises [FrameRangeError] or
    [FrameRangesError]. *)
Theorem FrameRanges_init_outcome (ranges : list (Z * Z)) :
  match FrameRanges.__init__ ranges with
  | Ok s =>
      FrameRanges.ranges_after 0 ranges = true
      /\ s = FrameRanges.Build (range_of <$> ranges) 0 false
      /\ FrameRanges.valid s = true
      /\ FrameRanges.to_range_tuples s = ranges
  | Raise e =>
      FrameRanges.ranges_after 0 ranges = false
      /\ (e = FrameRangeError \/ e = FrameRangesError)
  end.
Proof.
  unfold FrameRanges.__init__, FrameRanges.empty.
  pose proof (ingest_outcome ranges [] 0%nat false ltac:(done)) as H.
  destruct (for_each _ _ _) as [s|e]; [|done].
  destruct H as [Hv ->]. simpl in *.
  unfold FrameRanges.valid, FrameRanges.to_range_tuples. simpl.
  by rewrite fmap_limits_range_of.
Qed.

(** X2: [add_range] keeps the class invariant: a valid instance stays
    valid, the frames of the new range come after the old ones, and the
    cursor is left where it was. *)
Theorem add_range_keeps_valid (s s' : FrameRanges.t) (first last : Z) :
  FrameRanges.valid s = true ->
  FrameRanges.add_range s (first, last) = Ok s' ->
  FrameRanges.valid s' = true
  /\ FrameRanges.to_list s' = FrameRanges.to_list s ++ range first (last + 1)
  /\ FrameRanges._idx s' = FrameRanges._idx s
  /\ FrameRanges._started s' = FrameRanges._started s.
Proof.
  intros Hv Hadd. pose proof (valid_end_of s Hv) as He.
  pose proof (ingest_outcome [(first, last)] (FrameRanges._ranges s)
                (FrameRanges._idx s) (FrameRanges._started s) He) as H.
  simpl for_each in H. destruct s as [rs idx st]. simpl in *.
  rewrite Hadd in H. simpl in H. destruct H as [Hnew ->].
  unfold FrameRanges.valid, FrameRanges.to_range_tuples in *. simpl in *.
  split; [|split; [|done]].
  - rewrite fmap_app, ranges_after_app, Hv, <- end_of_tuples. exact Hnew.
  - unfold FrameRanges.to_list. simpl.
    rewrite fmap_app, concat_app. simpl. by rewrite app_nil_r.
Qed.

Lemma add_range_keeps_valid_witness :
  let s := FrameRanges.Build [range_of (1, 2); range_of (5, 6)] 1 true in
  let s' := FrameRanges.Build [range_of (1, 2); range_of (5, 6); range_of (7, 9)] 1 true in
  FrameRanges.valid s' = true
  /\ FrameRanges.to_list s' = FrameRanges.to_list s ++ range 7 (9 + 1)
  /\ FrameRanges._idx s' = FrameRanges._idx s
  /\ FrameRanges._started s' = FrameRanges._started s.
Proof.
  apply (add_range_keeps_valid
           (FrameRanges.Build [range_of (1, 2); range_of (5, 6)] 1 true)
           (FrameRanges.Build [range_of (1, 2); range_of (5, 6); range_of (7, 9)] 1 true)
           7 9); reflexivity.
Defined.

(* ===================================================================== *)
(** * Further properties: size and limits                                 *)
(* ===================================================================== *)

Lemma length_range (a b : Z) : a <= b -> Z.of_nat (length (range a b)) = b - a.
Proof. intros Hab. unfold range. rewrite length_seqZ. lia. Qed.

Lemma range_cons (a b : Z) : a < b -> range a b = a :: range (a + 1) b.
Proof.
  intros Hab. unfold range. rewrite seqZ_cons by lia.
  by replace (Z.pred (b - a)) with (b - (a + 1)) by lia.
Qed.

Lemma range_nil (a b : Z) : b <= a -> range a b = [].
Proof. intros Hab. unfold range. by rewrite seqZ_nil by lia. Qed.

Lemma last_range (a b : Z) : a < b -> last (range a b) = Some (b - 1).
Proof.
  intros Hab. replace b with ((b - 1) + 1) at 1 by lia.
  rewrite range_snoc by lia. apply last_snoc.
Qed.

Lemma frames_of_len (tuples : list (Z * Z)) :
  forall e,
    FrameRanges.ranges_after e tuples = true ->
    foldr Z.add 0 ((fun t => snd t + 1 - fst t) <$> tuples)
    = Z.of_nat (length (frames_of tuples)).
Proof.
  induction tuples as [|[f l] tl IH]; intros e Hv; [done|].
  simpl in Hv.
  apply andb_prop in Hv as [[H1%Z.ltb_lt H2%Z.leb_le]%andb_prop Hv].
  rewrite frames_of_cons, length_app, Nat2Z.inj_add, <- (IH l Hv), fmap_cons.
  cbn [foldr fst snd]. rewrite length_range by lia. lia.
Qed.

(** X3: on a valid instance [len(s)] is the number of frames of
    [s.to_list()]. *)
Theorem FrameRanges_len_to_list (s : FrameRanges.t) :
  FrameRanges.valid s = true ->
  FrameRanges.__len__ s = Z.of_nat (length (FrameRanges.to_list s)).
Proof.
  intros Hv. rewrite to_list_frames_of.
  rewrite <- (frames_of_len _ 0 Hv).
  unfold FrameRanges.__len__, FrameRanges.to_range_tuples.
  by rewrite <- list_fmap_compose.
Qed.

Lemma FrameRanges_len_to_list_witness :
  FrameRanges.__len__
    (FrameRanges.Build [range_of (1, 3); range_of (6, 6); range_of (8, 10)] 0 false)
  = Z.of_nat (length (FrameRanges.to_list
       (FrameRanges.Build [range_of (1, 3); range_of (6, 6); range_of (8, 10)] 0 false))).
Proof.
  apply (FrameRanges_len_to_list
           (FrameRanges.Build [range_of (1, 3); range_of (6, 6); range_of (8, 10)] 0 false)).
  reflexivity.
Defined.

Lemma frames_of_head_last (tuples : list (Z * Z)) :
  forall e,
    FrameRanges.ranges_after e tuples = true ->
    head (frames_of tuples) = fst <$> head tuples
    /\ last (frames_of tuples) = snd <$> last tuples.
Proof.
  induction tuples as [|[f l] tl IH]; intros e Hv; [done|].
  simpl in Hv.
  apply andb_prop in Hv as [[H1%Z.ltb_lt H2%Z.leb_le]%andb_prop Hv].
  destruct (IH l Hv) as [_ IHl]. rewrite frames_of_cons. simpl fst; simpl snd.
  split.
  - rewrite range_cons by lia. done.
  - rewrite last_app, IHl, last_cons, last_range by lia.
    replace (l + 1 - 1) with l by lia.
    by destruct (last tl).
Qed.

(** X4: the [limits] of a valid instance are its smallest and its largest
    frame, and [(None, None)] when it has no frames. *)
Theorem FrameRanges_limits_to_list (s : FrameRanges.t) :
  FrameRanges.valid s = true ->
  FrameRanges.limits s
  = (head (FrameRanges.to_list s), last (FrameRanges.to_list s))
  /\ (forall frame lo hi,
        frame ∈ FrameRanges.to_list s ->
        FrameRanges.limits s = (Some lo, Some hi) ->
        lo <= frame <= hi).
Proof.
  intros Hv. rewrite to_list_frames_of.
  destruct (frames_of_head_last _ 0 Hv) as [Hh Hl].
  assert (Hlim : FrameRanges.limits s
                 = (head (frames_of (FrameRanges.to_range_tuples s)),
                    last (frames_of (FrameRanges.to_range_tuples s)))).
  { rewrite Hh, Hl. unfold FrameRanges.limits, FrameRanges.__bool__,
      FrameRanges.to_range_tuples.
    destruct (FrameRanges._ranges s) as [|r rs] eqn:E; [done|].
    simpl negb. cbv iota. rewrite fmap_last. simpl head. done. }
  split; [exact Hlim|].
  intros frame lo hi Hin Hlohi. rewrite Hlim in Hlohi.
  injection Hlohi as Hlo Hhi.
  destruct (frames_of_increasing _ _ Hv) as [_ Hs].
  destruct (frames_of (FrameRanges.to_range_tuples s)) as [|x l] eqn:E;
    [done|].
  simpl in Hlo. injection Hlo as ->.
  apply StronglySorted_cons in Hs as [Hx Hs]. rewrite Forall_forall in Hx.
  assert (Hge : lo <= frame).
  { apply elem_of_cons in Hin as [->|Hin]; [lia|]. specialize (Hx _ Hin). lia. }
  split; [done|].
  apply last_Some in Hhi as [l' Hl'].
  assert (Hs' : StronglySorted Z.lt (l' ++ [hi])).
  { rewrite <- Hl'. apply StronglySorted_cons. by rewrite Forall_forall. }
  rewrite Hl' in Hin. apply elem_of_app in Hin as [Hin|Hin].
  - apply StronglySorted_app in Hs' as (Hlt & _ & _).
    assert (frame < hi); [|lia]. apply Hlt; [done|]. by apply list_elem_of_singleton.
  - apply list_elem_of_singleton in Hin. lia.
Qed.

Lemma FrameRanges_limits_to_list_witness :
  let s := FrameRanges.Build [range_of (2, 3); range_of (6, 6)] 0 false in
  FrameRanges.limits s
  = (head (FrameRanges.to_list s), last (FrameRanges.to_list s))
  /\ (forall frame lo hi,
        frame ∈ FrameRanges.to_list s ->
        FrameRanges.limits s = (Some lo, Some hi) ->
        lo <= frame <= hi).
Proof.
  apply (FrameRanges_limits_to_list
           (FrameRanges.Build [range_of (2, 3); range_of (6, 6)] 0 false)).
  reflexivity.
Defined.

(* ===================================================================== *)
(** * Further properties: traversal                                       *)
(* ===================================================================== *)

(** One call of [FrameRange.__next__] on a range with [1 <= first <= last]
    whose cursor is unstarted or on a frame. *)
Lemma FrameRange_next_spec (r : FrameRange.t) :
  1 <= FrameRange.first r -> FrameRange.first r <= FrameRange.last r ->
  cursor_ok r = true ->
  match FrameRange.__next__ r with
  | (r', Some frame) =>
      remaining_in r = frame :: remaining_in r'
      /\ FrameRange.limits r' = FrameRange.limits r
      /\ FrameRange._frame r' = frame
      /\ FrameRange.first r <= frame <= FrameRange.last r
      /\ cursor_ok r' = true
      /\ (frame = FrameRange.first r <-> cursor_unstarted r = true)
  | (r', None) =>
      remaining_in r = [] /\ r' = r /\ cursor_at_end r = true
  end.
Proof.
  destruct r as [f l c]. unfold cursor_ok, cursor_unstarted, cursor_at_end,
    FrameRange.__next__, remaining_in, FrameRange.to_list. simpl.
  intros H1 H2 Hc.
  destruct (Z.eqb_spec c (-1)) as [->|Hne]; simpl in *.
  - destruct (Z.ltb_spec f 0); [lia|].
    rewrite (range_cons f) by lia. repeat split; try lia; try done.
    all: try (apply orb_true_iff; right; apply andb_true_iff;
              split; apply Z.leb_le; lia).
  - apply andb_prop in Hc as [Hfc%Z.leb_le Hcl%Z.leb_le].
    destruct (Z.ltb_spec c 0); [lia|].
    destruct (Z.ltb_spec c l) as [Hlt|Hge]; simpl.
    + rewrite (range_cons (c + 1)) by lia.
      destruct (Z.eqb_spec c (-1)); [lia|].
      destruct (Z.ltb_spec (c + 1) 0); [lia|].
      repeat split; try lia; try done.
      all: try (apply orb_true_iff; right; apply andb_true_iff;
                split; apply Z.leb_le; lia).
    + assert (c = l) as -> by lia. rewrite range_nil by lia.
      repeat split; try done. apply Z.eqb_refl.
Qed.

Lemma remaining_in_unstarted (r : FrameRange.t) :
  cursor_unstarted r = true -> remaining_in r = FrameRange.to_list r.
Proof.
  unfold cursor_unstarted, remaining_in. intros ->%Z.eqb_eq. done.
Qed.

Lemma remaining_in_at_end (r : FrameRange.t) :
  1 <= FrameRange.first r -> FrameRange.first r <= FrameRange.last r ->
  cursor_at_end r = true -> remaining_in r = [].
Proof.
  unfold cursor_at_end, remaining_in. intros H1 H2 ->%Z.eqb_eq.
  destruct (Z.ltb_spec (FrameRange.last r) 0); [lia|]. apply range_nil. lia.
Qed.

Lemma cursor_unstarted_ok (r : FrameRange.t) :
  cursor_unstarted r = true -> cursor_ok r = true.
Proof. unfold cursor_unstarted, cursor_ok. by intros ->. Qed.

(** [next_loop] from a state that is [pre ++ post] with the cursor on the
    first range of [post]. *)
Lemma next_loop_spec (post : list FrameRange.t) :
  forall pre st fuel,
    Forall (fun r => 1 <= FrameRange.first r <= FrameRange.last r) post ->
    Forall (fun r => cursor_at_end r = true) pre ->
    match post with
    | [] => True
    | r :: rest =>
        cursor_ok r = true /\ Forall (fun r => cursor_unstarted r = true) rest
    end ->
    (length post <= fuel)%nat ->
    match FrameRanges.next_loop fuel
            (FrameRanges.Build (pre ++ post) (length pre) st) with
    | (s', Some frame) =>
        exists pre' r r' rest,
          pre ++ post = pre' ++ r :: rest
          /\ s' = FrameRanges.Build (pre' ++ r' :: rest) (length pre') st
          /\ Forall (fun r => cursor_at_end r = true) pre'
          /\ Forall (fun r => cursor_unstarted r = true) rest
          /\ FrameRange.limits r' = FrameRange.limits r
          /\ FrameRange._frame r' = frame
          /\ FrameRange.first r <= frame <= FrameRange.last r
          /\ cursor_ok r' = true
          /\ (frame = FrameRange.first r <-> cursor_unstarted r = true)
          /\ remaining_of post = frame :: remaining_of (r' :: rest)
    | (s', None) =>
        remaining_of post = []
        /\ s' = FrameRanges.Build (pre ++ post) (length (pre ++ post)) st
        /\ Forall (fun r => cursor_at_end r = true) (pre ++ post)
    end.
Proof.
  induction post as [|r rest IH]; intros pre st fuel Hok Hpre Hpost Hfuel.
  - destruct fuel; simpl;
      rewrite lookup_ge_None_2 by (rewrite length_app; simpl; lia);
      by rewrite app_nil_r.
  - apply Forall_cons in Hok as [[Hr1 Hr2] Hok]. destruct Hpost as [Hc Hrest].
    pose proof (FrameRange_next_spec r Hr1 Hr2 Hc) as Hn.
    assert (Hlk : (pre ++ r :: rest) !! length pre = Some r)
      by apply list_lookup_middle, eq_refl.
    destruct fuel as [|fuel]; [simpl in Hfuel; lia|].
    simpl FrameRanges.next_loop. simpl FrameRanges._ranges.
    simpl FrameRanges._idx. rewrite Hlk.
    destruct (FrameRange.__next__ r) as [r' [frame|]].
    + destruct Hn as (Hrem & Hlim & Hfr & Hin & Hc' & Hfirst).
      exists pre, r, r', rest. split; [done|]. split.
      { f_equal. rewrite insert_app_r_alt by lia.
        by replace (length pre - length pre)%nat with 0%nat by lia. }
      repeat split; try done; try tauto.
      simpl. by rewrite Hrem.
    + destruct Hn as (Hrem & -> & Hend).
      specialize (IH (pre ++ [r]) st fuel Hok).
      rewrite length_app in IH. simpl in IH.
      replace (length pre + 1)%nat with (S (length pre)) in IH by lia.
      rewrite <- app_assoc in IH. simpl in IH.
      assert (Hrem' : remaining_of (r :: rest) = remaining_of rest).
      { simpl. rewrite Hrem. simpl. destruct rest as [|r2 rest2]; [done|].
        simpl. apply Forall_cons in Hrest as [H2 _].
        by rewrite remaining_in_unstarted. }
      rewrite Hrem'. apply IH.
      * apply Forall_app. split; [done|]. by apply Forall_singleton.
      * destruct rest as [|r2 rest2]; [done|].
        apply Forall_cons in Hrest as [H2 Hrest].
        split; [by apply cursor_unstarted_ok|done].
      * simpl in Hfuel. lia.
Qed.

Lemma ranges_after_ok (tuples : list (Z * Z)) :
  forall e, 0 <= e -> FrameRanges.ranges_after e tuples = true ->
    Forall (fun t => 1 <= fst t <= snd t) tuples.
Proof.
  induction tuples as [|[f l] tl IH]; intros e He H; [constructor|].
  simpl in H. apply andb_prop in H as [H Htl]. apply andb_prop in H as [H1 H2].
  apply Z.ltb_lt in H1. apply Z.leb_le in H2.
  constructor; [simpl; lia|]. apply (IH l); [lia|done].
Qed.

Lemma valid_ranges_ok (rs : list FrameRange.t) :
  FrameRanges.ranges_after 0 (FrameRange.limits <$> rs) = true ->
  Forall (fun r => 1 <= FrameRange.first r <= FrameRange.last r) rs.
Proof.
  intros H%(ranges_after_ok _ 0); [|lia].
  apply Forall_fmap in H. eapply Forall_impl; [exact H|]. by intros r.
Qed.

Lemma forallb_Forall {A : Type} (p : A -> bool) (l : list A) :
  forallb p l = true <-> Forall (fun x => p x = true) l.
Proof. rewrite forallb_forall, Forall_forall. by setoid_rewrite list_elem_of_In. Qed.

(** A traversal state is [pre ++ post] with the cursor on the first range
    of [post]. *)
Lemma traversal_state_inv (s : FrameRanges.t) :
  traversal_state s = true ->
  exists pre post,
    s = FrameRanges.Build (pre ++ post) (length pre) (FrameRanges._started s)
    /\ FrameRanges.ranges_after 0 (FrameRange.limits <$> pre ++ post) = true
    /\ Forall (fun r => cursor_at_end r = true) pre
    /\ match post with
       | [] => True
       | r :: rest =>
           cursor_ok r = true /\ Forall (fun r => cursor_unstarted r = true) rest
       end.
Proof.
  destruct s as [rs idx st]. unfold traversal_state, FrameRanges.valid,
    FrameRanges.to_range_tuples. simpl.
  intros H. apply andb_prop in H as [H Hpost]. apply andb_prop in H as [H Hpre].
  apply andb_prop in H as [Hv Hidx]. apply Nat.leb_le in Hidx.
  exists (take idx rs), (drop idx rs). rewrite take_drop, length_take.
  split; [f_equal; lia|]. split; [done|].
  split; [by apply forallb_Forall|].
  destruct (drop idx rs) as [|r rest]; [done|].
  apply andb_prop in Hpost as [? ?]. split; [done|]. by apply forallb_Forall.
Qed.

Lemma traversal_state_intro (pre post : list FrameRange.t) (st : bool) :
  FrameRanges.ranges_after 0 (FrameRange.limits <$> pre ++ post) = true ->
  Forall (fun r => cursor_at_end r = true) pre ->
  match post with
  | [] => True
  | r :: rest =>
      cursor_ok r = true /\ Forall (fun r => cursor_unstarted r = true) rest
  end ->
  traversal_state (FrameRanges.Build (pre ++ post) (length pre) st) = true.
Proof.
  intros Hv Hpre Hpost. unfold traversal_state, FrameRanges.valid,
    FrameRanges.to_range_tuples. simpl.
  rewrite take_app_length, drop_app_length, Hv. simpl.
  rewrite (proj2 (forallb_Forall _ _) Hpre), andb_true_r.
  apply andb_true_intro. split; [apply Nat.leb_le; rewrite length_app; lia|].
  destruct post as [|r rest]; [done|]. destruct Hpost as [-> Hrest].
  by apply forallb_Forall.
Qed.

Lemma limits_middle (pre rest : list FrameRange.t) (r r' : FrameRange.t) :
  FrameRange.limits r' = FrameRange.limits r ->
  FrameRange.limits <$> pre ++ r' :: rest = FrameRange.limits <$> pre ++ r :: rest.
Proof. intros H. by rewrite !fmap_app, !fmap_cons, H. Qed.

(** One call of [FrameRanges.__next__] in a traversal state. *)
Lemma FrameRanges_next_spec (s : FrameRanges.t) :
  traversal_state s = true ->
  match FrameRanges.__next__ s with
  | (s', Some frame) =>
      traversal_state s' = true
      /\ FrameRanges.to_range_tuples s' = FrameRanges.to_range_tuples s
      /\ remaining s = frame :: remaining s'
      /\ FrameRanges._started s' = true
      /\ exists r', FrameRanges._ranges s' !! FrameRanges._idx s' = Some r'
           /\ FrameRange._frame r' = frame
           /\ FrameRange.first r' <= frame <= FrameRange.last r'
           /\ FrameRange.limits r' ∈ FrameRanges.to_range_tuples s
  | (s', None) =>
      traversal_state s' = true
      /\ FrameRanges.to_range_tuples s' = FrameRanges.to_range_tuples s
      /\ remaining s = [] /\ remaining s' = []
      /\ FrameRanges._started s' = true
      /\ FrameRanges._ranges s' !! FrameRanges._idx s' = None
  end.
Proof.
  intros (pre & post & -> & Hv & Hpre & Hpost)%traversal_state_inv.
  unfold FrameRanges.__next__, remaining. simpl.
  rewrite drop_app_length.
  pose proof (valid_ranges_ok _ Hv) as Hok. apply Forall_app in Hok as [_ Hok].
  pose proof (next_loop_spec post pre true (length (pre ++ post) - length pre)
                Hok Hpre Hpost) as Hn.
  destruct (FrameRanges.next_loop _ _) as [s' [frame|]].
  - destruct Hn as (pre' & r & r' & rest & Heq & -> & Hpre' & Hrest & Hlim
                     & Hfr & Hin & Hc' & _ & Hrem);
      [rewrite length_app; lia|].
    simpl. rewrite drop_app_length.
    unfold FrameRanges.to_range_tuples. simpl.
    rewrite Heq, (limits_middle _ _ _ _ Hlim).
    split.
    { apply traversal_state_intro; [|done..].
      by rewrite (limits_middle _ _ _ _ Hlim), <- Heq. }
    repeat split; try done.
    exists r'. split; [by apply list_lookup_middle|].
    assert (Hl : FrameRange.first r' = FrameRange.first r
                 /\ FrameRange.last r' = FrameRange.last r)
      by (unfold FrameRange.limits in Hlim; by inversion Hlim).
    destruct Hl as [-> ->]. repeat split; try done; try lia.
    rewrite Hlim, fmap_app, fmap_cons. apply elem_of_app. right. left.
  - destruct Hn as (Hrem & -> & Hend); [rewrite length_app; lia|].
    simpl. rewrite drop_all.
    split.
    { rewrite <- (app_nil_r (pre ++ post)) at 1.
      apply traversal_state_intro; [by rewrite app_nil_r|done..]. }
    repeat split; try done. by apply lookup_ge_None_2.
Qed.

Lemma unstarted_range_of (rest : list FrameRange.t) :
  Forall (fun r => cursor_unstarted r = true) rest ->
  rest = range_of <$> (FrameRange.limits <$> rest).
Proof.
  induction 1 as [|[f l c] rest Hc _ IH]; [done|].
  unfold cursor_unstarted in Hc. simpl in Hc. apply Z.eqb_eq in Hc as ->.
  rewrite !fmap_cons, <- IH. done.
Qed.

Lemma reset_traversal_state (s : FrameRanges.t) :
  traversal_state s = true ->
  FrameRanges.reset s
  = FrameRanges.Build (range_of <$> FrameRanges.to_range_tuples s) 0 false.
Proof.
  intros (pre & post & -> & _ & _ & Hpost)%traversal_state_inv.
  unfold FrameRanges.reset, FrameRanges.to_range_tuples. simpl. f_equal.
  destruct post as [|r rest].
  - rewrite app_nil_r, take_ge, drop_ge, app_nil_r by lia.
    by rewrite <- list_fmap_compose.
  - destruct Hpost as [_ Hrest].
    rewrite (cons_middle r pre rest), app_assoc.
    replace (S (length pre)) with (length (pre ++ [r]))
      by (rewrite length_app; simpl; lia).
    rewrite take_app_length, drop_app_length.
    rewrite (fmap_app _ (pre ++ [r]) rest), (fmap_app range_of).
    rewrite <- (unstarted_range_of rest Hrest).
    by rewrite <- list_fmap_compose.
Qed.

Lemma built_traversal_state (tuples : list (Z * Z)) (st : bool) :
  FrameRanges.ranges_after 0 tuples = true ->
  traversal_state (FrameRanges.Build (range_of <$> tuples) 0 st) = true
  /\ remaining (FrameRanges.Build (range_of <$> tuples) 0 st) = frames_of tuples.
Proof.
  intros Hv. split.
  - pose proof (traversal_state_intro [] (range_of <$> tuples) st) as H.
    simpl in H. apply H.
    + by rewrite fmap_limits_range_of.
    + constructor.
    + destruct tuples as [|t tl]; [done|]. split; [done|].
      apply Forall_fmap, Forall_true. done.
  - unfold remaining. simpl. destruct tuples as [|t tl]; [done|].
    simpl. unfold frames_of. rewrite fmap_cons. simpl.
    f_equal. f_equal. by rewrite <- list_fmap_compose.
Qed.

(** Calling [__next__] until it stops returns the remaining frames. *)
Lemma FrameRanges_drain (fuel : nat) :
  forall s, traversal_state s = true ->
    (length (remaining s) < fuel)%nat ->
    exists s',
      next_until_stop FrameRanges.__next__ fuel s = Some (s', remaining s)
      /\ traversal_state s' = true
      /\ FrameRanges.to_range_tuples s' = FrameRanges.to_range_tuples s
      /\ FrameRanges._started s' = true
      /\ FrameRanges._ranges s' !! FrameRanges._idx s' = None.
Proof.
  induction fuel as [|fuel IH]; intros s Hs Hlen; [lia|].
  simpl. pose proof (FrameRanges_next_spec s Hs) as Hn.
  destruct (FrameRanges.__next__ s) as [s1 [frame|]].
  - destruct Hn as (Hs1 & Ht & Hrem & _).
    rewrite Hrem in Hlen |- *. simpl in Hlen.
    destruct (IH s1 Hs1) as (s' & -> & ? & Ht' & ? & ?); [lia|].
    exists s'. repeat split; try done. by rewrite Ht'.
  - destruct Hn as (Hs1 & Ht & Hrem & _ & ? & ?).
    exists s1. rewrite Hrem. done.
Qed.

(** X5: iterating over an instance ([__iter__], then [__next__] until
    [StopIteration]) returns the frames of [to_list], in order, and leaves
    the ranges as they were.  This holds from every state that a
    traversal can be in, so also for a second traversal started in the
    middle of a first one.  [fuel] bounds the number of calls. *)
Theorem FrameRanges_traversal (s : FrameRanges.t) (fuel : nat) :
  traversal_state s = true ->
  (length (FrameRanges.to_list s) < fuel)%nat ->
  exists s',
    next_until_stop FrameRanges.__next__ fuel (FrameRanges.__iter__ s)
    = Some (s', FrameRanges.to_list s)
    /\ FrameRanges.to_range_tuples s' = FrameRanges.to_range_tuples s
    /\ traversal_state s' = true.
Proof.
  intros Hs Hlen. unfold FrameRanges.__iter__.
  rewrite (reset_traversal_state s Hs).
  assert (Hv : FrameRanges.ranges_after 0 (FrameRanges.to_range_tuples s) = true).
  { unfold traversal_state in Hs. apply andb_prop in Hs as [Hs _].
    apply andb_prop in Hs as [Hs _]. by apply andb_prop in Hs as [Hs _]. }
  destruct (built_traversal_state _ false Hv) as [Hb Hrem].
  rewrite to_list_frames_of in Hlen |- *. rewrite <- Hrem in Hlen |- *.
  destruct (FrameRanges_drain fuel _ Hb Hlen) as (s' & -> & ? & Ht & _).
  exists s'. repeat split; try done.
  rewrite Ht. unfold FrameRanges.to_range_tuples. simpl.
  apply fmap_limits_range_of.
Qed.

Lemma FrameRanges_traversal_witness :
  exists s',
    next_until_stop FrameRanges.__next__ 5
      (FrameRanges.__iter__
         (FrameRanges.Build
            [FrameRange.Build 1 2 2; FrameRange.Build 4 5 4] 1 true))
    = Some (s', [1; 2; 4; 5])
    /\ FrameRanges.to_range_tuples s' = [(1, 2); (4, 5)]
    /\ traversal_state s' = true.
Proof.
  apply (FrameRanges_traversal
           (FrameRanges.Build
              [FrameRange.Build 1 2 2; FrameRange.Build 4 5 4] 1 true) 5).
  - reflexivity.
  - simpl. lia.
Defined.

Lemma iter_next_traversal_state (n : nat) (s : FrameRanges.t) :
  traversal_state s = true ->
  traversal_state (Nat.iter n (fun x => fst (FrameRanges.__next__ x)) s) = true
  /\ FrameRanges.to_range_tuples
       (Nat.iter n (fun x => fst (FrameRanges.__next__ x)) s)
     = FrameRanges.to_range_tuples s.
Proof.
  intros Hs. induction n as [|n [IH1 IH2]]; [done|].
  simpl. pose proof (FrameRanges_next_spec _ IH1) as Hn.
  destruct (FrameRanges.__next__ _) as [s1 [frame|]]; simpl.
  - destruct Hn as (? & -> & _). done.
  - destruct Hn as (? & -> & _). done.
Qed.

(** X6: [reset] only rewinds the ranges up to the current one, which is
    enough: after any number of calls of [__next__] on an instance in a
    traversal state, and whether or not the traversal has ended, [reset]
    gives back the instance as its constructor builds it from the same
    ranges. *)
Theorem reset_after_next (s : FrameRanges.t) (n : nat) :
  traversal_state s = true ->
  FrameRanges.reset (Nat.iter n (fun x => fst (FrameRanges.__next__ x)) s)
  = FrameRanges.Build (range_of <$> FrameRanges.to_range_tuples s) 0 false
  /\ FrameRanges.__init__ (FrameRanges.to_range_tuples s)
     = Ok (FrameRanges.reset
             (Nat.iter n (fun x => fst (FrameRanges.__next__ x)) s)).
Proof.
  intros Hs. destruct (iter_next_traversal_state n s Hs) as [H1 H2].
  rewrite (reset_traversal_state _ H1), H2. split; [done|].
  apply (ingest_all _ [] 0%nat false); [done|].
  unfold traversal_state, FrameRanges.valid in Hs. apply andb_prop in Hs as [Hs _].
  apply andb_prop in Hs as [Hs _]. by apply andb_prop in Hs as [Hs _].
Qed.

Lemma reset_after_next_witness :
  FrameRanges.reset
    (Nat.iter 3 (fun x => fst (FrameRanges.__next__ x))
       (FrameRanges.Build [range_of (1, 2); range_of (4, 5)] 0 false))
  = FrameRanges.Build [range_of (1, 2); range_of (4, 5)] 0 false
  /\ FrameRanges.__init__ [(1, 2); (4, 5)]
     = Ok (FrameRanges.reset
             (Nat.iter 3 (fun x => fst (FrameRanges.__next__ x))
                (FrameRanges.Build [range_of (1, 2); range_of (4, 5)] 0 false))).
Proof.
  apply (reset_after_next
           (FrameRanges.Build [range_of (1, 2); range_of (4, 5)] 0 false) 3).
  reflexivity.
Defined.

(** X7: the properties [frame], [frame_range] and [is_new_frame_range]
    after a call of [__next__].  When the call returned a frame, [frame]
    is that frame, [frame_range] is the one of the instance's ranges that
    holds it, and [is_new_frame_range] tells whether the frame is the
    first of that range.  When the call raised [StopIteration], the three
    properties raise [IndexError]: the index is past the last range. *)
Theorem properties_after_next (s : FrameRanges.t) :
  traversal_state s = true ->
  match FrameRanges.__next__ s with
  | (s', Some frame) =>
      FrameRanges.frame s' = Ok frame
      /\ exists first last,
           FrameRanges.frame_range s' = Ok (first, last)
           /\ (first, last) ∈ FrameRanges.to_range_tuples s
           /\ first <= frame <= last
           /\ FrameRanges.is_new_frame_range s' = Ok (frame =? first)
  | (s', None) =>
      FrameRanges.frame s' = Raise IndexError
      /\ FrameRanges.frame_range s' = Raise IndexError
      /\ FrameRanges.is_new_frame_range s' = Raise IndexError
  end.
Proof.
  intros Hs. pose proof (FrameRanges_next_spec s Hs) as Hn.
  assert (Hv : Forall (fun t => 1 <= fst t <= snd t) (FrameRanges.to_range_tuples s)).
  { unfold traversal_state, FrameRanges.valid in Hs.
    apply andb_prop in Hs as [Hs _]. apply andb_prop in Hs as [Hs _].
    apply andb_prop in Hs as [Hs _]. by apply (ranges_after_ok _ 0). }
  destruct (FrameRanges.__next__ s) as [s' [frame|]].
  - destruct Hn as (_ & _ & _ & Hst & r' & Hlk & Hfr & Hin & Hel).
    unfold FrameRanges.frame, FrameRanges.frame_range,
      FrameRanges.is_new_frame_range, FrameRanges.current_range.
    rewrite Hst, Hlk. simpl.
    rewrite Forall_forall in Hv. specialize (Hv _ Hel). simpl in Hv.
    unfold FrameRange.frame, FrameRange.is_first_frame. rewrite Hfr.
    destruct (Z.ltb_spec frame 0); [lia|]. split; [done|].
    exists (FrameRange.first r'), (FrameRange.last r'). done.
  - destruct Hn as (_ & _ & _ & _ & Hst & Hlk).
    unfold FrameRanges.frame, FrameRanges.frame_range,
      FrameRanges.is_new_frame_range, FrameRanges.current_range.
    by rewrite Hst, Hlk.
Qed.

Lemma properties_after_next_witness :
  match FrameRanges.__next__
          (FrameRanges.Build
             [FrameRange.Build 1 2 2; FrameRange.Build 4 5 (-1)] 0 true) with
  | (s', Some frame) =>
      FrameRanges.frame s' = Ok frame
      /\ exists first last,
           FrameRanges.frame_range s' = Ok (first, last)
           /\ (first, last) ∈ [(1, 2); (4, 5)]
           /\ first <= frame <= last
           /\ FrameRanges.is_new_frame_range s' = Ok (frame =? first)
  | (s', None) =>
      FrameRanges.frame s' = Raise IndexError
      /\ FrameRanges.frame_range s' = Raise IndexError
      /\ FrameRanges.is_new_frame_range s' = Raise IndexError
  end.
Proof.
  apply (properties_after_next
           (FrameRanges.Build
              [FrameRange.Build 1 2 2; FrameRange.Build 4 5 (-1)] 0 true)).
  reflexivity.
Defined.

Lemma FrameRange_drain (fuel : nat) :
  forall r, 1 <= FrameRange.first r -> FrameRange.first r <= FrameRange.last r ->
    cursor_ok r = true ->
    (length (remaining_in r) < fuel)%nat ->
    next_until_stop FrameRange.__next__ fuel r
    = Some (FrameRange.Build (FrameRange.first r) (FrameRange.last r)
              (FrameRange.last r), remaining_in r).
Proof.
  induction fuel as [|fuel IH]; intros r H1 H2 Hc Hlen; [lia|].
  simpl. pose proof (FrameRange_next_spec r H1 H2 Hc) as Hn.
  destruct (FrameRange.__next__ r) as [r' [frame|]].
  - destruct Hn as (Hrem & Hlim & _ & _ & Hc' & _).
    assert (Hl : FrameRange.first r' = FrameRange.first r
                 /\ FrameRange.last r' = FrameRange.last r)
      by (unfold FrameRange.limits in Hlim; by inversion Hlim).
    destruct Hl as [Hf Hl].
    rewrite Hrem in Hlen |- *. simpl in Hlen.
    rewrite IH; rewrite ?Hf, ?Hl; try done. lia.
  - destruct Hn as (-> & -> & Hend). unfold cursor_at_end in Hend.
    apply Z.eqb_eq in Hend. destruct r as [f l c]. simpl in *. by subst.
Qed.

(** X8: iterating over a [FrameRange] with [1 <= first <= last]
    ([__iter__], then [__next__] until [StopIteration]) returns the frames
    of [to_list], [first], ..., [last], wherever its cursor stood before;
    afterwards [frame] is [last]. *)
Theorem FrameRange_traversal (r : FrameRange.t) (fuel : nat) :
  1 <= FrameRange.first r -> FrameRange.first r <= FrameRange.last r ->
  (length (FrameRange.to_list r) < fuel)%nat ->
  exists r',
    next_until_stop FrameRange.__next__ fuel (FrameRange.__iter__ r)
    = Some (r', FrameRange.to_list r)
    /\ FrameRange.limits r' = FrameRange.limits r
    /\ FrameRange.frame r' = FrameRange.last r.
Proof.
  intros H1 H2 Hlen.
  exists (FrameRange.Build (FrameRange.first r) (FrameRange.last r)
            (FrameRange.last r)).
  split.
  - unfold FrameRange.__iter__.
    rewrite (FrameRange_drain fuel (FrameRange.reset r)); done.
  - split; [done|]. unfold FrameRange.frame. simpl.
    destruct (Z.ltb_spec (FrameRange.last r) 0); [lia|done].
Qed.

Lemma FrameRange_traversal_witness :
  exists r',
    next_until_stop FrameRange.__next__ 4
      (FrameRange.__iter__ (FrameRange.Build 3 5 4))
    = Some (r', [3; 4; 5])
    /\ FrameRange.limits r' = (3, 5)
    /\ FrameRange.frame r' = 5.
Proof.
  apply (FrameRange_traversal (FrameRange.Build 3 5 4) 4);
    simpl; lia.
Defined.

(* ===================================================================== *)
(** * Further properties: [from_iterable]                                 *)
(* ===================================================================== *)

Lemma sorted_Permutation (l1 l2 : list Z) : l1 ≡ₚ l2 -> sorted l1 = sorted l2.
Proof.
  intros Hp. unfold sorted. apply (StronglySorted_unique Z.le).
  - apply StronglySorted_merge_sort; apply _.
  - apply StronglySorted_merge_sort; apply _.
  - by rewrite !merge_sort_Permutation.
Qed.

(** X9: the order of the frames given to [from_iterable] does not matter,
    for [FrameRanges] and for [FrameRange], also when they raise. *)
Theorem from_iterable_any_order (frames1 frames2 : list Z) :
  frames1 ≡ₚ frames2 ->
  FrameRanges.from_iterable frames1 = FrameRanges.from_iterable frames2
  /\ FrameRange_from_iterable frames1 = FrameRange_from_iterable frames2.
Proof.
  intros Hp. unfold FrameRanges.from_iterable, FrameRange_from_iterable,
    _iterable_to_ranges. by rewrite (sorted_Permutation _ _ Hp).
Qed.

Lemma from_iterable_any_order_witness :
  FrameRanges.from_iterable [3; 1; 2; 7] = FrameRanges.from_iterable [7; 2; 1; 3]
  /\ FrameRange_from_iterable [3; 1; 2; 7] = FrameRange_from_iterable [7; 2; 1; 3].
Proof.
  apply (from_iterable_any_order [3; 1; 2; 7] [7; 2; 1; 3]).
  change [3; 1; 2; 7] with ([3; 1; 2] ++ [7]).
  rewrite (Permutation_app_comm [3; 1; 2] [7]). simpl.
  apply perm_skip.
  change [3; 1; 2] with ([3; 1] ++ [2]).
  rewrite (Permutation_app_comm [3; 1] [2]). simpl.
  apply perm_skip. apply perm_swap.
Defined.

(** The tuples of [_iterable_to_ranges] describe the values it was given. *)
Lemma frames_of_loop (vals : list Z) :
  forall first last, first <= last ->
    frames_of (_iterable_to_ranges_loop first last vals)
    = range first (last + 1) ++ vals.
Proof.
  induction vals as [|val tl IH]; intros first last Hfl; simpl.
  - unfold frames_of. simpl. by rewrite !app_nil_r.
  - destruct (Z.eqb_spec val (last + 1)) as [->|Hne].
    + rewrite IH by lia. rewrite (range_snoc first (last + 1)) by lia.
      by rewrite <- app_assoc.
    + rewrite frames_of_cons, IH by lia. simpl.
      rewrite (range_cons val) by lia. by rewrite (range_nil (val + 1)) by lia.
Qed.

Lemma frames_of_iterable_to_ranges (frames : list Z) :
  frames_of (_iterable_to_ranges frames) = sorted frames.
Proof.
  unfold _iterable_to_ranges. destruct (sorted frames) as [|v0 tl]; [done|].
  rewrite frames_of_loop by lia.
  rewrite (range_cons v0) by lia. by rewrite (range_nil (v0 + 1)) by lia.
Qed.

Lemma loop_tuples_ok (vals : list Z) :
  forall first last, 1 <= first -> first <= last ->
    Forall (fun v => 1 <= v) vals ->
    Forall (fun t => 1 <= fst t <= snd t)
      (_iterable_to_ranges_loop first last vals).
Proof.
  induction vals as [|val tl IH]; intros first last H1 H2 Hv; simpl.
  - constructor; [simpl; lia|constructor].
  - apply Forall_cons in Hv as [Hval Hv].
    destruct (Z.eqb_spec val (last + 1)).
    + apply IH; [lia|lia|done].
    + constructor; [simpl; lia|]. apply IH; [lia|lia|done].
Qed.

Lemma loop_head (vals : list Z) :
  forall first last, exists l rest,
    _iterable_to_ranges_loop first last vals = (first, l) :: rest.
Proof.
  induction vals as [|val tl IH]; intros first last; simpl; [eauto|].
  destruct (val =? last + 1); [apply IH|eauto].
Qed.

(** When every tuple is a range, the only error is that of a range that
    does not lie after the one before it. *)
Lemma ingest_error (tuples : list (Z * Z)) :
  forall rs idx st,
    0 <= end_of rs ->
    Forall (fun t => 1 <= fst t <= snd t) tuples ->
    FrameRanges.ranges_after (end_of rs) tuples = false ->
    for_each FrameRanges.add_range tuples (FrameRanges.Build rs idx st)
    = Raise FrameRangesError.
Proof.
  induction tuples as [|[f l] tl IH]; intros rs idx st He Hok Hv; [done|].
  apply Forall_cons in Hok as [[Hf Hl] Hok]. simpl in Hf, Hl.
  simpl in Hv. simpl for_each.
  unfold FrameRanges.add_range at 1. unfold FrameRanges._ingest_range.
  rewrite FrameRanges_limits_end. unfold end_of in He, Hv.
  simpl. destruct (list.last rs) as [r|] eqn:Hlast; simpl in He, Hv |- *.
  - destruct (Z.leb_spec f (FrameRange.last r)); [done|].
    rewrite FrameRange_init_Ok by lia. simpl.
    apply IH; rewrite ?end_of_snoc; simpl; [lia|done|].
    destruct (Z.ltb_spec (FrameRange.last r) f); [|lia].
    destruct (Z.leb_spec f l); [|lia]. done.
  - rewrite FrameRange_init_Ok by lia. simpl.
    apply IH; rewrite ?end_of_snoc; simpl; [lia|done|].
    destruct (Z.ltb_spec 0 f); [|lia].
    destruct (Z.leb_spec f l); [|lia]. done.
Qed.

Lemma sorted_head_min (frames : list Z) (v0 x : Z) (tl : list Z) :
  sorted frames = v0 :: tl -> x ∈ frames -> v0 <= x.
Proof.
  intros Hs Hx.
  assert (Hss : StronglySorted Z.le (sorted frames))
    by (apply StronglySorted_merge_sort; apply _).
  apply elem_of_sorted in Hx. rewrite Hs in Hss, Hx.
  apply StronglySorted_cons in Hss as [Hall _].
  apply elem_of_cons in Hx as [->|Hx]; [lia|].
  rewrite Forall_forall in Hall. by apply Hall.
Qed.

(** A frame below 1 reaches the constructor of [FrameRange] first. *)
Lemma from_iterable_below_1 (frames : list Z) (x : Z) :
  x ∈ frames -> x < 1 ->
  FrameRanges.from_iterable frames = Raise FrameRangeError.
Proof.
  intros Hx Hlt.
  unfold FrameRanges.from_iterable, FrameRanges.__init__, _iterable_to_ranges.
  destruct (sorted frames) as [|v0 tl] eqn:Es.
  { apply elem_of_sorted in Hx. rewrite Es in Hx. by apply elem_of_nil in Hx. }
  pose proof (sorted_head_min _ _ _ _ Es Hx) as Hmin.
  destruct (loop_head tl v0 v0) as (l & rest & ->).
  simpl. unfold FrameRanges._ingest_range at 1. simpl.
  by rewrite FrameRange_init_Raise by lia.
Qed.

(** What [from_iterable] builds when it does not raise. *)
Lemma from_iterable_built (frames : list Z) :
  match FrameRanges.from_iterable frames with
  | Ok s =>
      s = FrameRanges.Build (range_of <$> _iterable_to_ranges frames) 0 false
      /\ FrameRanges.ranges_after 0 (_iterable_to_ranges frames) = true
  | Raise _ => FrameRanges.ranges_after 0 (_iterable_to_ranges frames) = false
  end.
Proof.
  unfold FrameRanges.from_iterable, FrameRanges.__init__, FrameRanges.empty.
  pose proof (ingest_outcome (_iterable_to_ranges frames) [] 0%nat false) as Ho.
  change (for_each FrameRanges._ingest_range) with (for_each FrameRanges.add_range).
  destruct (for_each FrameRanges.add_range _ _) as [s|e].
  - by destruct Ho as [Hv ->].
  - by destruct Ho as [Hv _].
Qed.

(** Frames that are all at least 1 only fail by repeating. *)
Lemma from_iterable_repeats (frames : list Z) :
  Forall (fun x => 1 <= x) frames -> ~ NoDup frames ->
  FrameRanges.from_iterable frames = Raise FrameRangesError.
Proof.
  intros Hpos Hnd.
  pose proof (from_iterable_built frames) as Hb.
  pose proof (frames_of_iterable_to_ranges frames) as Hfr.
  destruct (FrameRanges.from_iterable frames) as [s|e] eqn:E.
  - destruct Hb as [_ Hv]. exfalso. apply Hnd.
    destruct (frames_of_increasing _ _ Hv) as [_ Hs]. rewrite Hfr in Hs.
    apply increasing_NoDup in Hs. unfold sorted in Hs.
    by rewrite merge_sort_Permutation in Hs.
  - rewrite <- E.
    unfold FrameRanges.from_iterable, FrameRanges.__init__, FrameRanges.empty.
    apply (ingest_error _ [] 0%nat false); [done| |done].
    unfold _iterable_to_ranges.
    destruct (sorted frames) as [|v0 tl] eqn:Es; [constructor|].
    assert (Hpos' : Forall (fun x => 1 <= x) (v0 :: tl)).
    { rewrite <- Es. unfold sorted. by rewrite merge_sort_Permutation. }
    apply Forall_cons in Hpos' as [Hv0 Htl]. simpl in Hv0.
    apply loop_tuples_ok; [lia|lia|done].
Qed.

(** X10: what [FrameRanges.from_iterable] does with any list of integers.
    It returns an instance exactly when the frames are distinct and all at
    least 1; the instance is then valid and [to_list] gives the frames in
    increasing order.  A frame below 1 makes it raise [FrameRangeError]
    (whether or not frames repeat); frames that are all at least 1 but
    repeat make it raise [FrameRangesError]. *)
Theorem from_iterable_outcome (frames : list Z) :
  match FrameRanges.from_iterable frames with
  | Ok s =>
      NoDup frames /\ Forall (fun x => 1 <= x) frames
      /\ FrameRanges.valid s = true
      /\ FrameRanges.to_list s = sorted frames
      /\ FrameRanges._idx s = 0%nat /\ FrameRanges._started s = false
  | Raise e =>
      (e = FrameRangeError /\ exists x, x ∈ frames /\ x < 1)
      \/ (e = FrameRangesError /\ Forall (fun x => 1 <= x) frames
          /\ ~ NoDup frames)
  end.
Proof.
  pose proof (from_iterable_built frames) as Hb.
  destruct (decide (Forall (fun x => 1 <= x) frames)) as [Hpos|Hneg].
  - destruct (decide (NoDup frames)) as [Hnd|Hnd].
    + destruct (from_iterable_spec frames Hnd Hpos) as (r & Hr & Hv & Hl).
      rewrite Hr in Hb |- *. destruct Hb as [Hb _].
      repeat split; try done; by rewrite Hb.
    + rewrite (from_iterable_repeats frames Hpos Hnd). by right.
  - apply not_Forall_Exists in Hneg; [|apply _].
    apply Exists_exists in Hneg as (x & Hx & Hlt). simpl in Hlt.
    rewrite (from_iterable_below_1 frames x Hx ltac:(lia)).
    left. split; [done|]. exists x. split; [done|lia].
Qed.

(** [_iterable_to_ranges]'s loop ends with one tuple exactly when the
    values continue the running range without a gap. *)
Lemma loop_single (vals : list Z) :
  forall first last f l,
    _iterable_to_ranges_loop first last vals = [(f, l)]
    <-> f = first /\ last <= l /\ vals = range (last + 1) (l + 1).
Proof.
  induction vals as [|val tl IH]; intros first last f l; simpl.
  - split.
    + intros [= <- <-]. by rewrite range_nil by lia.
    + intros (-> & Hl & Hr). destruct (decide (last = l)) as [->|Hne]; [done|].
      rewrite range_cons in Hr by lia. done.
  - destruct (Z.eqb_spec val (last + 1)) as [->|Hne].
    + rewrite IH. split.
      * intros (-> & Hl & ->). split; [done|]. split; [lia|].
        by rewrite (range_cons (last + 1)) by lia.
      * intros (-> & Hl & Hr).
        destruct (decide (last = l)) as [->|Hne].
        { rewrite range_nil in Hr by lia. done. }
        rewrite (range_cons (last + 1)) in Hr by lia.
        injection Hr as ->. split; [done|]. split; [lia|done].
    + split.
      * destruct (loop_head tl val val) as (l' & rest & ->). done.
      * intros (-> & Hl & Hr).
        destruct (decide (last = l)) as [->|Hne'].
        { rewrite range_nil in Hr by lia. done. }
        rewrite (range_cons (last + 1)) in Hr by lia. congruence.
Qed.

(** X11: [FrameRange.from_iterable] returns a range exactly when the
    frames are, in some order, the consecutive integers [first], ...,
    [last] for some [1 <= first <= last], and then returns that range;
    for every other list (empty, with a gap, with a repeated frame, or
    with a frame below 1) it raises [FrameRangeError]. *)
Theorem FrameRange_from_iterable_outcome (frames : list Z) :
  match FrameRange_from_iterable frames with
  | Ok r =>
      1 <= FrameRange.first r <= FrameRange.last r
      /\ FrameRange._frame r = -1
      /\ sorted frames = FrameRange.to_list r
  | Raise e =>
      e = FrameRangeError
      /\ ~ exists first last,
             1 <= first <= last /\ frames ≡ₚ range first (last + 1)
  end.
Proof.
  unfold FrameRange_from_iterable, _iterable_to_ranges.
  destruct (FrameRange_from_iterable frames) as [r|e] eqn:E;
    unfold FrameRange_from_iterable, _iterable_to_ranges in E; rewrite E.
  - destruct (sorted frames) as [|v0 tl] eqn:Es; [done|].
    destruct (_iterable_to_ranges_loop v0 v0 tl) as [|[f l] [|? ?]] eqn:El;
      try done.
    apply loop_single in El as (-> & Hl & ->).
    unfold FrameRange.__init__, FrameRange._validate_range in E.
    destruct (Z.ltb_spec v0 1); [done|].
    destruct (Z.ltb_spec l v0); [done|]. simpl in E. injection E as <-.
    simpl. split; [lia|]. split; [done|].
    unfold FrameRange.to_list. simpl. by rewrite (range_cons v0) by lia.
  - split.
    { destruct (sorted frames) as [|v0 tl]; [congruence|].
      destruct (_iterable_to_ranges_loop v0 v0 tl) as [|[f l] [|? ?]];
        try congruence.
      unfold FrameRange.__init__, FrameRange._validate_range in E.
      repeat case_match; simpl in E; congruence. }
    intros (first & last & Hfl & Hp).
    apply sorted_Permutation in Hp.
    rewrite (sorted_increasing (range first (last + 1))) in Hp
      by apply range_increasing.
    rewrite Hp, (range_cons first) in E by lia.
    rewrite (proj2 (loop_single _ first first first last)) in E
      by (split; [done|split; [lia|done]]).
    rewrite FrameRange_init_Ok in E by lia. done.
Qed.

(* ===================================================================== *)
(** * Further properties: [simplify]                                      *)
(* ===================================================================== *)

Lemma loop_range (n : nat) :
  forall first last l rest,
    l - last = Z.of_nat n ->
    _iterable_to_ranges_loop first last (range (last + 1) (l + 1) ++ rest)
    = _iterable_to_ranges_loop first l rest.
Proof.
  induction n as [|n IH]; intros first last l rest Hn.
  - assert (l = last) as -> by lia. by rewrite range_nil by lia.
  - rewrite (range_cons (last + 1)) by lia. simpl.
    rewrite Z.eqb_refl. apply IH. lia.
Qed.

(** On the frames of ranges that respect the invariant,
    [_iterable_to_ranges] computes what [simplify]'s loop computes on the
    ranges. *)
Lemma loop_frames_of (tl : list (Z * Z)) :
  forall first l,
    FrameRanges.ranges_after l tl = true ->
    _iterable_to_ranges_loop first l (frames_of tl) = merge_into (first, l) tl.
Proof.
  induction tl as [|[nf nl] tl IH]; intros first l Hv; [done|].
  simpl in Hv. apply andb_prop in Hv as [[H1%Z.ltb_lt H2%Z.leb_le]%andb_prop Hv].
  rewrite frames_of_cons. simpl fst; simpl snd.
  rewrite (range_cons nf) by lia. simpl.
  destruct (Z.eqb_spec nf (l + 1)) as [->|Hne].
  - destruct (Z.leb_spec (l + 1) (l + 1)); [|lia].
    rewrite (loop_range (Z.to_nat (nl - (l + 1)))) by lia. by apply IH.
  - destruct (Z.leb_spec nf (l + 1)); [lia|].
    rewrite (loop_range (Z.to_nat (nl - nf))) by lia. f_equal. by apply IH.
Qed.

Lemma iterable_to_ranges_frames_of (tuples : list (Z * Z)) (e : Z) :
  FrameRanges.ranges_after e tuples = true ->
  _iterable_to_ranges (frames_of tuples) = FrameRanges.merge_adjacent tuples.
Proof.
  intros Hv. unfold _iterable_to_ranges.
  rewrite sorted_increasing by (by apply (frames_of_increasing _ e)).
  destruct tuples as [|[f l] tl]; [done|].
  simpl in Hv. apply andb_prop in Hv as [[H1%Z.ltb_lt H2%Z.leb_le]%andb_prop Hv].
  rewrite frames_of_cons, merge_adjacent_merge_into. simpl fst; simpl snd.
  rewrite (range_cons f) by lia. simpl.
  rewrite (loop_range (Z.to_nat (l - f))) by lia. by apply loop_frames_of.
Qed.

Lemma frames_of_merge_into (tl : list (Z * Z)) :
  forall f l,
    f <= l -> FrameRanges.ranges_after l tl = true ->
    frames_of (merge_into (f, l) tl) = frames_of ((f, l) :: tl).
Proof.
  intros f l Hfl Hv. rewrite <- loop_frames_of by done.
  rewrite frames_of_loop by done. by rewrite frames_of_cons.
Qed.

Lemma separated_no_merge (rest : list (Z * Z)) :
  forall q, has_merge (snd q) rest = false -> separated (q :: rest) = true.
Proof.
  induction rest as [|n rest IH]; intros q; [done|].
  simpl has_merge. intros [H1 H2]%orb_false_elim.
  change (separated (q :: n :: rest))
    with ((snd q + 1 <? fst n) && separated (n :: rest)).
  rewrite IH by done. apply Z.leb_gt in H1.
  destruct (Z.ltb_spec (snd q + 1) (fst n)); [done|lia].
Qed.

Lemma length_merge_into (tl : list (Z * Z)) :
  forall p, (length (merge_into p tl) <= S (length tl))%nat.
Proof.
  induction tl as [|n tl IH]; intros p; simpl; [lia|].
  destruct (_ <=? _); [specialize (IH (fst p, snd n)) | specialize (IH n)];
    simpl; lia.
Qed.

(** What [simplify] returns on a valid instance. *)
Lemma simplify_outcome (s : FrameRanges.t) :
  FrameRanges.valid s = true ->
  exists r,
    FrameRanges.simplify s = Ok r
    /\ FrameRanges.to_range_tuples r
       = FrameRanges.merge_adjacent (FrameRanges.to_range_tuples s)
    /\ FrameRanges.valid r = true
    /\ separated (FrameRanges.to_range_tuples r) = true
    /\ FrameRanges.to_list r = FrameRanges.to_list s.
Proof.
  unfold FrameRanges.valid. intros Hv.
  unfold FrameRanges.simplify.
  setoid_rewrite to_list_frames_of.
  destruct (FrameRanges._ranges s) as [|r0 tl] eqn:Hrs.
  { exists s. unfold FrameRanges.to_range_tuples in *. rewrite Hrs in *. done. }
  pose proof (to_range_tuples_reset s) as Hreset.
  unfold FrameRanges.to_range_tuples in *. rewrite Hrs in *.
  rewrite simplify_loop_spec. simpl app. simpl orb.
  rewrite fmap_cons, merge_adjacent_merge_into.
  rewrite fmap_cons in Hv. simpl in Hv.
  apply andb_prop in Hv as [[H1%Z.ltb_lt H2%Z.leb_le]%andb_prop Hv].
  destruct (merge_into_valid _ _ _ 0 H1 H2 Hv) as (q & rest & Hq & Hvq & Hnq).
  change (FrameRange.limits r0) with (FrameRange.first r0, FrameRange.last r0).
  change (snd (FrameRange.first r0, FrameRange.last r0)) with (FrameRange.last r0).
  destruct (has_merge (FrameRange.last r0) _) eqn:Hm; simpl negb; cbv iota.
  - rewrite Hq, clear_empty. unfold FrameRanges.empty.
    rewrite ingest_all by done.
    exists (FrameRanges.Build ([] ++ (range_of <$> q :: rest)) 0 false).
    split; [done|]. cbn [FrameRanges._ranges app].
    rewrite fmap_limits_range_of.
    split; [done|]. split; [done|]. split; [by apply separated_no_merge|].
    rewrite <- Hq. by apply frames_of_merge_into.
  - exists (FrameRanges.reset s). split; [done|]. rewrite Hreset.
    rewrite fmap_cons.
    change (FrameRange.limits r0) with (FrameRange.first r0, FrameRange.last r0).
    rewrite merge_into_no_merge by done.
    split; [done|]. split.
    { simpl. destruct (Z.ltb_spec 0 (FrameRange.first r0)); [|lia].
      destruct (Z.leb_spec (FrameRange.first r0) (FrameRange.last r0)); [|lia].
      done. }
    split; [|done].
    rewrite <- (merge_into_no_merge _ (FrameRange.first r0, FrameRange.last r0) Hm).
    rewrite Hq. apply separated_no_merge. done.
Qed.

(** X12: on a valid instance [simplify] never raises and keeps the frames:
    the result is valid, [to_list] is unchanged, no two neighbouring
    ranges of the result touch or overlap, and it has no more ranges than
    before. *)
Theorem simplify_keeps_frames (s : FrameRanges.t) :
  FrameRanges.valid s = true ->
  exists r,
    FrameRanges.simplify s = Ok r
    /\ FrameRanges.valid r = true
    /\ FrameRanges.to_list r = FrameRanges.to_list s
    /\ separated (FrameRanges.to_range_tuples r) = true
    /\ (FrameRanges.num_ranges r <= FrameRanges.num_ranges s)%nat.
Proof.
  intros Hv. destruct (simplify_outcome s Hv) as (r & Hr & Ht & Hvr & Hsep & Hl).
  exists r. repeat split; try done.
  unfold FrameRanges.num_ranges.
  rewrite <- (length_fmap FrameRange.limits (FrameRanges._ranges r)).
  rewrite <- (length_fmap FrameRange.limits (FrameRanges._ranges s)).
  unfold FrameRanges.to_range_tuples in Ht. rewrite Ht.
  destruct (FrameRange.limits <$> FrameRanges._ranges s) as [|p tl]; [done|].
  rewrite merge_adjacent_merge_into. apply length_merge_into.
Qed.

Lemma simplify_keeps_frames_witness :
  exists r,
    let s := FrameRanges.Build
               [range_of (1, 2); range_of (3, 4); range_of (6, 8)] 1 true in
    FrameRanges.simplify s = Ok r
    /\ FrameRanges.valid r = true
    /\ FrameRanges.to_list r = FrameRanges.to_list s
    /\ separated (FrameRanges.to_range_tuples r) = true
    /\ (FrameRanges.num_ranges r <= FrameRanges.num_ranges s)%nat.
Proof.
  apply (simplify_keeps_frames
           (FrameRanges.Build
              [range_of (1, 2); range_of (3, 4); range_of (6, 8)] 1 true)).
  reflexivity.
Defined.

(** X13: the ranges that [simplify] leaves are determined by the frames
    alone: they are the ranges that [from_iterable] builds from
    [to_list].  So two valid instances that describe the same frames have
    the same ranges after [simplify]. *)
Theorem simplify_canonical (s1 s2 : FrameRanges.t) :
  FrameRanges.valid s1 = true -> FrameRanges.valid s2 = true ->
  exists r1 b1,
    FrameRanges.simplify s1 = Ok r1
    /\ FrameRanges.from_iterable (FrameRanges.to_list s1) = Ok b1
    /\ FrameRanges.to_range_tuples r1 = FrameRanges.to_range_tuples b1
    /\ (FrameRanges.to_list s1 = FrameRanges.to_list s2 ->
        exists r2, FrameRanges.simplify s2 = Ok r2
          /\ FrameRanges.to_range_tuples r2 = FrameRanges.to_range_tuples r1).
Proof.
  intros Hv1 Hv2.
  destruct (simplify_outcome s1 Hv1) as (r1 & Hr1 & Ht1 & Hvr1 & _ & _).
  destruct (simplify_outcome s2 Hv2) as (r2 & Hr2 & Ht2 & _ & _ & _).
  assert (Hb : forall s, FrameRanges.valid s = true ->
            _iterable_to_ranges (FrameRanges.to_list s)
            = FrameRanges.merge_adjacent (FrameRanges.to_range_tuples s)).
  { intros s Hv. rewrite to_list_frames_of.
    by apply (iterable_to_ranges_frames_of _ 0). }
  exists r1, (FrameRanges.Build (range_of <$> FrameRanges.to_range_tuples r1) 0 false).
  split; [done|]. split.
  - unfold FrameRanges.from_iterable, FrameRanges.__init__, FrameRanges.empty.
    rewrite (Hb s1 Hv1), <- Ht1.
    by apply (ingest_all _ [] 0%nat false).
  - split.
    + unfold FrameRanges.to_range_tuples at 2. simpl.
      by rewrite fmap_limits_range_of.
    + intros Heq. exists r2. split; [done|].
      by rewrite Ht1, Ht2, <- (Hb s1 Hv1), <- (Hb s2 Hv2), Heq.
Qed.

Lemma simplify_canonical_witness :
  exists r1 b1,
    let s1 := FrameRanges.Build [range_of (1, 2); range_of (3, 4)] 1 true in
    let s2 := FrameRanges.Build [range_of (1, 1); range_of (2, 4)] 0 false in
    FrameRanges.simplify s1 = Ok r1
    /\ FrameRanges.from_iterable (FrameRanges.to_list s1) = Ok b1
    /\ FrameRanges.to_range_tuples r1 = FrameRanges.to_range_tuples b1
    /\ (FrameRanges.to_list s1 = FrameRanges.to_list s2 ->
        exists r2, FrameRanges.simplify s2 = Ok r2
          /\ FrameRanges.to_range_tuples r2 = FrameRanges.to_range_tuples r1).
Proof.
  apply (simplify_canonical
           (FrameRanges.Build [range_of (1, 2); range_of (3, 4)] 1 true)
           (FrameRanges.Build [range_of (1, 1); range_of (2, 4)] 0 false));
    reflexivity.
Defined.

(** X14: after [simplify], [is_contiguous] tells whether the frames are
    one run of consecutive integers: it is true exactly when the frames of
    the instance are [a], [a + 1], ..., [b] for some [a <= b]. *)
Theorem is_contiguous_after_simplify (s : FrameRanges.t) :
  FrameRanges.valid s = true ->
  exists r,
    FrameRanges.simplify s = Ok r
    /\ (FrameRanges.is_contiguous r = true
        <-> exists a b, a <= b /\ FrameRanges.to_list s = range a (b + 1)).
Proof.
  intros Hv. destruct (simplify_outcome s Hv) as (r & Hr & _ & Hvr & Hsep & Hl).
  exists r. split; [done|]. rewrite <- Hl, to_list_frames_of.
  unfold FrameRanges.is_contiguous, FrameRanges.num_ranges, FrameRanges.valid in *.
  rewrite <- (length_fmap FrameRange.limits (FrameRanges._ranges r)).
  fold (FrameRanges.to_range_tuples r).
  destruct (FrameRanges.to_range_tuples r) as [|[f1 l1] [|[f2 l2] rest]].
  - split; [done|]. intros (a & b & Hab & Hf).
    rewrite range_cons in Hf by lia. done.
  - split; [|done]. intros _. exists f1, l1.
    simpl in Hvr. apply andb_prop in Hvr as [[_ H2%Z.leb_le]%andb_prop _].
    split; [done|]. rewrite frames_of_cons. simpl. by rewrite app_nil_r.
  - split; [done|]. intros (a & b & Hab & Hf). exfalso.
    simpl in Hvr.
    apply andb_prop in Hvr as [[H1%Z.ltb_lt H2%Z.leb_le]%andb_prop Hvr].
    apply andb_prop in Hvr as [[H3%Z.ltb_lt H4%Z.leb_le]%andb_prop Hvr].
    change (separated ((f1, l1) :: (f2, l2) :: rest))
      with ((l1 + 1 <? f2) && separated ((f2, l2) :: rest)) in Hsep.
    apply andb_prop in Hsep as [Hgap%Z.ltb_lt _].
    assert (Hin1 : l1 ∈ frames_of ((f1, l1) :: (f2, l2) :: rest)).
    { rewrite frames_of_cons. apply elem_of_app. left.
      apply elem_of_range. simpl. lia. }
    assert (Hin2 : f2 ∈ frames_of ((f1, l1) :: (f2, l2) :: rest)).
    { rewrite !frames_of_cons. apply elem_of_app. right.
      apply elem_of_app. left. apply elem_of_range. simpl. lia. }
    assert (Hout : l1 + 1 ∉ frames_of ((f1, l1) :: (f2, l2) :: rest)).
    { rewrite frames_of_cons. intros [Hx|Hx]%elem_of_app.
      - apply elem_of_range in Hx. simpl in Hx. lia.
      - assert (Hv' : FrameRanges.ranges_after (f2 - 1) ((f2, l2) :: rest) = true).
        { simpl. rewrite Hvr.
          destruct (Z.ltb_spec (f2 - 1) f2); [|lia].
          destruct (Z.leb_spec f2 l2); [done|lia]. }
        destruct (frames_of_increasing _ _ Hv') as [Hall _].
        rewrite Forall_forall in Hall. specialize (Hall _ Hx). simpl in Hall. lia. }
    rewrite Hf in Hin1, Hin2, Hout.
    apply elem_of_range in Hin1, Hin2. apply Hout, elem_of_range. lia.
Qed.

Lemma is_contiguous_after_simplify_witness :
  exists r,
    let s := FrameRanges.Build [range_of (1, 2); range_of (3, 4)] 0 false in
    FrameRanges.simplify s = Ok r
    /\ (FrameRanges.is_contiguous r = true
        <-> exists a b, a <= b /\ FrameRanges.to_list s = range a (b + 1)).
Proof.
  apply (is_contiguous_after_simplify
           (FrameRanges.Build [range_of (1, 2); range_of (3, 4)] 0 false)).
  reflexivity.
Defined.

(* ===================================================================== *)
(** * Further properties: boolean masks                                   *)
(* ===================================================================== *)

(** The mask that [to_bools] builds for strictly increasing frames. *)
Lemma to_bools_set_all (s : FrameRanges.t) (n : Z) :
  Forall (fun x => 0 < x) (FrameRanges.to_list s) -> 0 <= n ->
  FrameRanges.to_bools s (Some n)
  = Ok (set_all (replicate (Z.to_nat n) false)
          ((fun i => i - 1) <$> filter (fun i => i <= n) (FrameRanges.to_list s))).
Proof.
  intros Hpos Hn. unfold FrameRanges.to_bools, FrameRanges.np_zeros.
  destruct (Z.ltb_spec n 0); [lia|]. simpl bind.
  apply for_each_np_set_true. rewrite length_replicate.
  apply Forall_fmap, Forall_forall. intros x [Hx Hin]%list_elem_of_filter.
  rewrite Forall_forall in Hpos. specialize (Hpos x Hin). simpl. lia.
Qed.

Lemma lookup_mask (n : nat) (inds : list Z) (j : nat) :
  Forall (fun i => 0 <= i) inds ->
  set_all (replicate n false) inds !! j = Some true
  <-> (j < n)%nat /\ Z.of_nat j ∈ inds.
Proof.
  intros Hpos. rewrite lookup_set_all by done. rewrite length_replicate.
  split; [|auto]. intros [[? _]%lookup_replicate|H]; done.
Qed.

(** X15: the mask of [to_bools], as its documentation describes it.  For
    a valid instance and a frame count [n >= 0] (or, with no count given,
    the last frame of a non-empty instance) the call does not raise, the
    mask has length [n], and for every index [idx < n] the entry
    [bools[idx]] is [True] iff frame [idx + 1] is in the instance. *)
Theorem to_bools_mask (s : FrameRanges.t) (total_frame_count : option Z) :
  FrameRanges.valid s = true ->
  match total_frame_count with
  | Some n => 0 <= n
  | None => FrameRanges._ranges s <> []
  end ->
  exists bools,
    FrameRanges.to_bools s total_frame_count = Ok bools
    /\ Z.of_nat (length bools)
       = match total_frame_count with
         | Some n => n
         | None => end_of (FrameRanges._ranges s)
         end
    /\ forall idx : nat,
         (idx < length bools)%nat ->
         bools !! idx
         = Some (bool_decide (Z.of_nat idx + 1 ∈ FrameRanges.to_list s)).
Proof.
  intros Hv Hcount.
  set (n := match total_frame_count with
            | Some n => n
            | None => end_of (FrameRanges._ranges s)
            end).
  assert (Hn : 0 <= n).
  { destruct total_frame_count; [done|]. by apply valid_end_of. }
  assert (Heq : FrameRanges.to_bools s total_frame_count
                = FrameRanges.to_bools s (Some n)).
  { destruct total_frame_count as [m|]; [done|].
    unfold FrameRanges.to_bools. rewrite FrameRanges_limits_end.
    unfold n, end_of. destruct (last (FrameRanges._ranges s)) eqn:El; [done|].
    apply last_None in El. done. }
  assert (Hpos : Forall (fun x => 0 < x) (FrameRanges.to_list s)).
  { rewrite to_list_frames_of. by apply (frames_of_increasing _ 0). }
  rewrite Heq, (to_bools_set_all s n Hpos Hn).
  eexists. split; [done|].
  rewrite length_set_all, length_replicate. split; [lia|].
  intros idx Hidx.
  assert (Hinds : Forall (fun i => 0 <= i)
            ((fun i => i - 1) <$> filter (fun i => i <= n) (FrameRanges.to_list s))).
  { apply Forall_fmap, Forall_forall. intros x [_ Hin]%list_elem_of_filter.
    rewrite Forall_forall in Hpos. specialize (Hpos x Hin). simpl. lia. }
  pose proof (lookup_mask (Z.to_nat n) _ idx Hinds) as Hl.
  destruct (set_all _ _ !! idx) as [b|] eqn:Eb.
  2: { apply lookup_ge_None in Eb.
       rewrite length_set_all, length_replicate in Eb. lia. }
  f_equal. destruct b.
  - symmetry. apply bool_decide_eq_true.
    destruct (proj1 Hl eq_refl) as [_ Hin].
    apply list_elem_of_fmap in Hin as (x & Hx & [_ Hin]%list_elem_of_filter).
    by replace (Z.of_nat idx + 1) with x by lia.
  - symmetry. apply bool_decide_eq_false. intros Hin.
    assert (Some false = Some true); [|done]. apply Hl. split; [lia|].
    apply list_elem_of_fmap. exists (Z.of_nat idx + 1). split; [lia|].
    apply list_elem_of_filter. split; [lia|done].
Qed.

Lemma to_bools_mask_witness :
  exists bools,
    let s := FrameRanges.Build [range_of (1, 2); range_of (5, 6)] 0 false in
    FrameRanges.to_bools s None = Ok bools
    /\ Z.of_nat (length bools) = end_of (FrameRanges._ranges s)
    /\ forall idx : nat,
         (idx < length bools)%nat ->
         bools !! idx
         = Some (bool_decide (Z.of_nat idx + 1 ∈ FrameRanges.to_list s)).
Proof.
  apply (to_bools_mask
           (FrameRanges.Build [range_of (1, 2); range_of (5, 6)] 0 false) None).
  - reflexivity.
  - simpl. discriminate.
Defined.

Lemma filter_all {A : Type} (P : A -> Prop) `{!forall x, Decision (P x)}
    (l : list A) :
  Forall P l -> filter P l = l.
Proof.
  induction 1 as [|x l Hx _ IH]; [done|].
  rewrite filter_cons. destruct (decide (P x)); [|done]. by rewrite IH.
Qed.

(** Setting the positions that hold [True] rebuilds the mask. *)
Lemma set_all_flatnonzero (bools : list bool) :
  set_all (replicate (length bools) false) (FrameRanges.flatnonzero bools)
  = bools.
Proof.
  assert (Hpos : Forall (fun i => 0 <= i) (FrameRanges.flatnonzero bools)).
  { apply Forall_forall. intros x (j & -> & _)%elem_of_flatnonzero_from. lia. }
  apply list_eq. intros j.
  pose proof (lookup_mask (length bools) _ j Hpos) as Hl.
  destruct (bools !! j) as [b|] eqn:Eb.
  - destruct (set_all _ _ !! j) as [b'|] eqn:Eb'.
    2: { apply lookup_ge_None in Eb'. apply lookup_lt_Some in Eb.
         rewrite length_set_all, length_replicate in Eb'. lia. }
    f_equal. destruct b', b; try done.
    + destruct (proj1 Hl eq_refl) as [_ (k & Hk & Hkb)%elem_of_flatnonzero_from].
      assert (k = j) as -> by lia. congruence.
    + assert (Some false = Some true); [|done]. apply Hl.
      split; [by apply lookup_lt_Some in Eb|].
      apply elem_of_flatnonzero_from. exists j. split; [lia|done].
  - apply lookup_ge_None in Eb. apply lookup_ge_None.
    by rewrite length_set_all, length_replicate.
Qed.

(** X16: [from_bools], as its documentation describes it.  For every
    mask it returns, without raising, a valid instance that contains
    [frame] iff [bools[frame - 1]] is [True]; and [to_bools] with the
    length of the mask gives the mask back. *)
Theorem from_bools_mask (bools : list bool) :
  exists r,
    FrameRanges.from_bools bools = Ok r
    /\ FrameRanges.valid r = true
    /\ (forall frame,
          frame ∈ FrameRanges.to_list r
          <-> 1 <= frame /\ bools !! Z.to_nat (frame - 1) = Some true)
    /\ FrameRanges.to_bools r (Some (Z.of_nat (length bools))) = Ok bools.
Proof.
  set (frames := (fun i => 1 + i) <$> FrameRanges.flatnonzero bools).
  assert (Hs : StronglySorted Z.lt frames).
  { eapply StronglySorted_fmap; [|apply flatnonzero_from_increasing].
    intros x y Hxy. simpl. lia. }
  assert (Hb : Forall (fun x => 1 <= x <= Z.of_nat (length bools)) frames).
  { apply Forall_fmap, Forall_forall.
    intros x (j & -> & Hj)%elem_of_flatnonzero_from.
    apply lookup_lt_Some in Hj. simpl. lia. }
  destruct (from_iterable_spec frames) as (r & Hr & Hv & Hl).
  { by apply increasing_NoDup. }
  { eapply Forall_impl; [exact Hb|]. intros; simpl in *; lia. }
  rewrite sorted_increasing in Hl by done.
  exists r. split; [done|]. split; [done|]. split.
  - intros frame. rewrite Hl. unfold frames.
    rewrite list_elem_of_fmap. split.
    + intros (i & -> & (j & -> & Hj)%elem_of_flatnonzero_from).
      split; [lia|]. by replace (Z.to_nat (1 + (0 + Z.of_nat j) - 1)) with j by lia.
    + intros [H1 Hj]. exists (frame - 1). split; [lia|].
      apply elem_of_flatnonzero_from. exists (Z.to_nat (frame - 1)).
      split; [lia|done].
  - rewrite to_bools_set_all; [|rewrite Hl|lia].
    2: { eapply Forall_impl; [exact Hb|]. intros; simpl in *; lia. }
    rewrite Hl, filter_all.
    2: { eapply Forall_impl; [exact Hb|]. intros; simpl in *; lia. }
    unfold frames. rewrite <- list_fmap_compose.
    rewrite (list_fmap_ext _ id (FrameRanges.flatnonzero bools)),
      list_fmap_id by (intros; simpl; lia).
    by rewrite Nat2Z.id, set_all_flatnonzero.
Qed.

(* ===================================================================== *)
(** * Further properties: the human-readable form of a FrameRanges        *)
(* ===================================================================== *)

Lemma no_comma_app (s1 s2 : string) :
  no_comma s1 = true -> no_comma s2 = true -> no_comma (s1 +:+ s2) = true.
Proof.
  induction s1 as [|c tl IH]; simpl; [done|].
  intros [-> Htl]%andb_prop H2. simpl. by apply IH.
Qed.

Lemma no_comma_digits (s : string) : all_digits s = true -> no_comma s = true.
Proof.
  induction s as [|c tl IH]; simpl; [done|].
  intros [Hc Htl]%andb_prop. rewrite IH by done.
  destruct c as [[|] [|] [|] [|] [|] [|] [|] [|]]; try reflexivity;
    discriminate Hc.
Qed.

Lemma split_no_comma (s : string) : no_comma s = true -> split "," s = [s].
Proof.
  induction s as [|c tl IH]; simpl; [done|].
  intros [Hc Htl]%andb_prop. apply negb_true_iff in Hc. rewrite Hc.
  by rewrite IH.
Qed.

Lemma split_comma_app (s1 s2 : string) :
  no_comma s1 = true ->
  split "," (s1 +:+ "," +:+ s2) = s1 :: split "," s2.
Proof.
  induction s1 as [|c tl IH]; [done|].
  simpl. intros [Hc Htl]%andb_prop. apply negb_true_iff in Hc. rewrite Hc.
  simpl in IH. by rewrite IH.
Qed.

Lemma split_concat (strs : list string) :
  strs <> [] -> Forall (fun s => no_comma s = true) strs ->
  split "," (String.concat "," strs) = strs.
Proof.
  induction strs as [|s1 [|s2 strs] IH]; intros Hne Hall; [done| |].
  - apply Forall_cons in Hall as [H1 _]. simpl. by apply split_no_comma.
  - apply Forall_cons in Hall as [H1 Hall].
    change (String.concat "," (s1 :: s2 :: strs))
      with (s1 +:+ "," +:+ String.concat "," (s2 :: strs)).
    rewrite split_comma_app by done. by rewrite IH.
Qed.

(** Parsing the human string of a range with [1 <= first <= last]. *)
Lemma FrameRange_human_str (r : FrameRange.t) :
  1 <= FrameRange.first r -> FrameRange.first r <= FrameRange.last r ->
  FrameRange.from_human_str (FrameRange.to_human_str r)
  = Ok (range_of (FrameRange.limits r))
  /\ no_comma (FrameRange.to_human_str r) = true
  /\ FrameRange.to_human_str r <> EmptyString.
Proof.
  intros H1 H2.
  destruct (format_d_digits (FrameRange.first r) H1) as [Hdf Hnf].
  destruct (format_d_digits (FrameRange.last r) ltac:(lia)) as [Hdl Hnl].
  unfold FrameRange.from_human_str, FrameRange.to_human_str.
  destruct (Z.eqb_spec (FrameRange.first r) (FrameRange.last r)) as [Heq|Hne].
  - rewrite split_digits by done. simpl.
    rewrite int_of_str_format_d by done. simpl.
    rewrite FrameRange_init_Ok by lia.
    split; [|split; [by apply no_comma_digits|done]].
    unfold range_of, FrameRange.limits. simpl. by rewrite <- Heq.
  - rewrite split_digits_dash, split_digits by done. simpl.
    rewrite !int_of_str_format_d by lia. simpl.
    rewrite FrameRange_init_Ok by lia.
    split; [done|]. split.
    + apply no_comma_app; [by apply no_comma_digits|].
      apply (no_comma_app "-"); [done|by apply no_comma_digits].
    + destruct (format_d (FrameRange.first r)); done.
Qed.

Lemma parse_human_strs (rs : list FrameRange.t) :
  forall acc,
    Forall (fun r => 1 <= FrameRange.first r <= FrameRange.last r) rs ->
    for_each (fun ranges r =>
                match r with
                | EmptyString => Ok ranges
                | _ => fr <- FrameRange.from_human_str r ;;
                       Ok (ranges ++ [(FrameRange.first fr, FrameRange.last fr)])
                end)
             (FrameRange.to_human_str <$> rs) acc
    = Ok (acc ++ (FrameRange.limits <$> rs)).
Proof.
  induction rs as [|r rs IH]; intros acc Hok.
  - simpl. by rewrite app_nil_r.
  - apply Forall_cons in Hok as [[H1 H2] Hok].
    destruct (FrameRange_human_str r H1 H2) as (Hp & _ & Hne).
    rewrite fmap_cons. simpl for_each.
    destruct (FrameRange.to_human_str r) as [|c tl] eqn:E; [done|].
    rewrite Hp. simpl. rewrite IH by done.
    rewrite <- app_assoc. done.
Qed.

(** [_parse_frames_str] reads back the ranges of a valid instance. *)
Lemma parse_own_human_str (s : FrameRanges.t) :
  FrameRanges.valid s = true ->
  FrameRanges._parse_frames_str (FrameRanges.to_human_str s)
  = Ok (FrameRanges.to_range_tuples s).
Proof.
  intros Hv. unfold FrameRanges.valid in Hv.
  assert (Hok := valid_ranges_ok _ Hv).
  unfold FrameRanges._parse_frames_str, FrameRanges.to_human_str,
    FrameRanges.to_range_tuples.
  destruct (FrameRanges._ranges s) as [|r0 rs] eqn:Hrs; [done|].
  rewrite split_concat.
  - by rewrite parse_human_strs.
  - done.
  - apply Forall_fmap. eapply Forall_impl; [exact Hok|].
    intros r [H1 H2]. by destruct (FrameRange_human_str r H1 H2) as (_ & ? & _).
Qed.

(** X17: for a valid instance, parsing the string of [to_human_str]
    (with [from_human_str], that is the constructor applied to a string)
    does not raise and builds an instance with the same ranges, as the
    constructor builds it from them. *)
Theorem FrameRanges_human_str_round_trip (s : FrameRanges.t) :
  FrameRanges.valid s = true ->
  FrameRanges.from_human_str (FrameRanges.to_human_str s)
  = Ok (FrameRanges.Build (range_of <$> FrameRanges.to_range_tuples s) 0 false)
  /\ FrameRanges.from_human_str (FrameRanges.to_human_str s)
     = FrameRanges.__init__ (FrameRanges.to_range_tuples s).
Proof.
  intros Hv.
  assert (Hinit : FrameRanges.__init__ (FrameRanges.to_range_tuples s)
            = Ok (FrameRanges.Build
                    (range_of <$> FrameRanges.to_range_tuples s) 0 false)).
  { unfold FrameRanges.valid in Hv. by apply (ingest_all _ [] 0%nat false). }
  unfold FrameRanges.from_human_str.
  rewrite (parse_own_human_str s Hv). simpl bind.
  split; [exact Hinit|done].
Qed.

Lemma FrameRanges_human_str_round_trip_witness :
  let s := FrameRanges.Build [range_of (1, 3); range_of (6, 6); range_of (8, 10)]
             2 true in
  FrameRanges.from_human_str (FrameRanges.to_human_str s)
  = Ok (FrameRanges.Build (range_of <$> FrameRanges.to_range_tuples s) 0 false)
  /\ FrameRanges.from_human_str (FrameRanges.to_human_str s)
     = FrameRanges.__init__ (FrameRanges.to_range_tuples s).
Proof.
  apply (FrameRanges_human_str_round_trip
           (FrameRanges.Build
              [range_of (1, 3); range_of (6, 6); range_of (8, 10)] 2 true)).
  reflexivity.
Defined.

Lemma split_nonempty (sep : ascii) (s : string) : split sep s <> [].
Proof.
  destruct s as [|c tl]; simpl; [done|].
  destruct (Ascii.eqb c sep); [done|]. by destruct (split sep tl).
Qed.

Lemma parse_ints (toks : list string) :
  forall acc,
    match for_each (fun acc tok => n <- int_of_str tok ;; Ok (acc ++ [n]))
                   toks acc with
    | Ok v => length v = (length acc + length toks)%nat
    | Raise e => e = ValueError
    end.
Proof.
  induction toks as [|tok toks IH]; intros acc; simpl; [lia|].
  unfold int_of_str at 1.
  destruct (NilZero.int_of_string _) as [d|]; simpl; [|done].
  specialize (IH (acc ++ [Z.of_int d])).
  destruct (for_each _ toks _); [|done].
  rewrite IH, length_app. simpl. lia.
Qed.

Lemma FrameRange_from_human_str_cases (frames_str : string) :
  match FrameRange.from_human_str frames_str with
  | Ok r =>
      1 <= FrameRange.first r <= FrameRange.last r /\ FrameRange._frame r = -1
  | Raise e => e = FrameRangeError
  end.
Proof.
  unfold FrameRange.from_human_str.
  pose proof (parse_ints (split "-" frames_str) []) as Hp.
  pose proof (split_nonempty "-" frames_str) as Hne.
  destruct (for_each _ (split "-" frames_str) []) as [v|e]; [|by subst].
  simpl in Hp. destruct v as [|v0 v]; [by destruct (split "-" frames_str)|].
  simpl list_first. simpl bind. unfold list_last.
  destruct (last (v0 :: v)) as [vl|] eqn:El; [|by apply last_None in El].
  simpl. unfold FrameRange.__init__, FrameRange._validate_range.
  destruct (Z.ltb_spec v0 1); [done|].
  destruct (Z.ltb_spec vl v0); [done|]. simpl. split; [lia|done].
Qed.

Lemma parse_frames_str_cases (strs : list string) :
  forall acc,
    match for_each (fun ranges r =>
                match r with
                | EmptyString => Ok ranges
                | _ => fr <- FrameRange.from_human_str r ;;
                       Ok (ranges ++ [(FrameRange.first fr, FrameRange.last fr)])
                end) strs acc with
    | Ok _ => True
    | Raise e => e = FrameRangeError
    end.
Proof.
  induction strs as [|r strs IH]; intros acc; simpl; [done|].
  destruct r as [|c tl]; simpl; [apply IH|].
  pose proof (FrameRange_from_human_str_cases (String c tl)) as Hr.
  destruct (FrameRange.from_human_str (String c tl)) as [fr|e]; simpl; [|done].
  apply IH.
Qed.

(** X18: what parsing does with any string.  [FrameRange.from_human_str]
    returns a range with [1 <= first <= last] or raises
    [FrameRangeError]; [FrameRanges.from_human_str] returns a valid
    instance that has not been iterated, or raises [FrameRangeError] (a
    piece that is not a range) or [FrameRangesError] (ranges out of
    order).  No [ValueError] or [IndexError] escapes. *)
Theorem from_human_str_outcome (frames_str : string) :
  match FrameRange.from_human_str frames_str with
  | Ok r =>
      1 <= FrameRange.first r <= FrameRange.last r /\ FrameRange._frame r = -1
  | Raise e => e = FrameRangeError
  end
  /\ match FrameRanges.from_human_str frames_str with
     | Ok s =>
         FrameRanges.valid s = true
         /\ s = FrameRanges.Build
                  (range_of <$> FrameRanges.to_range_tuples s) 0 false
     | Raise e => e = FrameRangeError \/ e = FrameRangesError
     end.
Proof.
  split; [apply FrameRange_from_human_str_cases|].
  unfold FrameRanges.from_human_str, FrameRanges._parse_frames_str.
  pose proof (parse_frames_str_cases (split "," frames_str) []) as Hp.
  destruct (for_each _ (split "," frames_str) []) as [tuples|e]; simpl;
    [|by left].
  pose proof (ingest_outcome tuples [] 0%nat false ltac:(done)) as Ho.
  unfold FrameRanges.__init__, FrameRanges.empty.
  change (for_each FrameRanges._ingest_range) with (for_each FrameRanges.add_range).
  destruct (for_each FrameRanges.add_range tuples _) as [s|e].
  - destruct Ho as [Hv ->]. unfold FrameRanges.valid, FrameRanges.to_range_tuples.
    simpl. rewrite fmap_limits_range_of. done.
  - by destruct Ho as [_ ?].
Qed.

(* ===================================================================== *)
(** * Further properties: objects                                         *)
(* ===================================================================== *)

(** X19: the support that an [Object] without an explicit support infers
    from its detections.  It is a valid [FrameRanges] that holds exactly
    the frame numbers that are keys of [frames]; the property raises
    (a [FrameRangeError]) exactly when one of these keys is below 1. *)
Theorem support_of_frames (self : Object.t) :
  Object._support self = None ->
  match Object.support self with
  | Ok s =>
      FrameRanges.valid s = true
      /\ (forall f, f ∈ FrameRanges.to_list s <-> f ∈ dom (Object.frames self))
      /\ length (FrameRanges.to_list s) = size (Object.frames self)
  | Raise e =>
      e = FrameRangeError
      /\ exists f, f ∈ dom (Object.frames self) /\ f < 1
  end.
Proof.
  intros Hs. unfold Object.support. rewrite Hs.
  assert (Hk : forall f, f ∈ (map_to_list (Object.frames self)).*1
                         <-> f ∈ dom (Object.frames self)).
  { intros f. rewrite elem_of_dom, list_elem_of_fmap. split.
    - intros ([k d] & -> & Hin%elem_of_map_to_list). by exists d.
    - intros [d Hd]. exists (f, d). split; [done|].
      by apply elem_of_map_to_list. }
  destruct (decide (Forall (fun x => 1 <= x) (map_to_list (Object.frames self)).*1))
    as [Hpos|Hneg].
  - destruct (from_iterable_spec _ (NoDup_fst_map_to_list _) Hpos)
      as (s & -> & Hv & Hl).
    split; [done|]. split.
    + intros f. by rewrite Hl, elem_of_sorted, Hk.
    + rewrite Hl. unfold sorted. rewrite merge_sort_Permutation.
      by rewrite length_fmap, length_map_to_list.
  - apply not_Forall_Exists in Hneg; [|apply _].
    apply Exists_exists in Hneg as (x & Hx & Hlt). simpl in Hlt.
    rewrite (from_iterable_below_1 _ x Hx ltac:(lia)).
    split; [done|]. exists x. split; [by apply Hk|lia].
Qed.

Lemma support_of_frames_witness :
  match Object.support a_car with
  | Ok s =>
      FrameRanges.valid s = true
      /\ (forall f, f ∈ FrameRanges.to_list s <-> f ∈ dom (Object.frames a_car))
      /\ length (FrameRanges.to_list s) = size (Object.frames a_car)
  | Raise e =>
      e = FrameRangeError
      /\ exists f, f ∈ dom (Object.frames a_car) /\ f < 1
  end.
Proof. apply (support_of_frames a_car). reflexivity. Defined.

(** X20: [add_detections] succeeds exactly when every detection of the
    container has its frame number; otherwise it raises [ValueError].
    On success every detection of the container has its label set to
    [None] and is otherwise as it was, and no other detection changes;
    under each frame number [frames] holds the last detection of the
    container with that frame number, and what it held before when
    there is none, so its keys are the old keys and the frame numbers
    of the detections; nothing else of the object changes.  Read
    through the store, every entry of [frames] afterwards has its label
    set to [None] or is an entry that was there, unchanged: a detection
    of the container that [frames] held already, under whatever key,
    shows the new label there. *)
Theorem add_detections_outcome (h : Object.store)
    (self : Object.t_of Object.ref) (objects : list Object.ref) :
  match Object_add_detections h self objects with
  | Ok (h', self') =>
      Forall (fun r => is_Some (DetectedObject.frame_number (h r))) objects
      /\ (forall r, h' r = if decide (r ∈ objects)
                           then DetectedObject.set_label (h r) None
                           else h r)
      /\ (forall fn,
            Object.frames self' !! fn
            = match last (filter (fun r => DetectedObject.frame_number (h r)
                                           = Some fn) objects) with
              | Some r => Some r
              | None => Object.frames self !! fn
              end)
      /\ dom (Object.frames self')
         = dom (Object.frames self)
             ∪ list_to_set (omap (fun r => DetectedObject.frame_number (h r))
                              objects)
      /\ Object.set_frames self' (Object.frames self) = self
      /\ (forall fn d,
            Object.frames (Object.read h' self') !! fn = Some d ->
            DetectedObject.label d = None
            \/ Object.frames (Object.read h self) !! fn = Some d)
  | Raise e =>
      e = ValueError
      /\ Exists (fun r => DetectedObject.frame_number (h r) = None) objects
  end.
Proof.
  unfold Object_add_detections.
  cut (match for_each (fun acc obj =>
                         Object.add_detection (fst acc) (snd acc) obj None)
                      objects (h, self) with
       | Ok (h', self') =>
           Forall (fun r => is_Some (DetectedObject.frame_number (h r))) objects
           /\ (forall r, h' r = if decide (r ∈ objects)
                                then DetectedObject.set_label (h r) None
                                else h r)
           /\ (forall fn,
                 Object.frames self' !! fn
                 = match last (filter (fun r => DetectedObject.frame_number (h r)
                                                = Some fn) objects) with
                   | Some r => Some r
                   | None => Object.frames self !! fn
                   end)
           /\ Object.set_frames self' (Object.frames self) = self
       | Raise e =>
           e = ValueError
           /\ Exists (fun r => DetectedObject.frame_number (h r) = None) objects
       end).
  { destruct (for_each _ objects (h, self)) as [[h' self']|e]; [|done].
    intros (Hall & Hstore & Hframes & Hrest).
    split; [done|]. split; [done|]. split; [done|].
    split; [|split; [done|]].
    - apply set_eq. intros fn.
      rewrite elem_of_union, !elem_of_dom, Hframes, elem_of_list_to_set,
        list_elem_of_omap.
      destruct (last (filter _ objects)) as [r|] eqn:El.
      + split; [|by eauto]. intros _. right.
        apply last_Some_elem_of, list_elem_of_filter in El as [Hfn Hin].
        by exists r.
      + split; [auto|]. intros [?|(r & Hin & Hfn)]; [done|].
        apply last_None in El.
        assert (Hr : r ∈ filter (fun r => DetectedObject.frame_number (h r)
                                          = Some fn) objects)
          by (by apply list_elem_of_filter).
        rewrite El in Hr. by apply elem_of_nil in Hr.
    - intros fn d. unfold Object.read. simpl. rewrite !lookup_fmap, Hframes.
      destruct (last (filter _ objects)) as [r|] eqn:El; simpl.
      + intros [= <-]. left.
        apply last_Some_elem_of, list_elem_of_filter in El as [_ Hin].
        rewrite Hstore. by case_decide.
      + destruct (Object.frames self !! fn) as [r|]; simpl; [|done].
        intros [= <-]. rewrite Hstore. case_decide; [by left|by right]. }
  revert h self. induction objects as [|r0 objects IH]; intros h self.
  - simpl. split; [constructor|]. split; [|split; [done|by destruct self]].
    intros r. by destruct (decide (r ∈ [])) as [Hin%elem_of_nil|].
  - simpl. unfold Object.setattr_label.
    destruct (DetectedObject.frame_number (h r0)) as [fn0|] eqn:E0; simpl.
    2: { split; [done|]. by left. }
    set (h1 := <[r0 := DetectedObject.set_label (h r0) None]> h).
    assert (Hfn : forall r, DetectedObject.frame_number (h1 r)
                            = DetectedObject.frame_number (h r)).
    { intros r. unfold h1. destruct (decide (r = r0)) as [->|Hne].
      - by rewrite fn_lookup_insert.
      - by rewrite fn_lookup_insert_ne. }
    specialize (IH h1 (Object.set_frames self (<[fn0 := r0]> (Object.frames self)))).
    destruct (for_each _ objects _) as [[h' self']|e].
    + destruct IH as (Hall & Hstore & Hframes & Hrest).
      split; [|split; [|split]].
      * constructor; [by rewrite E0|].
        eapply Forall_impl; [exact Hall|]. intros r. cbv beta. by rewrite Hfn.
      * intros r. rewrite Hstore. unfold h1.
        destruct (decide (r = r0)) as [->|Hne].
        -- rewrite fn_lookup_insert, (decide_True _ _ (list_elem_of_here _ _)).
           by case_decide.
        -- rewrite fn_lookup_insert_ne by done.
           destruct (decide (r ∈ objects)) as [Hin|Hnin].
           ++ by rewrite decide_True by (by right).
           ++ rewrite decide_False; [done|].
              intros [?|?]%elem_of_cons; done.
      * intros fn. rewrite Hframes.
        rewrite (list_filter_iff
                   (fun r => DetectedObject.frame_number (h1 r) = Some fn)
                   (fun r => DetectedObject.frame_number (h r) = Some fn))
          by (intros r; by rewrite Hfn).
        rewrite filter_cons. simpl.
        destruct (decide (DetectedObject.frame_number (h r0) = Some fn))
          as [Heq|Hne].
        -- assert (fn0 = fn) as -> by congruence.
           rewrite lookup_insert_eq.
           destruct (filter _ objects) as [|r1 l]; [done|].
           rewrite last_cons_cons.
           destruct (last (r1 :: l)) eqn:El; [done|by apply last_None in El].
        -- rewrite lookup_insert_ne by congruence. done.
      * destruct self, self'. simpl in *. by injection Hrest as -> -> -> -> -> -> ->.
    + destruct IH as [-> Hex]. split; [done|]. right.
      eapply Exists_impl; [exact Hex|]. intros r. cbv beta. by rewrite Hfn.
Qed.

(** A detection with frame number 5 that [frames] already holds under
    key 3: [add_detections] files it under 5 as well, and the label is
    gone under both keys. *)
Example add_detections_relabels_stored :
  let h : Object.store := fun _ =>
    DetectedObject.Build (Some "car"%string) None None (Some 5) ∅ [] in
  let self : Object.t_of Object.ref :=
    Object.Build (Some "car"%string) None None None [] {[3 := 0%nat]} ∅ None in
  match Object_add_detections h self [0%nat] with
  | Ok (h', self') =>
      DetectedObject.label <$> Object.frames (Object.read h' self') !! 3
      = Some None
      /\ DetectedObject.label <$> Object.frames (Object.read h' self') !! 5
         = Some None
      /\ DetectedObject.label <$> Object.frames (Object.read h self) !! 3
         = Some (Some "car"%string)
  | Raise _ => False
  end.
Proof. repeat split; reflexivity. Qed.

(* ===================================================================== *)
(** * Further properties: the active schema of a container                *)
(* ===================================================================== *)

Section ContainerActiveSchema.
Context `{AttributeContainerSchemaAPI} `{!AttributeContainerSchemaValidate}.

Lemma grows_refl (S : ObjectContainerSchema) : grows S S.
Proof. intros label entry He. exists entry. auto. Qed.

Lemma grows_trans (S1 S2 S3 : ObjectContainerSchema) :
  grows S1 S2 -> grows S2 S3 -> grows S1 S3.
Proof.
  intros H12 H23 label e1 He1.
  destruct (H12 label e1 He1) as (e2 & He2 & Ha2 & Hf2).
  destruct (H23 label e2 He2) as (e3 & He3 & Ha3 & Hf3).
  exists e3. split; [done|]. split; auto.
Qed.

Lemma accepts_attrs_grows (S S' : ObjectContainerSchema) label attrs :
  grows S S' -> accepts_attrs S label attrs -> accepts_attrs S' label attrs.
Proof.
  intros Hg (e & He & Hv). destruct (Hg label e He) as (e' & He' & Ha & _).
  exists e'. auto.
Qed.

Lemma accepts_frame_grows (S S' : ObjectContainerSchema) label attrs :
  grows S S' -> accepts_frame S label attrs -> accepts_frame S' label attrs.
Proof.
  intros Hg (e & He & Hv). destruct (Hg label e He) as (e' & He' & _ & Hf).
  exists e'. auto.
Qed.

Lemma ensure_has_object_label_spec (S : ObjectContainerSchema) label :
  grows S (ObjectContainerSchema__ensure_has_object_label S label)
  /\ is_Some (ObjectContainerSchema__ensure_has_object_label S label !! label).
Proof.
  unfold ObjectContainerSchema__ensure_has_object_label,
    ObjectContainerSchema_has_object_label.
  destruct (bool_decide_reflect (is_Some (S !! label))) as [Hs|Hn]; simpl.
  - split; [apply grows_refl|done].
  - split; [|by rewrite lookup_insert_eq].
    intros l e He. exists e. split; [|auto].
    rewrite lookup_insert_ne; [done|]. intros <-. apply Hn. by rewrite He.
Qed.

Lemma on_entry_grows (S S' : ObjectContainerSchema) label
    (m : ObjectSchema -> result ObjectSchema) :
  on_entry S label m = Ok S' ->
  (forall entry entry', S !! label = Some entry -> m entry = Ok entry' ->
     (forall a, acs_validate (os_attrs entry) a = Ok tt ->
                acs_validate (os_attrs entry') a = Ok tt)
     /\ (forall a, acs_validate (os_frames entry) a = Ok tt ->
                   acs_validate (os_frames entry') a = Ok tt)) ->
  grows S S'
  /\ exists entry entry', S !! label = Some entry /\ m entry = Ok entry'
       /\ S' !! label = Some entry'.
Proof.
  unfold on_entry. intros Hon Hm.
  destruct (S !! label) as [entry|] eqn:He; [|done].
  destruct (m entry) as [entry'|] eqn:Hme; [|done]. simpl in Hon.
  injection Hon as <-. split.
  - intros l e Hl. destruct (decide (l = label)) as [->|Hne].
    + exists entry'. rewrite lookup_insert_eq. split; [done|].
      assert (e = entry) as -> by congruence. by apply Hm.
    + exists e. rewrite lookup_insert_ne by done. auto.
  - exists entry, entry'. by rewrite lookup_insert_eq.
Qed.

Lemma add_object_attributes_spec (S S' : ObjectContainerSchema) label attrs :
  ObjectContainerSchema_add_object_attributes S label (OfAttrs attrs) = Ok S' ->
  grows S S' /\ accepts_attrs S' label attrs.
Proof.
  unfold ObjectContainerSchema_add_object_attributes. intros Hon.
  destruct (ensure_has_object_label_spec S label) as [Hg _].
  apply on_entry_grows in Hon as [Hg' (e & e' & He & Hm & He')].
  - split; [by eapply grows_trans|]. exists e'. split; [done|].
    unfold ObjectSchema_add_object_attributes in Hm.
    destruct (acs_add_attributes (os_attrs e) (OfAttrs attrs)) as [a|] eqn:Ea;
      [|done].
    injection Hm as <-. simpl. by apply (acs_add_validates (os_attrs e)).
  - intros e e' _ Hm. unfold ObjectSchema_add_object_attributes in Hm.
    destruct (acs_add_attributes (os_attrs e) (OfAttrs attrs)) as [a|] eqn:Ea;
      [|done].
    injection Hm as <-. simpl. split; [|auto].
    intros other. by apply (acs_add_keeps (os_attrs e) attrs).
Qed.

Lemma add_frame_attributes_spec (S S' : ObjectContainerSchema) label attrs :
  ObjectContainerSchema_add_frame_attributes S label (OfAttrs attrs) = Ok S' ->
  grows S S' /\ accepts_frame S' label attrs.
Proof.
  unfold ObjectContainerSchema_add_frame_attributes. intros Hon.
  destruct (ensure_has_object_label_spec S label) as [Hg _].
  apply on_entry_grows in Hon as [Hg' (e & e' & He & Hm & He')].
  - split; [by eapply grows_trans|]. exists e'. split; [done|].
    unfold ObjectSchema_add_frame_attributes in Hm.
    destruct (acs_add_attributes (os_frames e) (OfAttrs attrs)) as [a|] eqn:Ea;
      [|done].
    injection Hm as <-. simpl. by apply (acs_add_validates (os_frames e)).
  - intros e e' _ Hm. unfold ObjectSchema_add_frame_attributes in Hm.
    destruct (acs_add_attributes (os_frames e) (OfAttrs attrs)) as [a|] eqn:Ea;
      [|done].
    injection Hm as <-. simpl. split; [auto|].
    intros other. by apply (acs_add_keeps (os_frames e) attrs).
Qed.

Lemma add_detected_object_spec (S S' : ObjectContainerSchema)
    (dobj : DetectedObject.t) (label : option string) :
  ObjectContainerSchema__add_detected_object S dobj label = Ok S' ->
  grows S S'
  /\ accepts_frame S' (filed_under dobj label) (DetectedObject.attrs dobj).
Proof.
  unfold ObjectContainerSchema__add_detected_object, filed_under.
  destruct (DetectedObject.label dobj) as [l|]; intros Hadd.
  - apply add_frame_attributes_spec in Hadd as [Hg Ha]. split; [|done].
    eapply grows_trans; [|exact Hg].
    apply ensure_has_object_label_spec.
  - by apply add_frame_attributes_spec in Hadd.
Qed.

Lemma add_detections_spec (ds : list DetectedObject.t) (label : option string) :
  forall S S',
    for_each (fun self dobj =>
                ObjectContainerSchema__add_detected_object self dobj label)
             ds S = Ok S' ->
    grows S S'
    /\ Forall (fun d => accepts_frame S' (filed_under d label)
                          (DetectedObject.attrs d)) ds.
Proof.
  induction ds as [|d ds IH]; intros S S'; simpl.
  - intros [= <-]. split; [apply grows_refl|constructor].
  - destruct (ObjectContainerSchema__add_detected_object S d label)
      as [S1|] eqn:E1; [|done]. simpl. intros Hrest.
    apply add_detected_object_spec in E1 as [Hg1 Ha1].
    destruct (IH _ _ Hrest) as [Hg Hall].
    split; [by eapply grows_trans|]. constructor; [|done].
    by eapply accepts_frame_grows.
Qed.

Lemma accepts_grows (S S' : ObjectContainerSchema) (obj : labels) :
  grows S S' -> accepts S obj -> accepts S' obj.
Proof.
  intros Hg. destruct obj as [o|d]; simpl.
  - intros [Ha Hf]. split; [by eapply accepts_attrs_grows|].
    eapply Forall_impl; [exact Hf|]. intros d. by apply accepts_frame_grows.
  - by apply accepts_frame_grows.
Qed.

Lemma add_object_spec (S S' : ObjectContainerSchema) (obj : labels) :
  ObjectContainerSchema_add_object S obj = Ok S' ->
  grows S S' /\ accepts S' obj.
Proof.
  destruct obj as [o|d]; simpl.
  - unfold ObjectContainerSchema__add_object, ObjectContainerSchema_add_object_label.
    destruct (ObjectContainerSchema_add_object_attributes _ _ _) as [S1|] eqn:E1;
      [|done]. simpl. intros Hds.
    apply add_object_attributes_spec in E1 as [Hg1 Ha1].
    apply add_detections_spec in Hds as [Hg2 Hall].
    split.
    + eapply grows_trans; [apply ensure_has_object_label_spec|].
      by eapply grows_trans.
    + split; [by eapply accepts_attrs_grows|done].
  - apply add_detected_object_spec.
Qed.

Lemma add_objects_spec (objects : list labels) :
  forall S S',
    for_each ObjectContainerSchema_add_object objects S = Ok S' ->
    grows S S' /\ Forall (accepts S') objects.
Proof.
  induction objects as [|obj objects IH]; intros S S'; simpl.
  - intros [= <-]. split; [apply grows_refl|constructor].
  - destruct (ObjectContainerSchema_add_object S obj) as [S1|] eqn:E1; [|done].
    simpl. intros Hrest.
    apply add_object_spec in E1 as [Hg1 Ha1].
    destruct (IH _ _ Hrest) as [Hg Hall].
    split; [by eapply grows_trans|]. constructor; [|done].
    by eapply accepts_grows.
Qed.

Lemma validate_object_label_Ok (S : ObjectContainerSchema) label entry :
  S !! label = Some entry ->
  ObjectContainerSchema_validate_object_label S label = Ok tt.
Proof.
  intros He. unfold ObjectContainerSchema_validate_object_label.
  by rewrite bool_decide_eq_true_2 by (by rewrite He).
Qed.

Lemma validate_frame_attributes_Ok (S : ObjectContainerSchema) label attrs :
  accepts_frame S label attrs ->
  ObjectContainerSchema_validate_object_label S label = Ok tt
  /\ ObjectContainerSchema_validate_frame_attributes S label attrs = Ok tt.
Proof.
  intros (e & He & Hv).
  unfold ObjectContainerSchema_validate_frame_attributes, schema_getitem.
  rewrite (validate_object_label_Ok S label e He), He. done.
Qed.

Lemma validate_object_attributes_Ok (S : ObjectContainerSchema) label attrs :
  accepts_attrs S label attrs ->
  ObjectContainerSchema_validate_object_label S label = Ok tt
  /\ ObjectContainerSchema_validate_object_attributes S label attrs = Ok tt.
Proof.
  intros (e & He & Hv).
  unfold ObjectContainerSchema_validate_object_attributes, schema_getitem.
  rewrite (validate_object_label_Ok S label e He), He. done.
Qed.

Lemma validate_detections_Ok (S : ObjectContainerSchema) (label : option string)
    (ds : list DetectedObject.t) :
  Forall (fun d => accepts_frame S (match label with
                                    | None => DetectedObject.label d
                                    | Some l => Some l
                                    end) (DetectedObject.attrs d)) ds ->
  for_each (fun _ dobj =>
              ObjectContainerSchema__validate_detected_object S dobj label)
           ds tt = Ok tt.
Proof.
  induction 1 as [|d ds Hd _ IH]; [done|]. simpl.
  unfold ObjectContainerSchema__validate_detected_object at 1.
  destruct (validate_frame_attributes_Ok _ _ _ Hd) as [-> ->]. simpl. exact IH.
Qed.

Lemma filed_under_validated (d : DetectedObject.t) (label : option string) :
  match label with
  | None => True
  | Some l => DetectedObject.label d = None \/ DetectedObject.label d = Some l
  end ->
  filed_under d label
  = match label with None => DetectedObject.label d | Some l => Some l end.
Proof.
  unfold filed_under. destruct label as [l|].
  - by intros [->| ->].
  - by destruct (DetectedObject.label d).
Qed.

Lemma accepts_validate_object (S : ObjectContainerSchema) (obj : labels) :
  labelled_as_object obj = true -> accepts S obj ->
  ObjectContainerSchema_validate_object S obj = Ok tt.
Proof.
  destruct obj as [o|d]; simpl.
  - intros Hl [Ha Hf]. unfold ObjectContainerSchema__validate_object.
    destruct (validate_object_attributes_Ok _ _ _ Ha) as [-> ->]. simpl.
    apply validate_detections_Ok.
    rewrite Forall_forall in Hf. apply Forall_forall. intros d Hd.
    rewrite <- filed_under_validated; [by apply Hf|].
    destruct (Object.label o) as [l|]; [|done].
    rewrite forallb_forall in Hl. apply list_elem_of_In in Hd.
    specialize (Hl d Hd). by apply bool_decide_eq_true in Hl.
  - intros _ Ha. unfold ObjectContainerSchema__validate_detected_object.
    rewrite filed_under_validated in Ha by done.
    by destruct (validate_frame_attributes_Ok _ _ _ Ha) as [-> ->].
Qed.

(** X21: the active schema of a container validates the container.  When
    [ObjectContainerSchema.build_active_schema(objects)] returns a schema,
    [validate(objects)] on that schema does not raise, for containers of
    [Object]s and of [DetectedObject]s alike, provided the detections
    stored in a labelled object do not carry a different label, and the
    attribute schemas validate what was added to them. *)
Theorem container_active_schema_validates (objects : list labels)
    (schema : ObjectContainerSchema) :
  forallb labelled_as_object objects = true ->
  ObjectContainerSchema_build_active_schema objects = Ok schema ->
  ObjectContainerSchema_validate schema objects = Ok tt.
Proof.
  intros Hl Hb. unfold ObjectContainerSchema_build_active_schema in Hb.
  apply add_objects_spec in Hb as [_ Hall].
  unfold ObjectContainerSchema_validate.
  induction Hall as [|obj objects Ha _ IH]; [done|].
  simpl in Hl. apply andb_prop in Hl as [Hl1 Hl2]. simpl.
  rewrite accepts_validate_object by done. simpl. by apply IH.
Qed.

End ContainerActiveSchema.

Lemma name_values_validate_iff (self : gmap string (gset string))
    (attrs : AttributeContainer) :
  for_each (name_values_validate_attribute self) attrs tt = Ok tt
  <-> Forall (fun a => exists values, self !! Attribute.name a = Some values
                         /\ Attribute.value a ∈ values) attrs.
Proof.
  induction attrs as [|a attrs IH]; simpl.
  - split; [constructor|done].
  - unfold name_values_validate_attribute at 1.
    destruct (self !! Attribute.name a) as [values|] eqn:E; simpl.
    + destruct (decide (Attribute.value a ∈ values)) as [Hin|Hnin]; simpl.
      * rewrite IH. split.
        -- intros Hall. constructor; [|done]. exists values. by rewrite E.
        -- by intros [_ ?]%Forall_cons.
      * split; [done|]. intros [(v & Hv & Hin) _]%Forall_cons.
        rewrite E in Hv. by injection Hv as ->.
    + split; [done|]. intros [(v & Hv & _) _]%Forall_cons.
      by rewrite E in Hv.
Qed.

Lemma name_values_add_spec (attrs : AttributeContainer) :
  forall self s' : gmap string (gset string),
    for_each name_values_add_attribute attrs self = Ok s' ->
    (forall n values, self !! n = Some values ->
       exists values', s' !! n = Some values' /\ values ⊆ values')
    /\ Forall (fun a => exists values, s' !! Attribute.name a = Some values
                          /\ Attribute.value a ∈ values) attrs.
Proof.
  induction attrs as [|a attrs IH]; intros self s'; simpl.
  - intros [= <-]. split; [|constructor]. intros n values Hn. by exists values.
  - intros Hrest. destruct (IH _ _ Hrest) as [Hmono Hall].
    assert (Hstep : forall n values, self !! n = Some values ->
              exists values',
                <[Attribute.name a :=
                    {[Attribute.value a]} ∪ default ∅ (self !! Attribute.name a)]>
                  self !! n = Some values' /\ values ⊆ values').
    { intros n values Hn. destruct (decide (n = Attribute.name a)) as [->|Hne].
      - rewrite lookup_insert_eq, Hn. simpl. eexists. split; [done|].
        apply union_subseteq_r.
      - rewrite lookup_insert_ne by done. by exists values. }
    split.
    + intros n values Hn. destruct (Hstep n values Hn) as (v1 & H1 & Hs1).
      destruct (Hmono n v1 H1) as (v2 & H2 & Hs2).
      exists v2. split; [done|]. by etrans.
    + constructor; [|done].
      destruct (Hmono (Attribute.name a)
                  ({[Attribute.value a]} ∪ default ∅ (self !! Attribute.name a)))
        as (v2 & H2 & Hs2); [by rewrite lookup_insert_eq|].
      exists v2. split; [done|]. apply Hs2, elem_of_union_l.
      by apply elem_of_singleton.
Qed.

(** The concrete attribute schemas validate as the theorem asks. *)
#[export] Instance name_values_validate :
  @AttributeContainerSchemaValidate name_values_schemas.
Proof.
  split; simpl.
  - intros s attrs s' Hadd. apply name_values_validate_iff.
    by apply name_values_add_spec in Hadd as [_ ?].
  - intros s attrs s' other Hadd Hv. apply name_values_validate_iff.
    apply name_values_validate_iff in Hv.
    apply name_values_add_spec in Hadd as [Hmono _].
    eapply Forall_impl; [exact Hv|]. intros a (v & Hv' & Hin).
    destruct (Hmono _ _ Hv') as (v' & Hv'' & Hs). exists v'. split; [done|].
    by apply Hs.
Qed.

Lemma container_active_schema_validates_witness :
  ObjectContainerSchema_validate
    ({[ Some "car"%string :=
          MkObjectSchema (Some "car"%string) ∅
            ({[ "color"%string := {[ "red"%string ]} ]} : gmap string (gset string))
            ∅ ]} : gmap (option string) (@ObjectSchema name_values_schemas))
    [AnObject a_car; ADetectedObject a_car_detection]
  = Ok tt.
Proof.
  apply (container_active_schema_validates
           [AnObject a_car; ADetectedObject a_car_detection]).
  - reflexivity.
  - reflexivity.
Defined.

(* ===================================================================== *)
(** * Further properties: [parse_frame_ranges]                            *)
(* ===================================================================== *)

(** X22: [parse_frame_ranges] reads the same frames from the different
    descriptions of a valid instance: from its human-readable string and
    from the list of its frames (in any order) it returns, without
    raising, valid instances with the frames of the instance; and from a
    [FrameRange] with [1 <= first <= last] an instance with the frames of
    that range. *)
Theorem parse_frame_ranges_same_frames (s : FrameRanges.t) (frames : list Z)
    (r : FrameRange.t) :
  FrameRanges.valid s = true ->
  frames ≡ₚ FrameRanges.to_list s ->
  1 <= FrameRange.first r -> FrameRange.first r <= FrameRange.last r ->
  exists from_str from_list from_range,
    parse_frame_ranges (FramesStr (FrameRanges.to_human_str s)) = Ok from_str
    /\ parse_frame_ranges (FramesIterable frames) = Ok from_list
    /\ parse_frame_ranges (AFrameRange r) = Ok from_range
    /\ FrameRanges.to_list from_str = FrameRanges.to_list s
    /\ FrameRanges.to_list from_list = FrameRanges.to_list s
    /\ FrameRanges.to_list from_range = FrameRange.to_list r
    /\ FrameRanges.valid from_str = true
    /\ FrameRanges.valid from_list = true
    /\ FrameRanges.valid from_range = true.
Proof.
  intros Hv Hp H1 H2.
  assert (Hstr : FrameRanges.from_human_str (FrameRanges.to_human_str s)
            = Ok (FrameRanges.Build
                    (range_of <$> FrameRanges.to_range_tuples s) 0 false)).
  { unfold FrameRanges.from_human_str.
    rewrite (parse_own_human_str s Hv). simpl bind.
    unfold FrameRanges.valid in Hv. by apply (ingest_all _ [] 0%nat false). }
  assert (Hinc : StronglySorted Z.lt (FrameRanges.to_list s)).
  { rewrite to_list_frames_of. by apply (frames_of_increasing _ 0). }
  assert (Hpos : Forall (fun x => 1 <= x) (FrameRanges.to_list s)).
  { rewrite to_list_frames_of.
    destruct (frames_of_increasing _ 0 Hv) as [Hall _].
    eapply Forall_impl; [exact Hall|]. intros; simpl in *; lia. }
  destruct (from_iterable_spec frames) as (fl & Hfl & Hvl & Hll).
  { rewrite Hp. by apply increasing_NoDup. }
  { by rewrite Hp. }
  exists (FrameRanges.Build (range_of <$> FrameRanges.to_range_tuples s) 0 false),
    fl, (FrameRanges.Build [range_of (FrameRange.limits r)] 0 false).
  simpl parse_frame_ranges. split; [done|]. split; [done|]. split.
  { unfold FrameRanges.from_frame_range, FrameRanges.__init__. simpl.
    unfold FrameRanges._ingest_range. simpl.
    by rewrite FrameRange_init_Ok by lia. }
  split; [by rewrite to_list_built, to_list_frames_of|].
  split; [by rewrite Hll, (sorted_Permutation _ _ Hp), sorted_increasing|].
  split; [unfold FrameRanges.to_list, FrameRange.to_list; simpl;
          by rewrite app_nil_r|].
  split; [|split; [done|]].
  - unfold FrameRanges.valid, FrameRanges.to_range_tuples. simpl.
    by rewrite fmap_limits_range_of.
  - unfold FrameRanges.valid. simpl.
    destruct (Z.ltb_spec 0 (FrameRange.first r)); [|lia].
    destruct (Z.leb_spec (FrameRange.first r) (FrameRange.last r)); [|lia]. done.
Qed.

Lemma parse_frame_ranges_same_frames_witness :
  let s := FrameRanges.Build [range_of (1, 3); range_of (6, 6); range_of (8, 10)]
             0 false in
  exists from_str from_list from_range,
    parse_frame_ranges (FramesStr (FrameRanges.to_human_str s)) = Ok from_str
    /\ parse_frame_ranges (FramesIterable [1; 2; 3; 6; 8; 9; 10]) = Ok from_list
    /\ parse_frame_ranges (AFrameRange (FrameRange.Build 4 5 (-1))) = Ok from_range
    /\ FrameRanges.to_list from_str = FrameRanges.to_list s
    /\ FrameRanges.to_list from_list = FrameRanges.to_list s
    /\ FrameRanges.to_list from_range
       = FrameRange.to_list (FrameRange.Build 4 5 (-1))
    /\ FrameRanges.valid from_str = true
    /\ FrameRanges.valid from_list = true
    /\ FrameRanges.valid from_range = true.
Proof.
  apply (parse_frame_ranges_same_frames
           (FrameRanges.Build
              [range_of (1, 3); range_of (6, 6); range_of (8, 10)] 0 false)
           [1; 2; 3; 6; 8; 9; 10] (FrameRange.Build 4 5 (-1))).
  - reflexivity.
  - reflexivity.
  - simpl. lia.
  - simpl. lia.
Defined.

(* ===================================================================== *)
(** * Further properties: merging with an empty schema                    *)
(* ===================================================================== *)

Section MergeSchemaEmpty.
Context `{AttributeContainerSchemaAPI} `{!AttributeContainerSchemaMerge}.

(** X23: the empty container schema is neutral for [merge_schema].
    Merging it into a schema changes nothing; merging a schema into it,
    where that does not raise, gives a copy of the schema (children
    included); and it does not raise on a well-keyed schema when merging
    attribute schemas does not. *)
Theorem merge_schema_empty_neutral (schema : ObjectContainerSchema) :
  ObjectContainerSchema_merge_schema schema ObjectContainerSchema_new = Ok schema
  /\ (forall merged,
        ObjectContainerSchema_merge_schema ObjectContainerSchema_new schema
        = Ok merged ->
        merged = schema)
  /\ ((forall x y, is_ok (acs_merge_schema x y) = true) ->
      well_keyed_entries schema = true ->
      ObjectContainerSchema_merge_schema ObjectContainerSchema_new schema
      = Ok schema).
Proof.
  unfold ObjectContainerSchema_merge_schema, ObjectContainerSchema_new.
  assert (Hcopy : forall merged,
            merge_entries ObjectSchema_merge_schema ∅ schema = Ok merged ->
            merged = schema).
  { intros merged Hm. apply map_eq. intros k.
    pose proof (merge_entries_lookup _ _ _ _ Hm k) as Hk.
    destruct (schema !! k) as [x|] eqn:E.
    - destruct Hk as (m & -> & Hmx). rewrite lookup_empty in Hmx. simpl in Hmx.
      f_equal. by apply merge_new in Hmx.
    - by rewrite Hk, lookup_empty. }
  split; [|split; [exact Hcopy|]].
  - unfold merge_entries. by rewrite map_fold_empty.
  - intros Htotal Hwk.
    destruct (merge_entries_total ObjectSchema_merge_schema (fun _ _ => True)
                ∅ schema) as (r & Hr & _); [|done|].
    + intros k x Hx. rewrite lookup_empty. simpl.
      rewrite well_keyed_entries_spec in Hwk. destruct (Hwk k x Hx) as [Hl Hw].
      destruct (ObjectSchema_merge_schema_total Htotal
                  (S (schema_size (ObjectSchema_new k) + schema_size x))
                  (ObjectSchema_new k) x) as (r & Hr & _); try done; [lia|].
      by exists r.
    + rewrite Hr. f_equal. by apply Hcopy.
Qed.

End MergeSchemaEmpty.

Lemma merge_schema_empty_neutral_witness :
  ObjectContainerSchema_merge_schema ObjectContainerSchema_new cars_blue_and_person
  = Ok cars_blue_and_person.
Proof.
  apply (merge_schema_empty_neutral cars_blue_and_person).
  - intros x y. reflexivity.
  - vm_compute. reflexivity.
Defined.
